(** * Armada: lease protocol schema, token authentication, jobset-id cache
      and SQL schema extraction

    A shallow embedding of four parts of the repository:

    - [Proto]: the wire schema of the executor lease protocol (the file with
      [service AggregatedQueue]): messages, fields, options and rpcs as data.
    - [JobsetMapper]: [PostgresJobsetMapper.Get] over an LRU cache with a
      database fallback (internal/eventapi/jobset_mapper.go), sequentially and
      under interleaving of two callers.
    - [Auth]: [KubernetesNativeAuthService.Authenticate] with its token cache,
      kid validation and token review (package authorization).
    - [Schema]: [schemaFromString] (package eventscheduler).

    Go strings are byte strings and are modelled by [string]; Go [int64]
    values by [Z]; Go errors by constructors of an error type; a Go panic by
    a separate outcome where one can occur. *)

From Stdlib Require Import ZArith Ascii String List Lia Bool.
From stdpp Require Import base option list strings gmap.

Local Open Scope string_scope.
Local Open Scope Z_scope.

(* ===================================================================== *)
(** ** The lease protocol schema *)
(* ===================================================================== *)

Module Proto.

(** Scalar protobuf types that occur in the file. *)
Inductive Scalar := t_string | t_bytes | t_double | t_uint32 | t_int32.

(** The type of a field's values (for a map: of the map's values). *)
Inductive Ty :=
| TScalar (s : Scalar)
| TMessage (name : string).

(** How many values a field holds: one, a list, or a map from a scalar key. *)
Inductive Card :=
| singular
| repeated
| map_from (key : Scalar).

Record Field := mkField {
  fname : string;
  fnumber : Z;
  fcard : Card;
  fty : Ty;
(** [(gogoproto.nullable) = false] is recorded as [nullable := false];
    a field without the option keeps the default, [true]. *)
nullable : bool;
deprecated : bool
}.

Record Message := mkMessage { mname : string; fields : list Field }.

Record Rpc := mkRpc {
  rname : string;
  client_streaming : bool;
  request : string;
  server_streaming : bool;
  response : string
}.

Record Service := mkService { sname : string; rpcs : list Rpc }.

Definition Quantity : Ty := TMessage "k8s.io.apimachinery.pkg.api.resource.Quantity".
Definition Taint : Ty := TMessage "k8s.io.api.core.v1.Taint".
Definition PodSpec : Ty := TMessage "k8s.io.api.core.v1.PodSpec".
Definition Timestamp : Ty := TMessage "google.protobuf.Timestamp".
Definition Empty : string := "google.protobuf.Empty".

(** Field builders: a plain field, and one carrying
    [(gogoproto.nullable) = false]. *)
Definition fld (n : string) (k : Z) (c : Card) (t : Ty) : Field :=
  mkField n k c t true false.
Definition fld_nn (n : string) (k : Z) (c : Card) (t : Ty) : Field :=
  mkField n k c t false false.
Definition fld_dep (n : string) (k : Z) (c : Card) (t : Ty) : Field :=
  mkField n k c t true true.

Definition Job : Message := mkMessage "Job" [
  fld "id" 1 singular (TScalar t_string);
  fld "client_id" 13 singular (TScalar t_string);
  fld "job_set_id" 2 singular (TScalar t_string);
  fld "queue" 3 singular (TScalar t_string);
  fld "namespace" 7 singular (TScalar t_string);
  fld "labels" 9 (map_from t_string) (TScalar t_string);
  fld "annotations" 10 (map_from t_string) (TScalar t_string);
  fld_dep "required_node_labels" 11 (map_from t_string) (TScalar t_string);
  fld "owner" 8 singular (TScalar t_string);
  fld "queue_ownership_user_groups" 15 repeated (TScalar t_string);
  fld "compressed_queue_ownership_user_groups" 19 singular (TScalar t_bytes);
  fld "priority" 4 singular (TScalar t_double);
  fld_dep "pod_spec" 5 singular PodSpec;
  fld "pod_specs" 12 repeated PodSpec;
  fld_nn "created" 6 singular Timestamp;
  fld "ingress" 14 repeated (TMessage "IngressConfig");
  fld "services" 16 repeated (TMessage "ServiceConfig");
  fld "k8s_ingress" 17 repeated (TMessage "k8s.io.api.networking.v1.Ingress");
  fld "k8s_service" 18 repeated (TMessage "k8s.io.api.core.v1.Service");
  fld "scheduler" 20 singular (TScalar t_string)
].

Definition LeaseRequest : Message := mkMessage "LeaseRequest" [
  fld "cluster_id" 1 singular (TScalar t_string);
  fld "pool" 8 singular (TScalar t_string);
  fld_nn "resources" 2 (map_from t_string) Quantity;
  fld_nn "cluster_leased_report" 4 singular (TMessage "ClusterLeasedReport");
  fld_nn "minimum_job_size" 6 (map_from t_string) Quantity;
  fld_nn "nodes" 7 repeated (TMessage "NodeInfo")
].

Definition StreamingLeaseRequest : Message := mkMessage "StreamingLeaseRequest" [
  fld "cluster_id" 1 singular (TScalar t_string);
  fld "pool" 2 singular (TScalar t_string);
  fld_nn "resources" 3 (map_from t_string) Quantity;
  fld_nn "cluster_leased_report" 4 singular (TMessage "ClusterLeasedReport");
  fld_nn "minimum_job_size" 5 (map_from t_string) Quantity;
  fld_nn "nodes" 6 repeated (TMessage "NodeInfo");
  fld "ReceivedJobIds" 7 repeated (TScalar t_string)
].

Definition NodeInfo : Message := mkMessage "NodeInfo" [
  fld "name" 1 singular (TScalar t_string);
  fld_nn "taints" 2 repeated Taint;
  fld "labels" 3 (map_from t_string) (TScalar t_string);
  fld_nn "allocatable_resources" 4 (map_from t_string) Quantity;
  fld_nn "available_resources" 5 (map_from t_string) Quantity;
  fld_nn "total_resources" 6 (map_from t_string) Quantity;
  fld_nn "allocated_resources" 7 (map_from t_int32) (TMessage "ComputeResource")
].

Definition NodeType : Message := mkMessage "NodeType" [
  fld_nn "taints" 1 repeated Taint;
  fld "labels" 2 (map_from t_string) (TScalar t_string);
  fld_nn "allocatable_resources" 3 (map_from t_string) Quantity
].

Definition ClusterSchedulingInfoReport : Message := mkMessage "ClusterSchedulingInfoReport" [
  fld "cluster_id" 1 singular (TScalar t_string);
  fld "pool" 7 singular (TScalar t_string);
  fld_nn "report_time" 2 singular Timestamp;
  fld "node_types" 5 repeated (TMessage "NodeType");
  fld_nn "minimum_job_size" 6 (map_from t_string) Quantity
].

Definition QueueLeasedReport : Message := mkMessage "QueueLeasedReport" [
  fld "name" 1 singular (TScalar t_string);
  fld_nn "resources_leased" 2 (map_from t_string) Quantity
].

Definition ClusterLeasedReport : Message := mkMessage "ClusterLeasedReport" [
  fld "cluster_id" 1 singular (TScalar t_string);
  fld_nn "report_time" 2 singular Timestamp;
  fld "queues" 3 repeated (TMessage "QueueLeasedReport")
].

Definition ComputeResource : Message := mkMessage "ComputeResource" [
  fld_nn "resources" 1 (map_from t_string) Quantity
].

Definition NodeLabeling : Message := mkMessage "NodeLabeling" [
  fld "labels" 3 (map_from t_string) (TScalar t_string)
].

Definition JobLease : Message := mkMessage "JobLease" [
  fld "job" 1 repeated (TMessage "Job")
].

Definition StreamingJobLease : Message := mkMessage "StreamingJobLease" [
  fld "job" 1 singular (TMessage "Job");
  fld "numJobs" 2 singular (TScalar t_uint32);
  fld "numAcked" 3 singular (TScalar t_uint32)
].

Definition IdList : Message := mkMessage "IdList" [
  fld "ids" 1 repeated (TScalar t_string)
].

Definition RenewLeaseRequest : Message := mkMessage "RenewLeaseRequest" [
  fld "cluster_id" 1 singular (TScalar t_string);
  fld "ids" 2 repeated (TScalar t_string)
].

Definition ReturnLeaseRequest : Message := mkMessage "ReturnLeaseRequest" [
  fld "cluster_id" 1 singular (TScalar t_string);
  fld "job_id" 2 singular (TScalar t_string);
  fld "avoid_node_labels" 4 singular (TMessage "OrderedStringMap");
  fld "reason" 5 singular (TScalar t_string);
  fld "kubernetes_id" 6 singular (TScalar t_string)
].

Definition StringKeyValuePair : Message := mkMessage "StringKeyValuePair" [
  fld "key" 1 singular (TScalar t_string);
  fld "value" 2 singular (TScalar t_string)
].

Definition OrderedStringMap : Message := mkMessage "OrderedStringMap" [
  fld "entries" 1 repeated (TMessage "StringKeyValuePair")
].

Definition AggregatedQueue : Service := mkService "AggregatedQueue" [
  mkRpc "LeaseJobs" false "LeaseRequest" false "JobLease";
  mkRpc "StreamingLeaseJobs" true "StreamingLeaseRequest" true "StreamingJobLease";
  mkRpc "RenewLease" false "RenewLeaseRequest" false "IdList";
  mkRpc "ReturnLease" false "ReturnLeaseRequest" false Empty;
  mkRpc "ReportDone" false "IdList" false "IdList"
].

(** The messages the file declares, in source order. *)
Definition messages : list Message := [
  Job; LeaseRequest; StreamingLeaseRequest; NodeInfo; NodeType;
  ClusterSchedulingInfoReport; QueueLeasedReport; ClusterLeasedReport;
  ComputeResource; NodeLabeling; JobLease; StreamingJobLease; IdList;
  RenewLeaseRequest; ReturnLeaseRequest; StringKeyValuePair; OrderedStringMap
].

(** Resolution of a message name within the file. *)
Definition find_message (n : string) : option Message :=
  List.find (fun m => String.eqb (mname m) n) messages.

Definition field_named (m : Message) (n : string) : option Field :=
  List.find (fun f => String.eqb (fname f) n) (fields m).

(** What a field carries, leaving out its wire number. *)
Record Shape := mkShape {
  sh_name : string; sh_card : Card; sh_ty : Ty; sh_nullable : bool
}.

Definition shape_of (f : Field) : Shape :=
  mkShape (fname f) (fcard f) (fty f) (nullable f).

Definition shape (m : Message) : list Shape := map shape_of (fields m).

(** An rpc direction: a single message or a stream of them. *)
Inductive Dir := unary (msg : string) | stream (msg : string).

Definition dir (streaming : bool) (msg : string) : Dir :=
  if streaming then stream msg else unary msg.

Definition signature (r : Rpc) : string * Dir * Dir :=
  (rname r, dir (client_streaming r) (request r),
            dir (server_streaming r) (response r)).

Definition Card_eqb (a b : Card) : bool :=
  match a, b with
  | singular, singular | repeated, repeated => true
  | map_from k1, map_from k2 =>
      match k1, k2 with
      | t_string, t_string | t_bytes, t_bytes | t_double, t_double
      | t_uint32, t_uint32 | t_int32, t_int32 => true
      | _, _ => false
      end
  | _, _ => false
  end.

Definition is_message (t : Ty) (n : string) : bool :=
  match t with TMessage n' => String.eqb n' n | TScalar _ => false end.

(** A resource-quantity mapping: [map<string, Quantity>]. *)
Definition is_resource_map (f : Field) : bool :=
  Card_eqb (fcard f) (map_from t_string)
  && is_message (fty f) "k8s.io.apimachinery.pkg.api.resource.Quantity".

End Proto.

(* ===================================================================== *)
(** ** The functions of Go's [strings] package that the code calls *)
(* ===================================================================== *)

Module GoStrings.

(** [len(s)]. *)
Definition len (s : string) : Z := Z.of_nat (String.length s).

(** [strings.HasPrefix(s, prefix)]. *)
Fixpoint HasPrefix (s prefix : string) {struct prefix} : bool :=
  match prefix, s with
  | EmptyString, _ => true
  | String _ _, EmptyString => false
  | String c p, String d s' => Ascii.eqb c d && HasPrefix s' p
  end.

(** [strings.Index(s, substr)]: the byte index of the first occurrence of
    [substr] in [s], or [-1]. *)
Fixpoint Index (s substr : string) : Z :=
  if HasPrefix s substr then 0
  else match s with
       | EmptyString => -1
       | String _ s' =>
           let r := Index s' substr in
           if r <? 0 then -1 else 1 + r
       end.

(** [strings.Contains(s, substr)]. *)
Definition Contains (s substr : string) : bool := 0 <=? Index s substr.

(** The slice expression [s[a:b]]; [None] is the run-time panic Go raises
    unless [0 <= a <= b <= len(s)]. *)
Definition slice (s : string) (a b : Z) : option string :=
  if (0 <=? a) && (a <=? b) && (b <=? len s)
  then Some (String.substring (Z.to_nat a) (Z.to_nat (b - a)) s)
  else None.

(** [s[a:]]. *)
Definition slice_from (s : string) (a : Z) : option string := slice s a (len s).

Definition byte_val (c : ascii) : Z := Z.of_N (N_of_ascii c).

(** A byte below [utf8.RuneSelf]. *)
Definition is_ascii_byte (c : ascii) : bool := byte_val c <? 128.

Definition is_upper_byte (c : ascii) : bool :=
  (65 <=? byte_val c) && (byte_val c <=? 90).

(** [c += 'a' - 'A'] on an upper-case ASCII letter. *)
Definition lower_byte (c : ascii) : ascii :=
  if is_upper_byte c then ascii_of_N (N_of_ascii c + 32) else c.

Fixpoint all_bytes (p : ascii -> bool) (s : string) : bool :=
  match s with
  | EmptyString => true
  | String c s' => p c && all_bytes p s'
  end.

Fixpoint any_byte (p : ascii -> bool) (s : string) : bool :=
  match s with
  | EmptyString => false
  | String c s' => p c || any_byte p s'
  end.

Fixpoint map_bytes (f : ascii -> ascii) (s : string) : string :=
  match s with
  | EmptyString => EmptyString
  | String c s' => String (f c) (map_bytes f s')
  end.

(** [strings.ToLower(s)]. An all-ASCII string is lower-cased byte by byte
    (and returned as it is when it has no upper-case letter); any other
    string goes through [strings.Map(unicode.ToLower, s)], which depends on
    the Unicode tables and is the parameter [map_unicode_lower]. *)
Definition ToLower (map_unicode_lower : string -> string) (s : string) : string :=
  let isASCII := all_bytes is_ascii_byte s in
  let hasUpper := any_byte is_upper_byte s in
  if isASCII then
    if negb hasUpper then s else map_bytes lower_byte s
  else map_unicode_lower s.

(** [strings.Split(s, sep)] for a one-byte separator. *)
Fixpoint Split (s : string) (sep : ascii) : list string :=
  match s with
  | EmptyString => [EmptyString]
  | String c s' =>
      if Ascii.eqb c sep then EmptyString :: Split s' sep
      else match Split s' sep with
           | [] => [String c EmptyString]
           | p :: ps => String c p :: ps
           end
  end.

(** [strings.SplitN(s, sep, 2)] for a one-byte separator: at most two
    parts, cut at the first separator. *)
Fixpoint SplitN2 (s : string) (sep : ascii) : list string :=
  match s with
  | EmptyString => [EmptyString]
  | String c s' =>
      if Ascii.eqb c sep then [EmptyString; s']
      else match SplitN2 s' sep with
           | [] => [String c EmptyString]
           | p :: ps => String c p :: ps
           end
  end.

(** An occurrence of [sub] in [s] that starts at byte [i]. *)
Definition occurs_at (sub s : string) (i : nat) : Prop :=
  exists pre post, s = pre +:+ sub +:+ post /\ String.length pre = i.

(** No occurrence of [sub] in [s] starts at byte [from] or later. *)
Definition absent_from (sub s : string) (from : nat) : Prop :=
  forall i, (from <= i)%nat -> ~ occurs_at sub s i.

(** [i] is where the first occurrence of [sub] in [s] at or after byte
    [from] starts. *)
Definition first_from (sub s : string) (from i : nat) : Prop :=
  (from <= i)%nat /\ occurs_at sub s i /\
  forall i', (from <= i')%nat -> (i' < i)%nat -> ~ occurs_at sub s i'.

(** [s] without its first [n] bytes: [s[n:]] when [n <= len(s)]. *)
Fixpoint drop_bytes (n : nat) (s : string) : string :=
  match n, s with
  | O, _ => s
  | S n', EmptyString => EmptyString
  | S n', String _ s' => drop_bytes n' s'
  end.

(** A string that only itself lower-cases to. *)
Definition lower_fixed (sub : string) : Prop :=
  forall t, map_bytes lower_byte t = sub -> t = sub.

End GoStrings.

(* ===================================================================== *)
(** ** The LRU cache of github.com/hashicorp/golang-lru *)
(* ===================================================================== *)

Module Lru.

(** The cache keeps its entries in a list, most recently used first, and
    holds at most [size] of them. Keys are the mapper's strings and values
    its [int64] ids. *)
Record Cache := mkCache { size : Z; evictList : list (string * Z) }.

(** [lru.New(size)]: an error unless the size is positive. *)
Definition New (size : Z) : option Cache :=
  if size <=? 0 then None else Some (mkCache size []).

Fixpoint lookup (k : string) (l : list (string * Z)) : option Z :=
  match l with
  | [] => None
  | (k', v) :: l' => if String.eqb k' k then Some v else lookup k l'
  end.

Fixpoint remove (k : string) (l : list (string * Z)) : list (string * Z) :=
  match l with
  | [] => []
  | (k', v) :: l' => if String.eqb k' k then remove k l' else (k', v) :: remove k l'
  end.

(** [Get(key)]: a hit moves the entry to the front. *)
Definition Get (k : string) (c : Cache) : option Z * Cache :=
  match lookup k (evictList c) with
  | Some v => (Some v, mkCache (size c) ((k, v) :: remove k (evictList c)))
  | None => (None, c)
  end.

(** [Add(key, value)]: an existing entry is updated and moved to the
    front; a new one is pushed to the front and, if the list is then
    longer than [size], the oldest entry is removed. *)
Definition Add (k : string) (v : Z) (c : Cache) : Cache :=
  match lookup k (evictList c) with
  | Some _ => mkCache (size c) ((k, v) :: remove k (evictList c))
  | None =>
      let l := (k, v) :: evictList c in
      mkCache (size c)
        (if size c <? Z.of_nat (List.length l) then removelast l else l)
  end.

(** The key is present (what [Get] reports in its second result). *)
Definition present (k : string) (c : Cache) : Prop :=
  is_Some (lookup k (evictList c)).

End Lru.

(* ===================================================================== *)
(** ** internal/eventapi/jobset_mapper.go *)
(* ===================================================================== *)

Module JobsetMapper.

(** A row of [eventDb.LoadJobsets]. *)
Record JobsetRow := mkRow { Queue : string; Jobset : string; JobSetId : Z }.

(** [key(queue, jobset)]: [fmt.Sprintf("%s:%s", queue, jobset)]. *)
Definition key (queue jobset : string) : string := queue +:+ ":" +:+ jobset.

(** What a caller of [Get] is doing: about to look the key up, about to
    call the database, about to add the id it got, or returned. *)
Inductive Pc (DbErr : Type) :=
| at_lookup
| at_fallback
| at_populate (id : Z)
| returned (r : DbErr + Z).
Arguments at_lookup {DbErr}.
Arguments at_fallback {DbErr}.
Arguments at_populate {DbErr} id.
Arguments returned {DbErr} r.

Section Mapper.

(** The event database (package eventdb) is kept abstract: its state and
    the two operations of it that the mapper calls are parameters. [inl] is
    a returned error. *)
Variable Db : Type.
Variable DbErr : Type.
Variable GetOrCreateJobsetId : Db -> string -> string -> (DbErr + Z) * Db.
Variable LoadJobsets : Db -> Z -> DbErr + list JobsetRow.

(** [PostgresJobsetMapper]. [mutex_locked] is the state of the struct's
    [mutex]; [fallbacks] records, in order, the calls made to
    [GetOrCreateJobsetId]. *)
Record Mapper := mkMapper {
  jobsetIds : Lru.Cache;
  eventDb : Db;
  mutex_locked : bool;
  fallbacks : list (string * string)
}.

Inductive NewError := load_failed (e : DbErr) | lru_failed.

(** [NewJobsetMapper(eventDb, cachesize, initialiseSince)]; [since] is
    [time.Now().UTC().Add(-initialiseSince)]. *)
Definition NewJobsetMapper (db : Db) (cachesize : Z) (since : Z)
  : NewError + Mapper :=
  match LoadJobsets db since with
  | inl e => inl (load_failed e)
  | inr initialJobsets =>
      match Lru.New cachesize with
      | None => inl lru_failed
      | Some c =>
          inr (mkMapper
                 (fold_left (fun c js => Lru.Add (key (Queue js) (Jobset js)) (JobSetId js) c)
                            initialJobsets c)
                 db false [])
      end
  end.

(** [PostgresJobsetMapper.Get]. *)
Definition Get (queue jobset : string) (j : Mapper) : (DbErr + Z) * Mapper :=
  let k := key queue jobset in
  match Lru.Get k (jobsetIds j) with
  | (Some id, c) =>
      (inr id, mkMapper c (eventDb j) (mutex_locked j) (fallbacks j))
  | (None, c) =>
(* get from db *)
match GetOrCreateJobsetId (eventDb j) queue jobset with
| (inl err, db) =>
    (inl err,
     mkMapper c db (mutex_locked j) (fallbacks j ++ [(queue, jobset)]))
| (inr id, db) =>
    (inr id,
     mkMapper (Lru.Add k id c) db (mutex_locked j)
              (fallbacks j ++ [(queue, jobset)]))
end
end.

(** *** Two callers at once

    [Get] takes no lock, so between its three calls ([jobsetIds.Get],
    [GetOrCreateJobsetId], [jobsetIds.Add]) another goroutine may run.
    Each of the three calls is atomic (the LRU cache locks internally);
    a caller advances by one of them per step. *)
Record Caller := mkCaller { c_queue : string; c_jobset : string; pc : Pc DbErr }.

Definition step (t : Caller) (j : Mapper) : Caller * Mapper :=
  let k := key (c_queue t) (c_jobset t) in
  match pc t with
  | at_lookup =>
      match Lru.Get k (jobsetIds j) with
      | (Some id, c) =>
          (mkCaller (c_queue t) (c_jobset t) (returned (inr id)),
           mkMapper c (eventDb j) (mutex_locked j) (fallbacks j))
      | (None, c) =>
          (mkCaller (c_queue t) (c_jobset t) at_fallback,
           mkMapper c (eventDb j) (mutex_locked j) (fallbacks j))
      end
  | at_fallback =>
      match GetOrCreateJobsetId (eventDb j) (c_queue t) (c_jobset t) with
      | (inl err, db) =>
          (mkCaller (c_queue t) (c_jobset t) (returned (inl err)),
           mkMapper (jobsetIds j) db (mutex_locked j)
                    (fallbacks j ++ [(c_queue t, c_jobset t)]))
      | (inr id, db) =>
          (mkCaller (c_queue t) (c_jobset t) (at_populate id),
           mkMapper (jobsetIds j) db (mutex_locked j)
                    (fallbacks j ++ [(c_queue t, c_jobset t)]))
      end
  | at_populate id =>
      (mkCaller (c_queue t) (c_jobset t) (returned (inr id)),
       mkMapper (Lru.Add k id (jobsetIds j)) (eventDb j) (mutex_locked j)
                (fallbacks j))
  | returned _ => (t, j)
  end.

(** A call of [Get] that has not started yet. *)
Definition call (queue jobset : string) : Caller := mkCaller queue jobset at_lookup.

(** The mapper and the callers running against it. *)
Record System := mkSystem { shared : Mapper; callers : list Caller }.

(** Caller number [i] takes its next step. *)
Definition sched (i : nat) (s : System) : System :=
  match callers s !! i with
  | None => s
  | Some t =>
      let '(t', j') := step t (shared s) in
      mkSystem j' (<[i := t']> (callers s))
  end.

(** A schedule is the order in which the callers take their steps. *)
Definition run (schedule : list nat) (s : System) : System :=
  fold_left (fun s i => sched i s) schedule s.

(** How often the database fallback was called for a pair. *)
Definition fallback_calls (queue jobset : string) (j : Mapper) : nat :=
  List.length (filter (fun p => p = (queue, jobset)) (fallbacks j)).

End Mapper.

Arguments mkMapper {Db}.
Arguments jobsetIds {Db}.
Arguments eventDb {Db}.
Arguments mutex_locked {Db}.
Arguments fallbacks {Db}.
Arguments mkCaller {DbErr}.
Arguments c_queue {DbErr}.
Arguments c_jobset {DbErr}.
Arguments pc {DbErr}.
Arguments call {DbErr}.
Arguments mkSystem {Db DbErr}.
Arguments shared {Db DbErr}.
Arguments callers {Db DbErr}.
Arguments Get {Db DbErr}.
Arguments step {Db DbErr}.
Arguments sched {Db DbErr}.
Arguments run {Db DbErr}.
Arguments fallback_calls {Db}.
Arguments NewJobsetMapper {Db DbErr}.

(** A database for trying the mapper out: a table of jobsets, ids given in
    order of creation; a queue named "down" makes the call fail. *)
Module Sample.
Definition Db : Type := list (string * string * Z).
Fixpoint find (q js : string) (db : Db) : option Z :=
  match db with
  | [] => None
  | (q', js', id) :: db' =>
      if String.eqb q' q && String.eqb js' js then Some id else find q js db'
  end.
Definition GetOrCreateJobsetId (db : Db) (q js : string) : (string + Z) * Db :=
  if String.eqb q "down" then (inl "connection refused", db)
  else match find q js db with
       | Some id => (inr id, db)
       | None => let id := 1 + Z.of_nat (List.length db) in
                 (inr id, (db ++ [(q, js, id)])%list)
       end.
Definition LoadJobsets (db : Db) (since : Z) : string + list JobsetRow :=
  inr (map (fun r => mkRow r.1.1 r.1.2 r.2) db).
End Sample.

(** A mapper over the sample database with a cache of two entries, one of
    them known. *)
Definition sample_mapper : Mapper Sample.Db :=
  mkMapper (Lru.mkCache 2 [("q1:js1", 1)]) [("q1", "js1", 1)] false [].

End JobsetMapper.


(* ===================================================================== *)
(** ** Package authorization: Kubernetes-native token authentication *)
(* ===================================================================== *)

Module Auth.

Import GoStrings.

(** Instants ([time.Time]) are counted in nanoseconds since the Unix epoch
    and durations ([time.Duration]) in nanoseconds. *)
Definition Time := Z.
Definition Duration := Z.

Definition Second : Duration := 1000000000.
Definition Minute : Duration := 60 * Second.
Definition maxDuration : Duration := 2 ^ 63 - 1.
Definition minDuration : Duration := - 2 ^ 63.

(** A value brought into the range of [int64], as Go's arithmetic does. *)
Definition wrap64 (z : Z) : Z := (z + 2 ^ 63) mod 2 ^ 64 - 2 ^ 63.

(** The seconds from year 1 to the Unix epoch. *)
Definition unixToInternal : Z := 62135596800.

(** [time.Unix(sec, 0)]: a [Time] keeps its seconds as an [int64] counted
    from year 1, so the sum [sec + unixToInternal] wraps around. *)
Definition time_Unix (sec : Z) : Time :=
  (wrap64 (sec + unixToInternal) - unixToInternal) * Second.

(** [t.After(u)]. *)
Definition After (t u : Time) : bool := u <? t.

(** [t.Sub(u)]: the difference, held at the largest or smallest duration
    when it does not fit. *)
Definition Sub (t u : Time) : Duration :=
  if maxDuration <? t - u then maxDuration
  else if t - u <? minDuration then minDuration
  else t - u.

(** The errors [Authenticate] can return. Those that come back from a
    library call keep only the call they come from. *)
Inductive Error :=
| missingCredentials
| err_base64
| err_json
| err_not_three_parts      (* "provided JWT token was not of the correct form, should have 3 parts" *)
| err_expiry_not_set       (* "token expiry time not set" *)
| err_expired              (* "invalid token, expired" *)
| err_token_invalid        (* "token invalid" *)
| err_kid_empty            (* "kubernetes serviceaccount token KID must not be empty" *)
| err_kid_attack           (* "kid appears to contain ../, this appears to be an attack" *)
| err_read_file
| err_review
| err_rejected.            (* "provided token was rejected by TokenReview" *)

Record CacheData := mkCacheData { Name : string; Valid : bool }.

(** What the cache holds under a key: an [interface{}], which is a
    [CacheData] or something else. *)
Inductive Object :=
| obj_CacheData (d : CacheData)
| obj_other.

(** github.com/patrickmn/go-cache. An item expires at [Expiration]
    (in Unix nanoseconds) unless that is [0]. *)
Record Item := mkItem { Obj : Object; Expiration : Z }.

Record Cache := mkCache {
  defaultExpiration : Duration;
  items : gmap string Item
}.

(** [cache.New(defaultExpiration, cleanupInterval)]. *)
Definition cache_New (defaultExpiration : Duration) : Cache :=
  mkCache defaultExpiration ∅.

(** [c.Set(k, x, d)] at wall-clock time [now]: a duration of [0]
    ([DefaultExpiration]) stands for the cache's default; the item expires
    at [time.Now().Add(d).UnixNano()] when [d] is positive and never
    otherwise. *)
Definition cache_Set (now : Time) (k : string) (x : Object) (d : Duration)
    (c : Cache) : Cache :=
  let d := if d =? 0 then defaultExpiration c else d in
  let e := if 0 <? d then wrap64 (now + d) else 0 in
  mkCache (defaultExpiration c) (<[k := mkItem x e]> (items c)).

(** [c.Get(k)] at wall-clock time [now]: an item is not found once
    [time.Now().UnixNano()] is past its expiration. *)
Definition cache_Get (now : Time) (k : string) (c : Cache) : option Object :=
  match items c !! k with
  | None => None
  | Some item =>
      if (0 <? Expiration item) && (Expiration item <? wrap64 now) then None
      else Some (Obj item)
  end.

(** What the cache's janitor does in the background: it deletes items
    (those that have expired). *)
Definition cache_Delete (k : string) (c : Cache) : Cache :=
  mkCache (defaultExpiration c) (delete k (items c)).

(** [Principal], as built by [NewStaticPrincipal(name, groups)]. *)
Record Principal := NewStaticPrincipal { p_name : string; p_groups : list string }.

(** The part of [authv1.TokenReview] that is read: [Status.Authenticated]
    and [Status.User.Username]. *)
Record TokenReview := mkTokenReview { Authenticated : bool; Username : string }.

(** [KubernetesNativeAuthService]: the configuration fields. The token cache
    is the state below; the reviewer and the clock are in the environment
    of a call. *)
Record Service := mkService {
  KidMappingFileLocation : string;
  InvalidTokenExpiry : Z
}.

(** What a call of [Authenticate] meets outside the service: the reading of
    [authService.Clock.Now()], the readings of [time.Now()] (inside
    [TokenCache.Get], for the time to live of a valid entry, and inside
    [TokenCache.Set]), the files [os.ReadFile] finds, and the answer of
    [TokenReviewer.ReviewToken(ctx, clusterUrl, token, ca)]. *)
Record Env := mkEnv {
  Clock_Now : Time;
  time_Now_get : Time;
  time_Now_ttl : Time;
  time_Now_set : Time;
  os_ReadFile : string -> option string;
  ReviewToken : string -> string -> string -> option TokenReview
}.

(** The calls a run makes to the cache, the file system and the reviewer. *)
Inductive Event :=
| ev_cache_get (k : string)
| ev_cache_set (k : string) (x : Object) (d : Duration)
| ev_read_file (path : string)
| ev_review (clusterUrl token ca : string).

Record State := mkState { TokenCache : Cache; trace : list Event }.

(** Code that may fail and that reads and writes the state. The state is
    kept when it fails: what [reviewToken] stored stays stored. *)
Definition M (A : Type) : Type := State -> (Error + A) * State.

Definition ret {A} (a : A) : M A := fun s => (inr a, s).
Definition fail {A} (e : Error) : M A := fun s => (inl e, s).
Definition bind {A B} (m : M A) (f : A -> M B) : M B :=
  fun s => match m s with
           | (inl e, s') => (inl e, s')
           | (inr a, s') => f a s'
           end.
Definition lift {A} (r : Error + A) : M A := fun s => (r, s).

Notation "x <- m ;; k" := (bind m (fun x => k))
  (at level 100, m at next level, right associativity).
Notation "m ;;; k" := (bind m (fun _ => k))
  (at level 100, right associativity).

Definition TokenCache_Get (env : Env) (k : string) : M (option Object) :=
  fun s => (inr (cache_Get (time_Now_get env) k (TokenCache s)),
            mkState (TokenCache s) (trace s ++ [ev_cache_get k])).

Definition TokenCache_Set (env : Env) (k : string) (x : Object) (d : Duration) : M unit :=
  fun s => (inr tt,
            mkState (cache_Set (time_Now_set env) k x d (TokenCache s))
                    (trace s ++ [ev_cache_set k x d])).

Definition ReadFile (env : Env) (path : string) : M string :=
  fun s => (match os_ReadFile env path with
            | Some data => inr data
            | None => inl err_read_file
            end,
            mkState (TokenCache s) (trace s ++ [ev_read_file path])).

Definition TokenReviewer_ReviewToken (env : Env) (clusterUrl token ca : string)
    : M TokenReview :=
  fun s => (match ReviewToken env clusterUrl token ca with
            | Some result => inr result
            | None => inl err_review
            end,
            mkState (TokenCache s) (trace s ++ [ev_review clusterUrl token ca])).

(** [validateKid]. *)
Definition validateKid (kid : string) : Error + unit :=
  if String.eqb kid "" then inl err_kid_empty
  else if Contains kid "../" then inl err_kid_attack
  else inr tt.

Section Service.

(** The decoders of encoding/base64 and encoding/json, which the service
    calls, are parameters: [base64.RawURLEncoding.DecodeString], and
    [json.Unmarshal] into each of the three structs the code declares
    ([Token] and [Ca]; [Expiry], the "exp" field; [Kid]). [None] is a
    returned error. *)
Variable DecodeString : string -> option string.
Variable Unmarshal_auth : string -> option (string * string).
Variable Unmarshal_exp : string -> option Z.
Variable Unmarshal_kid : string -> option string.

Definition decode (s : string) : Error + string :=
  match DecodeString s with Some d => inr d | None => inl err_base64 end.

(** [parseAuth]. *)
Definition parseAuth (auth : string) : Error + (string * string) :=
  match decode auth with
  | inl e => inl e
  | inr jsonData =>
      match Unmarshal_auth jsonData with
      | None => inl err_json
      | Some (uMbody_Token, uMbody_Ca) =>
          match decode uMbody_Ca with
          | inl e => inl e
          | inr ca => inr (uMbody_Token, ca)
          end
      end
  end.

(** [parseTime]. *)
Definition parseTime (token : string) : Error + Time :=
  match Split token "." with
  | [_; payload; _] =>
      match decode payload with
      | inl e => inl e
      | inr decoded =>
          match Unmarshal_exp decoded with
          | None => inl err_json
          | Some uMbody_Expiry =>
              if uMbody_Expiry =? 0 then inl err_expiry_not_set
              else inr (time_Unix uMbody_Expiry)
          end
      end
  | _ => inl err_not_three_parts
  end.

(** The "kid" of a token's JOSE header, as [getClusterURL] reads it. *)
Definition kid_of (token : string) : Error + string :=
  let header := hd "" (Split token ".") in
  match decode header with
  | inl e => inl e
  | inr decoded =>
      match Unmarshal_kid decoded with
      | None => inl err_json
      | Some unmarshalled_Kid => inr unmarshalled_Kid
      end
  end.

(** [getClusterURL]. *)
Definition getClusterURL (svc : Service) (env : Env) (token : string) : M string :=
  kid <- lift (kid_of token) ;;
  lift (validateKid kid) ;;;
  url <- ReadFile env (KidMappingFileLocation svc +:+ kid) ;;
  ret url.

(** [reviewToken]. *)
Definition reviewToken (svc : Service) (env : Env) (clusterUrl token ca : string)
    : M string :=
  result <- TokenReviewer_ReviewToken env clusterUrl token ca ;;
  if negb (Authenticated result) then
    TokenCache_Set env token (obj_CacheData (mkCacheData "" false))
                   (InvalidTokenExpiry svc) ;;;
    fail err_rejected
  else ret (Username result).

(** [Authenticate]; [authorization] is the value of the incoming
    "authorization" metadata, [metautils.ExtractIncoming(ctx).Get("authorization")]. *)
Definition Authenticate (svc : Service) (env : Env) (authorization : string)
    : M Principal :=
  (* Retrieve token from context. *)
  match SplitN2 authorization " " with
  | [scheme; credentials] =>
      if negb (String.eqb scheme "KubernetesAuth") then fail missingCredentials
      else
        match parseAuth credentials with
        | inl _ => fail missingCredentials
        | inr (token, ca) =>
            (* Get token time *)
            expirationTime <- lift (parseTime token) ;;
            if After (Clock_Now env) expirationTime then fail err_expired
            else
              (* Check Cache *)
              data <- TokenCache_Get env token ;;
              match data with
              | Some (obj_CacheData cacheInfo) =>
                  if Valid cacheInfo
                  then ret (NewStaticPrincipal (Name cacheInfo) [Name cacheInfo])
                  else fail err_token_invalid
              | _ =>
                  (* Get URL from token KID *)
                  url <- getClusterURL svc env token ;;
                  (* Make request to token review endpoint *)
                  name <- reviewToken svc env url token ca ;;
                  (* Add to cache *)
                  TokenCache_Set env token (obj_CacheData (mkCacheData name true))
                                 (Sub expirationTime (time_Now_ttl env)) ;;;
                  (* Return very basic Principal *)
                  ret (NewStaticPrincipal name [name])
              end
        end
  | _ => fail missingCredentials
  end.

(** What is left of [Authenticate] once the header has given the token
    and the certificate authority: the function's text from "Get token
    time" on. The properties of [Authenticate] are proved through it. *)
Definition with_token (svc : Service) (env : Env) (token ca : string) : M Principal :=
  expirationTime <- lift (parseTime token) ;;
  if After (Clock_Now env) expirationTime then fail err_expired
  else
    data <- TokenCache_Get env token ;;
    match data with
    | Some (obj_CacheData cacheInfo) =>
        if Valid cacheInfo
        then ret (NewStaticPrincipal (Name cacheInfo) [Name cacheInfo])
        else fail err_token_invalid
    | _ =>
        url <- getClusterURL svc env token ;;
        name <- reviewToken svc env url token ca ;;
        TokenCache_Set env token (obj_CacheData (mkCacheData name true))
                       (Sub expirationTime (time_Now_ttl env)) ;;;
        ret (NewStaticPrincipal name [name])
    end.

(** The header carries the token and the certificate authority: it is
    "KubernetesAuth", a space, and credentials that [parseAuth] accepts. *)
Definition carries (authorization token ca : string) : Prop :=
  exists credentials,
    SplitN2 authorization " " = ["KubernetesAuth"; credentials]
    /\ parseAuth credentials = inr (token, ca).

(** The expiry embedded in a token: the "exp" of its decoded payload, the
    second of its three parts. *)
Definition exp_claim (token : string) (exp : Z) : Prop :=
  exists h payload sg decoded,
    Split token "." = [h; payload; sg]
    /\ DecodeString payload = Some decoded
    /\ Unmarshal_exp decoded = Some exp.

(** Every valid entry of the cache is for a token whose kid passes
    [validateKid]. *)
Definition valid_entries_checked (st : State) : Prop :=
  forall k item name,
    items (TokenCache st) !! k = Some item ->
    Obj item = obj_CacheData (mkCacheData name true) ->
    exists kid, kid_of k = inr kid /\ validateKid kid = inr tt.

(** [NewKubernetesNativeAuthService]: the state a service starts in. *)
Definition initial : State := mkState (cache_New (5 * Minute)) [].

(** The states a service goes through: from [initial], by calls of
    [Authenticate] with any header in any environment, and by the janitor's
    deletions. *)
Inductive reachable (svc : Service) : State -> Prop :=
| reachable_initial : reachable svc initial
| reachable_call st env authorization :
    reachable svc st ->
    reachable svc (Authenticate svc env authorization st).2
| reachable_cleanup st k :
    reachable svc st ->
    reachable svc (mkState (cache_Delete k (TokenCache st)) (trace st)).

End Service.

(** Decoders for trying the service out, standing in for base64 and JSON on
    small inputs: decoding swaps "~" and "." (and fails on a "!"), a token's
    decoded header is its kid, its decoded payload is the expiry in decimal
    digits, and the decoded credentials are the token and the encoded
    certificate authority with a "|" between them. *)
Module Sample.

Definition DecodeString (s : string) : option string :=
  if Contains s "!" then None
  else Some (map_bytes (fun c => if Ascii.eqb c "~" then "."%char
                                 else if Ascii.eqb c "." then "~"%char
                                 else c) s).

Definition Unmarshal_auth (s : string) : option (string * string) :=
  match SplitN2 s "|" with
  | [token; ca] => Some (token, ca)
  | _ => None
  end.

Fixpoint digits (acc : Z) (s : string) : option Z :=
  match s with
  | EmptyString => Some acc
  | String c s' =>
      let d := byte_val c - 48 in
      if (0 <=? d) && (d <=? 9) then digits (10 * acc + d) s' else None
  end.

Definition Unmarshal_exp (s : string) : option Z := digits 0 s.

Definition Unmarshal_kid (s : string) : option string := Some s.

(** A reviewer that accepts the tokens signed "good". *)
Definition ReviewToken (clusterUrl token ca : string) : option TokenReview :=
  match Split token "." with
  | [_; _; sig] =>
      if String.eqb sig "good" then Some (mkTokenReview true "alice")
      else Some (mkTokenReview false "")
  | _ => None
  end.

Definition svc : Service := mkService "/kid-mapping/" (10 * Minute).

(** A call at second 1000, with one cluster known to the kid mapping. *)
Definition env : Env :=
  mkEnv (time_Unix 1000) (time_Unix 1000) (time_Unix 1000) (time_Unix 1000)
        (fun path => if String.eqb path "/kid-mapping/k1" then Some "https://c1" else None)
        ReviewToken.

(** The same service configured with an [InvalidTokenExpiry] of zero. *)
Definition svc_zero : Service := mkService "/kid-mapping/" 0.

(** ... and with a negative one. *)
Definition svc_negative : Service := mkService "/kid-mapping/" (-1).

(** A call that the service's clock places at second 1000, while the wall
    clock reads second 2001 when the time to live of a valid entry is
    computed and the entry is stored. *)
Definition env_late : Env :=
  mkEnv (time_Unix 1000) (time_Unix 1000) (time_Unix 2001) (time_Unix 2001)
        (fun path => if String.eqb path "/kid-mapping/k1" then Some "https://c1" else None)
        ReviewToken.

(** A cache that holds an invalid entry for one token and a valid entry for
    another, both stored at second 1000 for ten minutes. *)
Definition st_cached : State :=
  mkState
    (cache_Set (time_Unix 1000) "k1.2000.bad"
               (obj_CacheData (mkCacheData "" false)) (10 * Minute)
       (cache_Set (time_Unix 1000) "k1.2000.good"
                  (obj_CacheData (mkCacheData "alice" true)) (10 * Minute)
          (cache_New (5 * Minute))))
    [].

End Sample.

Definition is_review (e : Event) : bool :=
  match e with ev_review _ _ _ => true | _ => false end.

Definition is_read_file (e : Event) : bool :=
  match e with ev_read_file _ => true | _ => false end.

Definition is_cache_call (e : Event) : bool :=
  match e with ev_cache_get _ | ev_cache_set _ _ _ => true | _ => false end.

(** The number of token reviews, of file reads and of cache calls in a trace. *)
Definition reviews (t : list Event) : nat := List.length (List.filter is_review t).
Definition file_reads (t : list Event) : nat := List.length (List.filter is_read_file t).
Definition cache_calls (t : list Event) : nat := List.length (List.filter is_cache_call t).

End Auth.


(* ===================================================================== *)
(** ** Package eventscheduler: the schema of a table in a SQL file *)
(* ===================================================================== *)

Module Schema.

Import GoStrings.

Inductive Error :=
| could_not_find_table     (* "could not find table %s" *)
| eof_searching_open       (* "... reached EOF when searching for (" *)
| eof_searching_close.     (* "... reached EOF when searching for );" *)

(** What a call comes to: a result, a returned error, or a panic of a slice
    expression out of range. *)
Inductive Outcome :=
| ok (schema : string)
| error (e : Error)
| panic.

(** [schemaFromString]. The parameter is [strings.ToLower]'s path for
    input that is not all ASCII. *)
Definition schemaFromString (map_unicode_lower : string -> string)
    (s tableName : string) : Outcome :=
  let sl := ToLower map_unicode_lower s in
  let i := Index sl ("create table " +:+ tableName) in
  if i =? -1 then error could_not_find_table
  else
    match slice_from sl i with
    | None => panic
    | Some sl =>
        let j := Index sl "(" in
        if j =? -1 then error eof_searching_open
        else
          match slice_from sl j with
          | None => panic
          | Some sl =>
              let k := Index sl ");" in
              if k =? -1 then error eof_searching_close
              else
                let k := k + len ");" in
                match slice s (i + j) (i + j + k - 1) with
                | None => panic
                | Some schema => ok schema
                end
          end
    end.

(** The Kelvin sign, U+212A, in UTF-8; [unicode.ToLower] maps it to "k". *)
Definition kelvin : string :=
  String (ascii_of_nat 226) (String (ascii_of_nat 132) (String (ascii_of_nat 170) "")).

(** A stand-in for the non-ASCII path where the input is all ASCII and the
    path is not taken. *)
Definition ascii_only (s : string) : string := s.

(** Latin capital letter A with stroke, U+023A, in UTF-8 (two bytes), and
    its lower case, U+2C65 (three bytes). *)
Definition a_stroke : string :=
  String (ascii_of_nat 200) (String (ascii_of_nat 186) "").
Definition a_stroke_lower : string :=
  String (ascii_of_nat 226) (String (ascii_of_nat 177) (String (ascii_of_nat 165) "")).

(** [strings.Map(unicode.ToLower, s)] for input whose only bytes outside
    ASCII are those of Kelvin signs and of letters A with stroke. *)
Fixpoint lower_two_runes (s : string) : string :=
  if HasPrefix s kelvin then
    match s with
    | String _ (String _ (String _ s')) => String "k" (lower_two_runes s')
    | _ => s
    end
  else if HasPrefix s a_stroke then
    match s with
    | String _ (String _ s') => a_stroke_lower +:+ lower_two_runes s'
    | _ => s
    end
  else
    match s with
    | EmptyString => EmptyString
    | String c s' => String (lower_byte c) (lower_two_runes s')
    end.

(** The two tables of the example in the function's comment. *)
Definition example_sql : string :=
"CREATE TABLE rectangle (
  id UUID PRIMARY KEY,
  width int NOT NULL,
  height int NOT NULL
);

CREATE TABLE circle (
  id UUID PRIMARY KEY,
  radius int NOT NULL
);
".

Definition example_circle : string :=
"(
  id UUID PRIMARY KEY,
  radius int NOT NULL
)".

Definition is_error (o : Outcome) : Prop := exists e, o = error e.

(** The lower-cased input and the table header searched for in it. *)
Definition lowered (map_unicode_lower : string -> string) (s : string) : string :=
  ToLower map_unicode_lower s.
Definition header (tableName : string) : string := "create table " +:+ tableName.

(** The error condition in the words of the specification: the lower-cased
    input does not contain the header, or contains no "(" after that
    occurrence, or contains no ");" after that "(". *)
Definition stated_error_condition (sl tableName : string) : Prop :=
  absent_from (header tableName) sl 0
  \/ (exists i, first_from (header tableName) sl 0 i
               /\ absent_from "(" sl (i + String.length (header tableName)))
  \/ (exists i p, first_from (header tableName) sl 0 i
                 /\ first_from "(" sl (i + String.length (header tableName)) p
                 /\ absent_from ");" sl (p + 1)).

(** The error condition of the code: the search for "(" starts where the
    header starts. *)
Definition error_condition (sl tableName : string) : Prop :=
  absent_from (header tableName) sl 0
  \/ (exists i, first_from (header tableName) sl 0 i
               /\ absent_from "(" sl i)
  \/ (exists i p, first_from (header tableName) sl 0 i
                 /\ first_from "(" sl i p
                 /\ absent_from ");" sl p).

(** The schema the code returns when there is one: from the first "(" at or
    after the start of the header to the ")" of the first ");" after it. *)
Definition schema_at (s sl tableName : string) (r : string) : Prop :=
  exists i p q, first_from (header tableName) sl 0 i
              /\ first_from "(" sl i p
              /\ first_from ");" sl p q
              /\ r = String.substring p (q + 1 - p) s
              /\ occurs_at "(" s p
              /\ occurs_at ");" s q.

End Schema.

(* ===================================================================== *)
(** ** Package eventscheduler: the names and values of a record *)
(* ===================================================================== *)

Module Records.

Inductive Outcome (A : Type) :=
| done (a : A)
| panics.
Arguments done {A} a.
Arguments panics {A}.

Section Fields.

(** The values fields hold ([interface{}]). *)
Variable V : Type.

(** A struct field as package reflect shows it: the value of its "db" tag
    ([Tag.Get("db")], empty when the field has none), whether the field is
    exported, and the value it holds. *)
Record StructField := mkStructField { db : string; exported : bool; value : V }.

(** What is passed for [x interface{}]: a struct, or anything else (a
    pointer to a struct, say), for which [NumField] panics. *)
Inductive Arg :=
| a_struct (fields : list StructField)
| not_a_struct.

(** [v.Field(i).Interface()]: it panics for a field that is not exported. *)
Definition Interface (f : StructField) : Outcome V :=
  if exported f then done (value f) else panics.

(** [NamesFromRecord]. *)
Definition NamesFromRecord (x : Arg) : Outcome (list string) :=
  match x with
  | not_a_struct => panics
  | a_struct fields => done (map db fields)
  end.

(** The loop of [ValuesFromRecord], over the fields from index [i] on. *)
Fixpoint values_loop (fields : list StructField) : Outcome (list V) :=
  match fields with
  | [] => done []
  | f :: fields' =>
      match Interface f with
      | panics => panics
      | done v =>
          match values_loop fields' with
          | panics => panics
          | done values => done (v :: values)
          end
      end
  end.

(** [ValuesFromRecord]. *)
Definition ValuesFromRecord (x : Arg) : Outcome (list V) :=
  match x with
  | not_a_struct => panics
  | a_struct fields => values_loop fields
  end.

(** The loop of [NamesValuesFromRecord], with the two slices it appends to. *)
Fixpoint names_values_loop (fields : list StructField)
    (names : list string) (values : list V) : Outcome (list string * list V) :=
  match fields with
  | [] => done (names, values)
  | f :: fields' =>
      let name := db f in
      if negb (String.eqb name "") then
        match Interface f with
        | panics => panics
        | done value =>
            names_values_loop fields' (names ++ [name])%list (values ++ [value])%list
        end
      else names_values_loop fields' names values
  end.

(** [NamesValuesFromRecord]. *)
Definition NamesValuesFromRecord (x : Arg) : Outcome (list string * list V) :=
  match x with
  | not_a_struct => panics
  | a_struct fields => names_values_loop fields [] []
  end.

(** The field carries a "db" tag. *)
Definition tagged (f : StructField) : bool := negb (String.eqb (db f) "").

(** The field's value can be read where it is asked for: it is exported, or
    it has no "db" tag. *)
Definition safe (f : StructField) : bool := implb (tagged f) (exported f).

End Fields.

Arguments mkStructField {V}.
Arguments db {V}.
Arguments exported {V}.
Arguments value {V}.
Arguments a_struct {V}.
Arguments not_a_struct {V}.
Arguments tagged {V}.
Arguments safe {V}.
Arguments NamesFromRecord {V}.
Arguments ValuesFromRecord {V}.
Arguments NamesValuesFromRecord {V}.
Arguments names_values_loop {V}.
Arguments values_loop {V}.
Arguments Interface {V}.

(** The rectangle of the functions' comments, and one with a field that has
    no tag and is not exported. *)
Definition rectangle : Arg Z :=
  a_struct [mkStructField "width" true 10; mkStructField "height" true 5].
Definition rectangle_with_cache : Arg Z :=
  a_struct [mkStructField "width" true 10; mkStructField "" false 50;
            mkStructField "height" true 5].

End Records.

(* ===================================================================== *)
(** ** Package eventscheduler: the schema files *)
(* ===================================================================== *)

Module SchemaFiles.

Import GoStrings Schema.

(** The errors of [schemaFromFile]: the file could not be read, or
    [schemaFromString] failed. *)
Inductive FileError :=
| failed_to_read
| in_schema (e : Schema.Error).

Inductive FileOutcome :=
| file_ok (schema : string)
| file_error (e : FileError)
| file_panic.

Section Files.

Variable map_unicode_lower : string -> string.

(** The files [os.ReadFile] finds. *)
Variable os_ReadFile : string -> option string.

(** [schemaFromFile]. *)
Definition schemaFromFile (filename tableName : string) : FileOutcome :=
  match os_ReadFile filename with
  | None => file_error failed_to_read
  | Some dat =>
      match schemaFromString map_unicode_lower dat tableName with
      | ok schema => file_ok schema
      | error e => file_error (in_schema e)
      | panic => file_panic
      end
  end.

(** The package variables [RunsSchema] and [PulsarSchema]. *)
Record Globals := mkGlobals { RunsSchema : string; PulsarSchema : string }.

(** [init]: [None] is a panic, raised for any error (or passed on from the
    slice expression). *)
Definition init : option Globals :=
  match schemaFromFile "./sql/schema/runs.sql" "runs" with
  | file_ok runs =>
      match schemaFromFile "./sql/schema/pulsar.sql" "pulsar" with
      | file_ok pulsar => Some (mkGlobals runs pulsar)
      | _ => None
      end
  | _ => None
  end.

End Files.

(** A directory with the two schema files. *)
Definition sample_files (filename : string) : option string :=
  if String.eqb filename "./sql/schema/runs.sql"
  then Some "CREATE TABLE runs (run_id uuid PRIMARY KEY, job_id text);"
  else if String.eqb filename "./sql/schema/pulsar.sql"
  then Some "create table pulsar (topic text, ledger bigint);"
  else None.

End SchemaFiles.

(* ===================================================================== *)
(** ** Notions used to state what the mapper and the service keep *)
(* ===================================================================== *)

Module Invariants.

Import GoStrings.

(** The keys of an LRU cache, most recently used first. *)
Definition keys (c : Lru.Cache) : list string := map fst (Lru.evictList c).

(** A cache as the library keeps it: of positive size, holding at most
    [size] entries, no key twice. *)
Definition lru_ok (c : Lru.Cache) : Prop :=
  0 < Lru.size c
  /\ Z.of_nat (List.length (Lru.evictList c)) <= Lru.size c
  /\ List.NoDup (keys c).

(** The key that was used least recently. *)
Definition oldest (c : Lru.Cache) : option string := last (keys c).

(** Whether a caller of [Get] may still call the database. *)
Definition may_call_db {DbErr} (t : JobsetMapper.Caller DbErr) : nat :=
  match JobsetMapper.pc t with
  | JobsetMapper.at_lookup | JobsetMapper.at_fallback => 1
  | _ => 0
  end.

(** An outcome of [schemaFromString] with its schema in lower case. *)
Definition lower_schema (o : Schema.Outcome) : Schema.Outcome :=
  match o with
  | Schema.ok schema => Schema.ok (map_bytes lower_byte schema)
  | other => other
  end.

(** The number of bytes of [s] equal to [c]. *)
Fixpoint count_byte (c : ascii) (s : string) : nat :=
  match s with
  | EmptyString => 0
  | String d s' => (if Ascii.eqb d c then 1 else 0) + count_byte c s'
  end.

Definition is_cache_get (e : Auth.Event) : bool :=
  match e with Auth.ev_cache_get _ => true | _ => false end.

Definition is_cache_set (e : Auth.Event) : bool :=
  match e with Auth.ev_cache_set _ _ _ => true | _ => false end.

(** The number of reads and of writes of the cache in a trace. *)
Definition cache_gets (t : list Auth.Event) : nat := List.length (List.filter is_cache_get t).
Definition cache_sets (t : list Auth.Event) : nat := List.length (List.filter is_cache_set t).

(** Everything in the cache is a [CacheData]. *)
Definition only_CacheData (st : Auth.State) : Prop :=
  forall k item, Auth.items (Auth.TokenCache st) !! k = Some item ->
                 exists d, Auth.Obj item = Auth.obj_CacheData d.

(** The calls one run of [Authenticate] for a token can record, in the
    order of the function's text: none, or the read of the cache, then the
    read of the kid mapping, then the review, then the write of the cache. *)
Inductive call_events (token : string) : list Auth.Event -> Prop :=
| calls_none : call_events token []
| calls_get : call_events token [Auth.ev_cache_get token]
| calls_read path :
    call_events token [Auth.ev_cache_get token; Auth.ev_read_file path]
| calls_review path url ca :
    call_events token [Auth.ev_cache_get token; Auth.ev_read_file path;
                       Auth.ev_review url token ca]
| calls_set path url ca x d :
    call_events token [Auth.ev_cache_get token; Auth.ev_read_file path;
                       Auth.ev_review url token ca; Auth.ev_cache_set token x d].

(** The calls of a trace are in order: a token review comes directly after
    the read of a kid-mapping file, which comes directly after a read of the
    cache for the token under review; a read of a kid-mapping file comes
    directly after a read of the cache; and a write of the cache comes
    directly after a review of the token it is written for. *)
Definition in_order (t : list Auth.Event) : Prop :=
  (forall before url token ca after,
      t = (before ++ Auth.ev_review url token ca :: after)%list ->
      exists earlier path,
        before = (earlier ++ [Auth.ev_cache_get token; Auth.ev_read_file path])%list)
  /\ (forall before path after,
        t = (before ++ Auth.ev_read_file path :: after)%list ->
        exists earlier token, before = (earlier ++ [Auth.ev_cache_get token])%list)
  /\ (forall before k x d after,
        t = (before ++ Auth.ev_cache_set k x d :: after)%list ->
        exists earlier url ca, before = (earlier ++ [Auth.ev_review url k ca])%list).

(** The entry of the cache under [k] is [x] and lives until the instant
    [t]: [Get] finds it at every reading of the wall clock up to [t] and
    does not find it at any later one. The readings are those that
    [time.Now().UnixNano()] can give, an [int64]. *)
Definition lives_until (c : Auth.Cache) (k : string) (x : Auth.Object)
    (t : Auth.Time) : Prop :=
  forall now, - 2 ^ 63 <= now < 2 ^ 63 ->
    Auth.cache_Get now k c = if now <=? t then Some x else None.

(** The entry under [k], stored at the instant [stored], has the time to
    live [ttl]. *)
Definition time_to_live (c : Auth.Cache) (k : string) (x : Auth.Object)
    (stored : Auth.Time) (ttl : Auth.Duration) : Prop :=
  lives_until c k x (stored + ttl).

End Invariants.

(* ===================================================================== *)
(** ** The ways through [Authenticate] *)
(* ===================================================================== *)

Module AuthPaths.

Import GoStrings Auth.

Section Service.

Variable DecodeString : string -> option string.
Variable Unmarshal_auth : string -> option (string * string).
Variable Unmarshal_exp : string -> option Z.
Variable Unmarshal_kid : string -> option string.

Variables (svc : Service) (env : Env) (token ca : string) (st : State).

(** The cache has no [CacheData] for the token (no entry, an expired one,
    or something that is not a [CacheData]). *)
Definition not_cached : Prop :=
  forall d, cache_Get (time_Now_get env) token (TokenCache st) <> Some (obj_CacheData d).

(** The traces after the read of the cache, the read of the kid mapping and
    the review. *)
Definition after_get : list Event := (trace st ++ [ev_cache_get token])%list.
Definition after_read (kid : string) : list Event :=
  (after_get ++ [ev_read_file (KidMappingFileLocation svc +:+ kid)])%list.
Definition after_review (kid url : string) : list Event :=
  (after_read kid ++ [ev_review url token ca])%list.

(** Every way a call that has its token can go, with what it returns and
    the state it leaves: one case for each return of the function. *)
Inductive path : (Error + Principal) * State -> Prop :=
| path_time_error e :
    parseTime DecodeString Unmarshal_exp token = inl e ->
    path (inl e, st)
| path_expired t :
    parseTime DecodeString Unmarshal_exp token = inr t ->
    After (Clock_Now env) t = true ->
    path (inl err_expired, st)
| path_cached_valid t name :
    parseTime DecodeString Unmarshal_exp token = inr t ->
    After (Clock_Now env) t = false ->
    cache_Get (time_Now_get env) token (TokenCache st)
      = Some (obj_CacheData (mkCacheData name true)) ->
    path (inr (NewStaticPrincipal name [name]), mkState (TokenCache st) after_get)
| path_cached_invalid t name :
    parseTime DecodeString Unmarshal_exp token = inr t ->
    After (Clock_Now env) t = false ->
    cache_Get (time_Now_get env) token (TokenCache st)
      = Some (obj_CacheData (mkCacheData name false)) ->
    path (inl err_token_invalid, mkState (TokenCache st) after_get)
| path_kid_unreadable t e :
    parseTime DecodeString Unmarshal_exp token = inr t ->
    After (Clock_Now env) t = false ->
    not_cached ->
    kid_of DecodeString Unmarshal_kid token = inl e ->
    path (inl e, mkState (TokenCache st) after_get)
| path_kid_refused t kid e :
    parseTime DecodeString Unmarshal_exp token = inr t ->
    After (Clock_Now env) t = false ->
    not_cached ->
    kid_of DecodeString Unmarshal_kid token = inr kid ->
    validateKid kid = inl e ->
    path (inl e, mkState (TokenCache st) after_get)
| path_no_file t kid :
    parseTime DecodeString Unmarshal_exp token = inr t ->
    After (Clock_Now env) t = false ->
    not_cached ->
    kid_of DecodeString Unmarshal_kid token = inr kid ->
    validateKid kid = inr tt ->
    os_ReadFile env (KidMappingFileLocation svc +:+ kid) = None ->
    path (inl err_read_file, mkState (TokenCache st) (after_read kid))
| path_review_failed t kid url :
    parseTime DecodeString Unmarshal_exp token = inr t ->
    After (Clock_Now env) t = false ->
    not_cached ->
    kid_of DecodeString Unmarshal_kid token = inr kid ->
    validateKid kid = inr tt ->
    os_ReadFile env (KidMappingFileLocation svc +:+ kid) = Some url ->
    ReviewToken env url token ca = None ->
    path (inl err_review, mkState (TokenCache st) (after_review kid url))
| path_rejected t kid url r :
    parseTime DecodeString Unmarshal_exp token = inr t ->
    After (Clock_Now env) t = false ->
    not_cached ->
    kid_of DecodeString Unmarshal_kid token = inr kid ->
    validateKid kid = inr tt ->
    os_ReadFile env (KidMappingFileLocation svc +:+ kid) = Some url ->
    ReviewToken env url token ca = Some r ->
    Authenticated r = false ->
    path (inl err_rejected,
          mkState (cache_Set (time_Now_set env) token (obj_CacheData (mkCacheData "" false))
                             (InvalidTokenExpiry svc) (TokenCache st))
                  (after_review kid url
                   ++ [ev_cache_set token (obj_CacheData (mkCacheData "" false))
                                    (InvalidTokenExpiry svc)]))
| path_accepted t kid url r :
    parseTime DecodeString Unmarshal_exp token = inr t ->
    After (Clock_Now env) t = false ->
    not_cached ->
    kid_of DecodeString Unmarshal_kid token = inr kid ->
    validateKid kid = inr tt ->
    os_ReadFile env (KidMappingFileLocation svc +:+ kid) = Some url ->
    ReviewToken env url token ca = Some r ->
    Authenticated r = true ->
    path (inr (NewStaticPrincipal (Username r) [Username r]),
          mkState (cache_Set (time_Now_set env) token
                             (obj_CacheData (mkCacheData (Username r) true))
                             (Sub t (time_Now_ttl env)) (TokenCache st))
                  (after_review kid url
                   ++ [ev_cache_set token (obj_CacheData (mkCacheData (Username r) true))
                                    (Sub t (time_Now_ttl env))])).

End Service.

End AuthPaths.

(* ===================================================================== *)
(** ** The lease session: a batch streamed to an executor *)
(* ===================================================================== *)

(** The server side of StreamingLeaseJobs, the Lease Session, is not among
    the sources: only its messages are, in the proto file. The session is
    modelled from the specification, which says of it: the response "is a
    sequence of one Job per message annotated with total batch size and
    cumulative-acknowledged count"; the session "streams each [job of the
    batch] as a StreamingJobLease message carrying the running numJobs
    (total batch size fixed at batch-selection time) and numAcked (count of
    ids in this batch the server has independently confirmed via
    pre-existing ReceivedJobIds)"; and "after a batch is exhausted, the
    session pauses sending until the executor's next inbound message reports
    updated ReceivedJobIds". Which jobs make up a batch is the fairness
    oracle's choice and is a parameter here. *)
Module LeaseSession.

(** Modelled from the spec: what a Lease Session meets while it streams a
    batch (the server's handler of StreamingLeaseJobs is missing from the
    sources): a message of the executor with the ids of the jobs it has
    received, or the turn to send the next job. *)
Inductive Input :=
| receive (ReceivedJobIds : list string)
| send.

Section Session.

(** The message [Job] and its field "id". *)
Variable Job : Type.
Variable job_id : Job -> string.

(** A [StreamingJobLease] as a value, with the three fields of the
    message; the two counters are [uint32]. *)
Record StreamingJobLease := mkStreamingJobLease {
  job : Job;
  numJobs : Z;
  numAcked : Z
}.

(** A count as a [uint32] holds it. *)
Definition uint32 (n : Z) : Z := n mod 2 ^ 32.

(** Modelled from the spec: the state of a Lease Session that streams one
    batch (the server's handler of StreamingLeaseJobs is missing from the
    sources). It holds the batch as selected, the jobs of the batch still to
    be streamed, the ids the executor has reported in [ReceivedJobIds] so
    far, and the messages streamed so far, oldest first. *)
Record Session := mkSession {
  batch : list Job;
  unsent : list Job;
  confirmed : list string;
  sent : list StreamingJobLease
}.

(** Modelled from the spec: whether the server has confirmed, from the
    [ReceivedJobIds] it was sent, that the executor has a job (the
    acknowledgement bookkeeping is missing from the sources). *)
Definition is_confirmed (ids : list string) (j : Job) : bool :=
  existsb (String.eqb (job_id j)) ids.

(** Modelled from the spec: the "count of ids in this batch the server has
    independently confirmed" (the computation of numAcked is missing from
    the sources). *)
Definition acked_count (ids : list string) (jobs : list Job) : nat :=
  List.length (List.filter (is_confirmed ids) jobs).

(** Modelled from the spec: the message that carries a job of the batch,
    "annotated with total batch size and cumulative-acknowledged count" (the
    construction of the message is missing from the sources). *)
Definition lease (s : Session) (j : Job) : StreamingJobLease :=
  mkStreamingJobLease j
    (uint32 (Z.of_nat (List.length (batch s))))
    (uint32 (Z.of_nat (acked_count (confirmed s) (batch s)))).

(** Modelled from the spec: one step of the session (the handler's loop is
    missing from the sources). A message of the executor adds its
    [ReceivedJobIds] to the confirmed ids; a turn to send streams the next
    job of the batch, and does nothing once the batch is exhausted. *)
Definition step (s : Session) (i : Input) : Session :=
  match i with
  | receive ids => mkSession (batch s) (unsent s) (confirmed s ++ ids) (sent s)
  | send =>
      match unsent s with
      | [] => s
      | j :: rest => mkSession (batch s) rest (confirmed s) (sent s ++ [lease s j])
      end
  end.

(** Modelled from the spec: the session when a batch has been selected
    (batch selection is missing from the sources): nothing is streamed yet,
    and [ids] are the job ids the executor has reported before. *)
Definition start (jobs : list Job) (ids : list string) : Session :=
  mkSession jobs jobs ids [].

(** Modelled from the spec: the session after a sequence of steps (the
    handler's loop is missing from the sources). *)
Definition run (inputs : list Input) (s : Session) : Session :=
  fold_left step inputs s.

(** What holds of the session at every step, for the batch [jobs]. *)
Definition streaming (jobs : list Job) (s : Session) : Prop :=
  batch s = jobs
  /\ (map job (sent s) ++ unsent s)%list = jobs
  /\ (forall n m, sent s !! n = Some m ->
        numJobs m = uint32 (Z.of_nat (List.length jobs))
        /\ exists known more,
             confirmed s = (known ++ more)%list
             /\ numAcked m = uint32 (Z.of_nat (acked_count known jobs)))
  /\ (forall n n' m m',
        (n <= n')%nat -> sent s !! n = Some m -> sent s !! n' = Some m' ->
        exists known more,
          numAcked m = uint32 (Z.of_nat (acked_count known jobs))
          /\ numAcked m' = uint32 (Z.of_nat (acked_count (known ++ more) jobs))).

End Session.

Arguments job {Job}.
Arguments numJobs {Job}.
Arguments numAcked {Job}.
Arguments mkStreamingJobLease {Job}.
Arguments batch {Job}.
Arguments unsent {Job}.
Arguments confirmed {Job}.
Arguments sent {Job}.

(** A resumed session for trying the model out: the jobs are their ids, the
    batch is j1, j2, j3, and the executor had j3 already. It then reports
    j1 and j2 as they arrive. *)
Definition sample_inputs : list Input :=
  [send; receive ["j1"]; send; receive ["j2"]; send; send].

End LeaseSession.

(* ===================================================================== *)
(** * Properties *)
(* ===================================================================== *)

(** ** The lease protocol schema *)

Module ProtoSpec.

Import Proto.

Lemma find_message_declared m : In m messages -> find_message (mname m) = Some m.
Proof.
  unfold messages. simpl.
  intros H. repeat (destruct H as [<- | H]; [reflexivity |]). destruct H.
Qed.

(** C1: the service AggregatedQueue has exactly five rpcs: LeaseJobs from a
    LeaseRequest to a JobLease, StreamingLeaseJobs from a stream of
    StreamingLeaseRequest to a stream of StreamingJobLease, RenewLease from a
    RenewLeaseRequest to an IdList, ReturnLease from a ReturnLeaseRequest to
    Empty, and ReportDone from an IdList to an IdList; the message names are
    those of messages the file declares. *)
Theorem AggregatedQueue_operations :
  map signature (rpcs AggregatedQueue) =
    [ ("LeaseJobs", unary "LeaseRequest", unary "JobLease");
      ("StreamingLeaseJobs", stream "StreamingLeaseRequest", stream "StreamingJobLease");
      ("RenewLease", unary "RenewLeaseRequest", unary "IdList");
      ("ReturnLease", unary "ReturnLeaseRequest", unary "google.protobuf.Empty");
      ("ReportDone", unary "IdList", unary "IdList") ]
  /\ List.length (rpcs AggregatedQueue) = 5%nat
  /\ (forall n, In n ["LeaseRequest"; "JobLease"; "StreamingLeaseRequest";
                      "StreamingJobLease"; "RenewLeaseRequest"; "IdList";
                      "ReturnLeaseRequest"] ->
                exists m, find_message n = Some m /\ mname m = n).
Proof.
  split; [reflexivity | split; [reflexivity |]].
  intros n Hn. simpl in Hn.
  repeat (destruct Hn as [<- | Hn]; [eexists; split; reflexivity |]).
  destruct Hn.
Qed.

(** C2: LeaseRequest and StreamingLeaseRequest both carry a cluster id, a
    pool, a map from resource name (a string) to quantity, a ClusterLeasedReport
    that is not nullable, a minimum-job-size map and a list of NodeInfo;
    StreamingLeaseRequest carries in addition a list of strings,
    ReceivedJobIds, and LeaseRequest has no such field. *)
Theorem lease_request_fields :
  let capacity_view :=
    [ mkShape "cluster_id" singular (TScalar t_string) true;
      mkShape "pool" singular (TScalar t_string) true;
      mkShape "resources" (map_from t_string) Quantity false;
      mkShape "cluster_leased_report" singular (TMessage "ClusterLeasedReport") false;
      mkShape "minimum_job_size" (map_from t_string) Quantity false;
      mkShape "nodes" repeated (TMessage "NodeInfo") false ] in
  shape LeaseRequest = capacity_view
  /\ shape StreamingLeaseRequest =
       (capacity_view ++ [mkShape "ReceivedJobIds" repeated (TScalar t_string) true])%list
  /\ field_named LeaseRequest "ReceivedJobIds" = None
  /\ (forall f, In f (fields LeaseRequest) ->
                ~ (fcard f = repeated /\ fty f = TScalar t_string))
  /\ find_message "ClusterLeasedReport" = Some ClusterLeasedReport
  /\ find_message "NodeInfo" = Some NodeInfo.
Proof.
  cbv zeta. repeat split; try reflexivity.
  intros f Hf [Hc Ht]. simpl in Hf.
  repeat (destruct Hf as [<- | Hf]; [discriminate |]). destruct Hf.
Qed.

(** A StreamingJobLease carries exactly three fields: one Job (a single
    message, not a list) and the two unsigned counters numJobs and numAcked. *)
Lemma StreamingJobLease_shape :
  shape StreamingJobLease =
    [ mkShape "job" singular (TMessage "Job") true;
      mkShape "numJobs" singular (TScalar t_uint32) true;
      mkShape "numAcked" singular (TScalar t_uint32) true ]
  /\ find_message "Job" = Some Job
  /\ (forall f, In f (fields StreamingJobLease) -> fcard f = singular).
Proof.
  repeat split; try reflexivity.
  intros f Hf. simpl in Hf.
  repeat (destruct Hf as [<- | Hf]; [reflexivity |]). destruct Hf.
Qed.

(** C7: a NodeInfo carries a name, a list of taints, a map of labels, exactly
    three maps from resource name to quantity (allocatable, available and
    total resources), and a map from an integer priority to a ComputeResource,
    which itself holds a map from resource name to quantity. *)
Theorem NodeInfo_fields :
  shape NodeInfo =
    [ mkShape "name" singular (TScalar t_string) true;
      mkShape "taints" repeated Taint false;
      mkShape "labels" (map_from t_string) (TScalar t_string) true;
      mkShape "allocatable_resources" (map_from t_string) Quantity false;
      mkShape "available_resources" (map_from t_string) Quantity false;
      mkShape "total_resources" (map_from t_string) Quantity false;
      mkShape "allocated_resources" (map_from t_int32) (TMessage "ComputeResource") false ]
  /\ map fname (List.filter is_resource_map (fields NodeInfo)) =
       ["allocatable_resources"; "available_resources"; "total_resources"]
  /\ find_message "ComputeResource" = Some ComputeResource
  /\ shape ComputeResource = [mkShape "resources" (map_from t_string) Quantity false].
Proof. repeat split; reflexivity. Qed.

End ProtoSpec.

(** ** The counters of a streamed batch *)

Module LeaseSessionSpec.

Import Proto LeaseSession.

Section Session.

Variable Job : Type.
Variable job_id : Job -> string.

Local Abbreviation is_confirmed := (LeaseSession.is_confirmed Job job_id).
Local Abbreviation acked_count := (LeaseSession.acked_count Job job_id).
Local Abbreviation lease := (LeaseSession.lease Job job_id).
Local Abbreviation step := (LeaseSession.step Job job_id).
Local Abbreviation run := (LeaseSession.run Job job_id).
Local Abbreviation start := (LeaseSession.start Job).
Local Abbreviation streaming := (LeaseSession.streaming Job job_id).

Lemma is_confirmed_In ids j : is_confirmed ids j = true <-> In (job_id j) ids.
Proof.
  unfold LeaseSession.is_confirmed. rewrite existsb_exists. split.
  - intros (x & Hin & Heq). apply String.eqb_eq in Heq. rewrite Heq. exact Hin.
  - intros H. exists (job_id j). split; [exact H | apply String.eqb_refl].
Qed.

Lemma acked_count_le ids jobs : (acked_count ids jobs <= List.length jobs)%nat.
Proof. unfold LeaseSession.acked_count. apply List.filter_length_le. Qed.

(** The count reaches the size of the batch exactly when every job of the
    batch is confirmed. *)
Lemma acked_count_all ids jobs :
  acked_count ids jobs = List.length jobs <-> forall j, In j jobs -> In (job_id j) ids.
Proof.
  unfold LeaseSession.acked_count.
  induction jobs as [| j jobs IH]; cbn [List.filter List.length].
  - split; [intros _ j [] | reflexivity].
  - pose proof (List.filter_length_le (is_confirmed ids) jobs) as Hle.
    destruct (is_confirmed ids j) eqn:E; cbn [List.length].
    + split.
      * intros H j' [<- | Hin]; [apply is_confirmed_In; exact E |].
        apply IH; [lia | exact Hin].
      * intros H. f_equal. apply IH. intros j' Hin. apply H. right. exact Hin.
    + split; [intros H; lia |].
      intros H. assert (Hj : is_confirmed ids j = true)
        by (apply is_confirmed_In, H; left; reflexivity).
      rewrite E in Hj. discriminate Hj.
Qed.

(** More reported ids never lower the count. *)
Lemma acked_count_mono known more jobs :
  (acked_count known jobs <= acked_count (known ++ more) jobs)%nat.
Proof.
  unfold LeaseSession.acked_count.
  induction jobs as [| j jobs IH]; cbn [List.filter]; [lia |].
  destruct (is_confirmed known j) eqn:E.
  - assert (Hj : is_confirmed (known ++ more) j = true).
    { unfold LeaseSession.is_confirmed in *. rewrite existsb_app, E. reflexivity. }
    rewrite Hj. cbn [List.length]. lia.
  - destruct (is_confirmed (known ++ more) j); cbn [List.length]; lia.
Qed.

Lemma uint32_small z : 0 <= z < 2 ^ 32 -> uint32 z = z.
Proof. intros H. unfold uint32. apply Z.mod_small. exact H. Qed.

Lemma lookup_map_job (l : list (StreamingJobLease Job)) n m :
  l !! n = Some m -> map job l !! n = Some (job m).
Proof.
  revert n. induction l as [| x l IH]; intros [| n] H; try discriminate H.
  - injection H as <-. reflexivity.
  - apply IH. exact H.
Qed.

Lemma start_streaming jobs ids : streaming jobs (start jobs ids).
Proof.
  split; [reflexivity |]. split; [reflexivity |].
  split; cbn [sent start]; intros; discriminate.
Qed.

Lemma step_streaming jobs s i : streaming jobs s -> streaming jobs (step s i).
Proof.
  intros (Hb & Hsplit & Hmsg & Hord). destruct i as [ids |]; cbn [LeaseSession.step].
  - split; [exact Hb |]. split; [exact Hsplit |]. split; [| exact Hord].
    cbn [sent confirmed]. intros n m Hn.
    destruct (Hmsg n m Hn) as (Hj & known & more & Hc & Ha).
    split; [exact Hj |]. exists known, (more ++ ids)%list.
    rewrite Hc, <- app_assoc. split; [reflexivity | exact Ha].
  - destruct (unsent s) as [| j rest] eqn:Hu.
    { split; [exact Hb |]. split; [rewrite Hu; exact Hsplit |].
      split; assumption. }
    split; [exact Hb |]. cbn [sent unsent confirmed batch]. split.
    { rewrite List.map_app. cbn [map]. rewrite <- app_assoc. exact Hsplit. }
    split.
    + intros n m Hn. apply lookup_app_Some in Hn. destruct Hn as [Hn | [Hlen Hn]].
      * apply (Hmsg n m Hn).
      * apply list_lookup_singleton_Some in Hn. destruct Hn as [_ <-].
        unfold LeaseSession.lease. cbn [numJobs numAcked]. rewrite Hb.
        split; [reflexivity |]. exists (confirmed s), []. rewrite app_nil_r.
        split; reflexivity.
    + intros n n' m m' Hle Hn Hn'.
      apply lookup_app_Some in Hn'. destruct Hn' as [Hn' | [Hlen' Hn']].
      * assert (Hlt : (n < List.length (sent s))%nat)
          by (apply lookup_lt_Some in Hn'; lia).
        rewrite lookup_app_l in Hn by exact Hlt.
        apply (Hord n n' m m' Hle Hn Hn').
      * apply list_lookup_singleton_Some in Hn'. destruct Hn' as [_ <-].
        apply lookup_app_Some in Hn. destruct Hn as [Hn | [Hlen Hn]].
        -- destruct (Hmsg n m Hn) as (_ & known & more & Hc & Ha).
           exists known, more. split; [exact Ha |].
           unfold LeaseSession.lease. cbn [numAcked]. rewrite Hb, Hc. reflexivity.
        -- apply list_lookup_singleton_Some in Hn. destruct Hn as [_ <-].
           exists (confirmed s), []. rewrite app_nil_r.
           unfold LeaseSession.lease. cbn [numAcked]. rewrite Hb. split; reflexivity.
Qed.

Lemma run_streaming jobs inputs s : streaming jobs s -> streaming jobs (run inputs s).
Proof.
  revert s. induction inputs as [| i inputs IH]; intros s Hs; [exact Hs |].
  apply IH. apply step_streaming. exact Hs.
Qed.


End Session.


End LeaseSessionSpec.

(** ** The LRU cache *)

Module LruFacts.

Import Lru.

Lemma lookup_remove k l : lookup k (remove k l) = None.
Proof.
  induction l as [| [k' v] l IH]; simpl; [reflexivity |].
  destruct (String.eqb k' k) eqn:E; simpl; [assumption |].
  rewrite E. assumption.
Qed.

Lemma lookup_remove_other k k' l : k' <> k -> lookup k (remove k' l) = lookup k l.
Proof.
  intros Hne. induction l as [| [k0 v] l IH]; simpl; [reflexivity |].
  destruct (String.eqb k0 k') eqn:E; simpl.
  - apply String.eqb_eq in E. subst k0.
    destruct (String.eqb k' k) eqn:E'; [apply String.eqb_eq in E'; contradiction | assumption].
  - rewrite IH. reflexivity.
Qed.

Lemma lookup_front k v l : lookup k ((k, v) :: l) = Some v.
Proof. simpl. rewrite String.eqb_refl. reflexivity. Qed.

Lemma Get_miss k c : lookup k (evictList c) = None -> Get k c = (None, c).
Proof. intros H. unfold Get. rewrite H. reflexivity. Qed.

Lemma Get_hit k v c :
  lookup k (evictList c) = Some v ->
  exists c', Get k c = (Some v, c') /\ size c' = size c
             /\ lookup k (evictList c') = Some v.
Proof.
  intros H. unfold Get. rewrite H. eexists. split; [reflexivity |].
  split; [reflexivity | apply lookup_front].
Qed.

(** A hit changes the order of the entries only. *)
Lemma Get_lookup_other k k' c : lookup k' (evictList (Get k c).2) = lookup k' (evictList c).
Proof.
  unfold Get. destruct (lookup k (evictList c)) as [v |] eqn:E; simpl; [| reflexivity].
  destruct (String.eqb k k') eqn:E'.
  - apply String.eqb_eq in E'. subst k'. symmetry. assumption.
  - apply lookup_remove_other. intros ->. rewrite String.eqb_refl in E'. discriminate.
Qed.

Lemma removelast_keeps_front {A} (x y : A) l : removelast (x :: y :: l) = x :: removelast (y :: l).
Proof. reflexivity. Qed.

(** In a cache of positive size, what is added is there afterwards. *)
Lemma Add_lookup k v c : 0 < size c -> lookup k (evictList (Add k v c)) = Some v.
Proof.
  intros Hsize. unfold Add.
  destruct (lookup k (evictList c)) eqn:E; cbn [evictList]; [apply lookup_front |].
  destruct (size c <? Z.of_nat (List.length ((k, v) :: evictList c))) eqn:Hfull;
    [| apply lookup_front].
  destruct (evictList c) as [| e l].
  - apply Z.ltb_lt in Hfull. simpl in Hfull. lia.
  - rewrite removelast_keeps_front. apply lookup_front.
Qed.

Lemma Add_size k v c : size (Add k v c) = size c.
Proof. unfold Add. destruct (lookup k (evictList c)); reflexivity. Qed.

Lemma New_size n c : New n = Some c -> 0 < size c.
Proof.
  unfold New. destruct (n <=? 0) eqn:E; [discriminate |].
  intros [= <-]. simpl. apply Z.leb_gt in E. lia.
Qed.

End LruFacts.

(** ** The jobset mapper *)

Module JobsetMapperSpec.

Import JobsetMapper LruFacts.

Section Sequential.

Context {Db DbErr : Type}.
Variable GetOrCreateJobsetId : Db -> string -> string -> (DbErr + Z) * Db.
Variable LoadJobsets : Db -> Z -> DbErr + list JobsetRow.

Local Abbreviation Get := (JobsetMapper.Get GetOrCreateJobsetId).
Local Abbreviation step := (JobsetMapper.step GetOrCreateJobsetId).
Local Abbreviation sched := (JobsetMapper.sched GetOrCreateJobsetId).
Local Abbreviation run := (JobsetMapper.run GetOrCreateJobsetId).

(** A mapper built by [NewJobsetMapper] has a cache of positive size. *)
Lemma NewJobsetMapper_size db cachesize since j :
  NewJobsetMapper LoadJobsets db cachesize since = inr j ->
  0 < Lru.size (jobsetIds j).
Proof.
  unfold NewJobsetMapper.
  destruct (LoadJobsets db since) as [e | rows]; [discriminate |].
  destruct (Lru.New cachesize) as [c |] eqn:Hnew; [| discriminate].
  intros [= <-]. cbn [jobsetIds].
  apply New_size in Hnew. revert c Hnew.
  induction rows as [| r rows IH]; intros c Hc; simpl; [assumption |].
  apply IH. rewrite Add_size. assumption.
Qed.

(** [Get] keeps the size of the cache, and never touches the mutex. *)
Lemma Get_size queue jobset j : Lru.size (jobsetIds (Get queue jobset j).2) = Lru.size (jobsetIds j).
Proof.
  unfold Get, Lru.Get.
  destruct (Lru.lookup _ _); cbn; [reflexivity |].
  destruct (GetOrCreateJobsetId _ _ _) as [[e | id] db]; cbn; [reflexivity | apply Add_size].
Qed.

Lemma Get_mutex queue jobset j : mutex_locked (Get queue jobset j).2 = mutex_locked j.
Proof.
  unfold Get. destruct (Lru.Get _ _) as [[id |] c]; [reflexivity |].
  destruct (GetOrCreateJobsetId _ _ _) as [[e | id] db]; reflexivity.
Qed.

Lemma step_mutex t j : mutex_locked (step t j).2 = mutex_locked j.
Proof.
  unfold step. destruct (pc t).
  - destruct (Lru.Get _ _) as [[id |] c]; reflexivity.
  - destruct (GetOrCreateJobsetId _ _ _) as [[e | id] db]; reflexivity.
  - reflexivity.
  - reflexivity.
Qed.

(** The steps of a caller, one equation for each place it can be at. *)
Lemma step_lookup_miss queue jobset j :
  Lru.lookup (key queue jobset) (Lru.evictList (jobsetIds j)) = None ->
  step (mkCaller queue jobset at_lookup) j = (mkCaller queue jobset at_fallback, j).
Proof.
  intros H. unfold JobsetMapper.step. cbn. rewrite (Get_miss _ _ H).
  destruct j; reflexivity.
Qed.

Lemma step_lookup_hit queue jobset j id :
  Lru.lookup (key queue jobset) (Lru.evictList (jobsetIds j)) = Some id ->
  step (mkCaller queue jobset at_lookup) j =
  (mkCaller queue jobset (returned (inr id)),
   mkMapper (Lru.Get (key queue jobset) (jobsetIds j)).2 (eventDb j)
            (mutex_locked j) (fallbacks j)).
Proof.
  intros H. unfold JobsetMapper.step, Lru.Get. cbn. rewrite H. reflexivity.
Qed.

Lemma step_fallback queue jobset j :
  step (mkCaller queue jobset at_fallback) j =
  (mkCaller queue jobset
     match (GetOrCreateJobsetId (eventDb j) queue jobset).1 with
     | inl err => returned (inl err)
     | inr id => at_populate id
     end,
   mkMapper (jobsetIds j) (GetOrCreateJobsetId (eventDb j) queue jobset).2
            (mutex_locked j) (fallbacks j ++ [(queue, jobset)])).
Proof.
  unfold JobsetMapper.step. cbn.
  destruct (GetOrCreateJobsetId (eventDb j) queue jobset) as [[e | id] db]; reflexivity.
Qed.

Lemma step_populate queue jobset j id :
  step (mkCaller queue jobset (at_populate id)) j =
  (mkCaller queue jobset (returned (inr id)),
   mkMapper (Lru.Add (key queue jobset) id (jobsetIds j)) (eventDb j)
            (mutex_locked j) (fallbacks j)).
Proof. reflexivity. Qed.

Lemma sched_first t ts j :
  sched 0%nat (mkSystem j (t :: ts)) = mkSystem (step t j).2 ((step t j).1 :: ts).
Proof. unfold JobsetMapper.sched. cbn. destruct (step t j). reflexivity. Qed.

Lemma sched_second t0 t ts j :
  sched 1%nat (mkSystem j (t0 :: t :: ts)) =
  mkSystem (step t j).2 (t0 :: (step t j).1 :: ts).
Proof. unfold JobsetMapper.sched. cbn. destruct (step t j). reflexivity. Qed.

Lemma run_cons i schedule s : run (i :: schedule) s = run schedule (sched i s).
Proof. reflexivity. Qed.

Lemma run_nil s : run [] s = s.
Proof. reflexivity. Qed.

Lemma run_returned (n : nat) queue jobset r j :
  run (repeat 0%nat n) (mkSystem j [mkCaller queue jobset (returned r)]) =
  mkSystem j [mkCaller queue jobset (returned r)].
Proof.
  induction n as [| n IH]; [reflexivity |].
  cbn [repeat]. rewrite run_cons, sched_first. exact IH.
Qed.

(** A caller running alone takes the three steps of [Get]. *)
Lemma Get_three_steps queue jobset j :
  run [0; 0; 0]%nat (mkSystem j [call queue jobset]) =
  mkSystem (Get queue jobset j).2
           [mkCaller queue jobset (returned (Get queue jobset j).1)].
Proof.
  unfold call, JobsetMapper.Get.
  destruct (Lru.lookup (key queue jobset) (Lru.evictList (jobsetIds j))) as [id |] eqn:E.
  - rewrite run_cons, sched_first, (step_lookup_hit _ _ _ _ E). cbn [fst snd].
    rewrite (run_returned 2). unfold Lru.Get. rewrite E. reflexivity.
  - rewrite run_cons, sched_first, (step_lookup_miss _ _ _ E). cbn [fst snd].
    rewrite run_cons, sched_first, step_fallback. cbn [fst snd].
    rewrite (Get_miss _ _ E).
    destruct (GetOrCreateJobsetId (eventDb j) queue jobset) as [[e | id] db]; cbn [fst snd].
    + rewrite (run_returned 1). reflexivity.
    + rewrite run_cons, sched_first, step_populate, run_nil. reflexivity.
Qed.

(** C4: [Get] on a mapper whose cache has positive size. When the key is in
    the cache it returns the cached id and makes no call to the database;
    when the key is not and [GetOrCreateJobsetId] returns an id, it returns
    that id, after one call, and the id is in the cache under the key; when
    [GetOrCreateJobsetId] fails it returns the error and the cache is as it
    was, so the key is still not in it. *)
Theorem Get_cache_or_fallback (j : Mapper Db) (queue jobset : string) :
  0 < Lru.size (jobsetIds j) ->
  let k := key queue jobset in
  (forall id, Lru.lookup k (Lru.evictList (jobsetIds j)) = Some id ->
     (Get queue jobset j).1 = inr id
     /\ fallbacks (Get queue jobset j).2 = fallbacks j
     /\ eventDb (Get queue jobset j).2 = eventDb j
     /\ Lru.lookup k (Lru.evictList (jobsetIds (Get queue jobset j).2)) = Some id)
  /\ (forall id db, Lru.lookup k (Lru.evictList (jobsetIds j)) = None ->
        GetOrCreateJobsetId (eventDb j) queue jobset = (inr id, db) ->
        (Get queue jobset j).1 = inr id
        /\ fallbacks (Get queue jobset j).2 = (fallbacks j ++ [(queue, jobset)])%list
        /\ eventDb (Get queue jobset j).2 = db
        /\ Lru.lookup k (Lru.evictList (jobsetIds (Get queue jobset j).2)) = Some id)
  /\ (forall err db, Lru.lookup k (Lru.evictList (jobsetIds j)) = None ->
        GetOrCreateJobsetId (eventDb j) queue jobset = (inl err, db) ->
        (Get queue jobset j).1 = inl err
        /\ fallbacks (Get queue jobset j).2 = (fallbacks j ++ [(queue, jobset)])%list
        /\ jobsetIds (Get queue jobset j).2 = jobsetIds j
        /\ Lru.lookup k (Lru.evictList (jobsetIds (Get queue jobset j).2)) = None
        /\ Lru.Get k (jobsetIds (Get queue jobset j).2) = (None, jobsetIds j)).
Proof.
  intros Hsize k. repeat split.
  - unfold Get. fold k. destruct (Get_hit k id _ H) as (c' & -> & _ & _). reflexivity.
  - unfold Get. fold k. destruct (Get_hit k id _ H) as (c' & -> & _ & _). reflexivity.
  - unfold Get. fold k. destruct (Get_hit k id _ H) as (c' & -> & _ & _). reflexivity.
  - unfold Get. fold k. destruct (Get_hit k id _ H) as (c' & -> & _ & Hl). exact Hl.
  - unfold Get. fold k. rewrite (Get_miss _ _ H), H0. reflexivity.
  - unfold Get. fold k. rewrite (Get_miss _ _ H), H0. reflexivity.
  - unfold Get. fold k. rewrite (Get_miss _ _ H), H0. reflexivity.
  - unfold Get. fold k. rewrite (Get_miss _ _ H), H0. cbn. apply Add_lookup. assumption.
  - unfold Get. fold k. rewrite (Get_miss _ _ H), H0. reflexivity.
  - unfold Get. fold k. rewrite (Get_miss _ _ H), H0. reflexivity.
  - unfold Get. fold k. rewrite (Get_miss _ _ H), H0. reflexivity.
  - unfold Get. fold k. rewrite (Get_miss _ _ H), H0. exact H.
  - unfold Get. fold k. rewrite (Get_miss _ _ H), H0. cbn. apply Get_miss. exact H.
Qed.

(** [Get] on a miss, when the database gives an id. *)
Lemma Get_miss_filled (j : Mapper Db) queue jobset id db :
  Lru.lookup (key queue jobset) (Lru.evictList (jobsetIds j)) = None ->
  GetOrCreateJobsetId (eventDb j) queue jobset = (inr id, db) ->
  Get queue jobset j =
  (inr id, mkMapper (Lru.Add (key queue jobset) id (jobsetIds j)) db (mutex_locked j)
                    (fallbacks j ++ [(queue, jobset)])).
Proof.
  intros Hmiss Hdb. unfold JobsetMapper.Get. rewrite (Get_miss _ _ Hmiss), Hdb. reflexivity.
Qed.

(** [Get] on a hit. *)
Lemma Get_hit_cached (j : Mapper Db) queue jobset id :
  Lru.lookup (key queue jobset) (Lru.evictList (jobsetIds j)) = Some id ->
  Get queue jobset j =
  (inr id, mkMapper (Lru.Get (key queue jobset) (jobsetIds j)).2 (eventDb j)
                    (mutex_locked j) (fallbacks j)).
Proof.
  intros Hhit. unfold JobsetMapper.Get.
  destruct (Get_hit _ _ _ Hhit) as (c' & -> & _ & _). reflexivity.
Qed.

(** Were the two calls to run one after the other, as a lock around [Get]
    would make them, the second would find the id in the cache and the
    database would be called once. *)
Lemma calls_in_turn_one_fallback (j : Mapper Db) (queue jobset : string) (id : Z) (db : Db) :
  0 < Lru.size (jobsetIds j) ->
  Lru.lookup (key queue jobset) (Lru.evictList (jobsetIds j)) = None ->
  GetOrCreateJobsetId (eventDb j) queue jobset = (inr id, db) ->
  let first := Get queue jobset j in
  let second := Get queue jobset first.2 in
  first.1 = inr id /\ second.1 = inr id
  /\ fallbacks second.2 = (fallbacks j ++ [(queue, jobset)])%list.
Proof.
  intros Hsize Hmiss Hdb first second. subst second first.
  rewrite (Get_miss_filled _ _ _ _ _ Hmiss Hdb). cbn [fst snd].
  rewrite (Get_hit_cached _ _ _ id).
  - repeat split; reflexivity.
  - cbn [jobsetIds]. apply Add_lookup. exact Hsize.
Qed.

(** C5, on the code: two callers of [Get] for the same pair, on a mapper
    whose cache does not hold the key, each taking one step in turn. Both
    miss, both call [GetOrCreateJobsetId], and the mutex is never taken: the
    second caller neither waits for the first nor reuses its result. *)
Theorem concurrent_misses_both_call_fallback
    (j : Mapper Db) (queue jobset : string) (id1 id2 : Z) (db1 db2 : Db) :
  Lru.lookup (key queue jobset) (Lru.evictList (jobsetIds j)) = None ->
  GetOrCreateJobsetId (eventDb j) queue jobset = (inr id1, db1) ->
  GetOrCreateJobsetId db1 queue jobset = (inr id2, db2) ->
  let s := run [0; 1; 0; 1; 0; 1]%nat (mkSystem j [call queue jobset; call queue jobset]) in
  callers s = [mkCaller queue jobset (returned (inr id1));
               mkCaller queue jobset (returned (inr id2))]
  /\ fallbacks (shared s) = (fallbacks j ++ [(queue, jobset); (queue, jobset)])%list
  /\ mutex_locked (shared s) = mutex_locked j.
Proof.
  intros Hmiss H1 H2. cbv zeta. unfold call.
  rewrite run_cons, sched_first, (step_lookup_miss _ _ _ Hmiss). cbn [fst snd].
  rewrite run_cons, sched_second, (step_lookup_miss _ _ _ Hmiss). cbn [fst snd].
  rewrite run_cons, sched_first, step_fallback, H1. cbn [fst snd eventDb].
  rewrite run_cons, sched_second, step_fallback. cbn [fst snd eventDb].
  rewrite H2. cbn [fst snd].
  rewrite run_cons, sched_first, step_populate. cbn [fst snd].
  rewrite run_cons, sched_second, step_populate, run_nil. cbn.
  rewrite <- app_assoc. repeat split; reflexivity.
Qed.

End Sequential.

Lemma Get_cache_or_fallback_witness :
  (Get Sample.GetOrCreateJobsetId "q1" "js1" sample_mapper).1 = inr 1
  /\ Lru.lookup "q2:js2"
       (Lru.evictList (jobsetIds (Get Sample.GetOrCreateJobsetId "q2" "js2" sample_mapper).2))
     = Some 2
  /\ Lru.lookup "down:js"
       (Lru.evictList (jobsetIds (Get Sample.GetOrCreateJobsetId "down" "js" sample_mapper).2))
     = None.
Proof.
  assert (Hsize : 0 < Lru.size (jobsetIds sample_mapper)) by (simpl; lia).
  split; [| split].
  - pose proof (Get_cache_or_fallback Sample.GetOrCreateJobsetId sample_mapper "q1" "js1" Hsize) as H.
    cbv zeta in H. destruct H as [H _]. apply (H 1). reflexivity.
  - pose proof (Get_cache_or_fallback Sample.GetOrCreateJobsetId sample_mapper "q2" "js2" Hsize) as H.
    cbv zeta in H. destruct H as [_ [H _]].
    apply (H 2 [("q1", "js1", 1); ("q2", "js2", 2)]); reflexivity.
  - pose proof (Get_cache_or_fallback Sample.GetOrCreateJobsetId sample_mapper "down" "js" Hsize) as H.
    cbv zeta in H. destruct H as [_ [_ H]].
    apply (H "connection refused" [("q1", "js1", 1)]); reflexivity.
Defined.

Lemma concurrent_misses_witness :
  fallbacks (shared (run Sample.GetOrCreateJobsetId [0; 1; 0; 1; 0; 1]%nat
                         (mkSystem sample_mapper [call "q2" "js2"; call "q2" "js2"])))
  = [("q2", "js2"); ("q2", "js2")].
Proof.
  apply (concurrent_misses_both_call_fallback Sample.GetOrCreateJobsetId
           sample_mapper "q2" "js2" 2 2
           [("q1", "js1", 1); ("q2", "js2", 2)] [("q1", "js1", 1); ("q2", "js2", 2)]);
    reflexivity.
Defined.

End JobsetMapperSpec.

(** ** Searching and slicing strings *)

Module GoStringsFacts.

Import GoStrings.

(** String concatenation computes on its first argument. *)
Local Arguments String.append !_ _ / : simpl nomatch.

Lemma append_assoc (a b c : string) : (a +:+ b) +:+ c = a +:+ (b +:+ c).
Proof. induction a as [| x a IH]; simpl; [reflexivity | rewrite IH; reflexivity]. Qed.

Lemma length_append (a b : string) :
  String.length (a +:+ b) = (String.length a + String.length b)%nat.
Proof. induction a as [| x a IH]; simpl; [reflexivity | rewrite IH; reflexivity]. Qed.

Lemma HasPrefix_append (p r : string) : HasPrefix (p +:+ r) p = true.
Proof.
  induction p as [| c p IH]; simpl; [reflexivity |].
  rewrite Ascii.eqb_refl. exact IH.
Qed.

Lemma HasPrefix_inv (s p : string) : HasPrefix s p = true -> exists r, s = p +:+ r.
Proof.
  revert s. induction p as [| c p IH]; intros s H.
  - exists s. reflexivity.
  - destruct s as [| d s]; simpl in H; [discriminate |].
    apply andb_true_iff in H as [Hc Hp]. apply Ascii.eqb_eq in Hc. subst d.
    destruct (IH _ Hp) as [r ->]. exists r. reflexivity.
Qed.

Lemma occurs_at_0 (sub s : string) : occurs_at sub s 0 <-> HasPrefix s sub = true.
Proof.
  split.
  - intros (pre & post & -> & Hlen). destruct pre; [| discriminate].
    simpl. apply HasPrefix_append.
  - intros H. destruct (HasPrefix_inv _ _ H) as [r ->].
    exists "", r. split; reflexivity.
Qed.

Lemma occurs_at_S (sub s : string) (c : ascii) (i : nat) :
  occurs_at sub (String c s) (S i) <-> occurs_at sub s i.
Proof.
  split.
  - intros (pre & post & Heq & Hlen). destruct pre as [| d pre]; [discriminate |].
    simpl in Heq, Hlen. injection Heq as -> ->. injection Hlen as Hlen.
    exists pre, post. split; [reflexivity | assumption].
  - intros (pre & post & -> & Hlen).
    exists (String c pre), post. split; [reflexivity | simpl; congruence].
Qed.

Lemma occurs_at_length (sub s : string) (i : nat) :
  occurs_at sub s i -> (i + String.length sub <= String.length s)%nat.
Proof.
  intros (pre & post & -> & <-). rewrite !length_append. lia.
Qed.

Lemma Index_lower_bound (s sub : string) : -1 <= Index s sub.
Proof.
  induction s as [| c s IH]; simpl.
  - destruct (HasPrefix "" sub); lia.
  - destruct (HasPrefix (String c s) sub); [lia |].
    destruct (Index s sub <? 0) eqn:E; [lia |]. apply Z.ltb_ge in E. lia.
Qed.

(** [Index] finds the first occurrence. *)
Lemma Index_found (s sub : string) (i : nat) :
  Index s sub = Z.of_nat i -> first_from sub s 0 i.
Proof.
  revert i. induction s as [| c s IH]; intros i; simpl.
  - destruct (HasPrefix "" sub) eqn:Hp; [| lia].
    intros Hi. assert (i = 0%nat) as -> by lia.
    split; [lia |]. split; [apply occurs_at_0; exact Hp | intros; lia].
  - destruct (HasPrefix (String c s) sub) eqn:Hp.
    + intros Hi. assert (i = 0%nat) as -> by lia.
      split; [lia |]. split; [apply occurs_at_0; exact Hp | intros; lia].
    + destruct (Index s sub <? 0) eqn:E; [lia |]. apply Z.ltb_ge in E.
      intros Hi. destruct i as [| i]; [lia |].
      destruct (IH i) as (_ & Hocc & Hfirst); [lia |].
      split; [lia |]. split; [apply occurs_at_S; exact Hocc |].
      intros [| i'] _ Hlt Hocc'.
      * apply occurs_at_0 in Hocc'. congruence.
      * apply occurs_at_S in Hocc'. apply (Hfirst i'); [lia | lia | exact Hocc'].
Qed.

(** [Index] returns [-1] only when there is no occurrence. *)
Lemma Index_absent (s sub : string) : Index s sub = -1 -> absent_from sub s 0.
Proof.
  induction s as [| c s IH]; simpl.
  - destruct (HasPrefix "" sub) eqn:Hp; [lia |].
    intros _ i _ Hocc. pose proof (occurs_at_length _ _ _ Hocc) as Hl. simpl in Hl.
    assert (i = 0%nat) as -> by lia. apply occurs_at_0 in Hocc. congruence.
  - destruct (HasPrefix (String c s) sub) eqn:Hp; [lia |].
    destruct (Index s sub <? 0) eqn:E.
    + intros _. apply Z.ltb_lt in E. pose proof (Index_lower_bound s sub).
      assert (Hs : Index s sub = -1) by lia.
      intros [| i] _ Hocc.
      * apply occurs_at_0 in Hocc. congruence.
      * apply occurs_at_S in Hocc. apply (IH Hs i); [lia | exact Hocc].
    + apply Z.ltb_ge in E. lia.
Qed.

Lemma Index_cases (s sub : string) :
  Index s sub = -1 \/ exists i, Index s sub = Z.of_nat i.
Proof.
  pose proof (Index_lower_bound s sub).
  destruct (Z.eq_dec (Index s sub) (-1)); [left; assumption | right].
  exists (Z.to_nat (Index s sub)). lia.
Qed.

Lemma first_from_unique (sub s : string) (from i i' : nat) :
  first_from sub s from i -> first_from sub s from i' -> i = i'.
Proof.
  intros (H1 & H2 & H3) (H1' & H2' & H3').
  destruct (Nat.lt_trichotomy i i') as [Hlt | [Heq | Hgt]]; [| assumption |].
  - exfalso. apply (H3' i); assumption.
  - exfalso. apply (H3 i'); assumption.
Qed.

Lemma first_not_absent (sub s : string) (from i : nat) :
  first_from sub s from i -> absent_from sub s from -> False.
Proof. intros (H1 & H2 & _) Habs. apply (Habs i); assumption. Qed.

(** [Contains] says whether there is an occurrence. *)
Lemma Contains_occurs (s sub : string) :
  Contains s sub = true <-> exists i, occurs_at sub s i.
Proof.
  unfold Contains. split.
  - intros H. apply Z.leb_le in H.
    destruct (Index_cases s sub) as [Hn | [i Hi]]; [lia |].
    exists i. apply (Index_found _ _ _ Hi).
  - intros [i Hocc]. apply Z.leb_le.
    destruct (Index_cases s sub) as [Hn | [i' Hi]]; [| lia].
    exfalso. apply (Index_absent _ _ Hn i); [lia | exact Hocc].
Qed.

(** *** Slices *)

Lemma substring_all (s : string) : String.substring 0 (String.length s) s = s.
Proof. induction s as [| c s IH]; simpl; [reflexivity | rewrite IH; reflexivity]. Qed.

Lemma substring_drop (n : nat) (s : string) :
  (n <= String.length s)%nat ->
  String.substring n (String.length s - n) s = drop_bytes n s.
Proof.
  revert s. induction n as [| n IH]; intros s Hn.
  - rewrite Nat.sub_0_r. simpl. apply substring_all.
  - destruct s as [| c s]; simpl in *; [lia |]. apply IH. lia.
Qed.

Lemma slice_from_drop (n : nat) (s : string) :
  (n <= String.length s)%nat ->
  slice_from s (Z.of_nat n) = Some (drop_bytes n s).
Proof.
  intros Hn. unfold slice_from, slice, len.
  replace ((0 <=? Z.of_nat n) && (Z.of_nat n <=? Z.of_nat (String.length s))
           && (Z.of_nat (String.length s) <=? Z.of_nat (String.length s))) with true.
  - rewrite Nat2Z.id.
    replace (Z.to_nat (Z.of_nat (String.length s) - Z.of_nat n))
      with (String.length s - n)%nat by lia.
    rewrite substring_drop by assumption. reflexivity.
  - symmetry. rewrite !andb_true_iff, !Z.leb_le. lia.
Qed.

Lemma occurs_at_drop (sub s : string) (n j : nat) :
  (n <= String.length s)%nat ->
  occurs_at sub (drop_bytes n s) j <-> occurs_at sub s (n + j).
Proof.
  revert s. induction n as [| n IH]; intros s Hn; [reflexivity |].
  destruct s as [| c s]; simpl in Hn; [lia |].
  simpl. rewrite occurs_at_S. apply IH. lia.
Qed.

Lemma length_drop (n : nat) (s : string) :
  String.length (drop_bytes n s) = (String.length s - n)%nat.
Proof.
  revert s. induction n as [| n IH]; intros s; [simpl; lia |].
  destruct s as [| c s]; simpl; [reflexivity | apply IH].
Qed.

Lemma first_from_shift (sub s : string) (n a b : nat) :
  (n <= String.length s)%nat ->
  first_from sub (drop_bytes n s) a b -> first_from sub s (n + a) (n + b).
Proof.
  intros Hn (Hab & Hocc & Hfirst). split; [lia |].
  split; [apply occurs_at_drop; assumption |].
  intros i' Hge Hlt Hocc'.
  apply (Hfirst (i' - n)%nat); [lia | lia |].
  apply occurs_at_drop; [assumption |].
  replace (n + (i' - n))%nat with i' by lia. exact Hocc'.
Qed.

Lemma absent_from_shift (sub s : string) (n a : nat) :
  (n <= String.length s)%nat ->
  absent_from sub (drop_bytes n s) a -> absent_from sub s (n + a).
Proof.
  intros Hn Habs i Hge Hocc.
  apply (Habs (i - n)%nat); [lia |].
  apply occurs_at_drop; [assumption |].
  replace (n + (i - n))%nat with i by lia. exact Hocc.
Qed.

(** *** Lower-casing ASCII *)

Lemma length_map_bytes (f : ascii -> ascii) (s : string) :
  String.length (map_bytes f s) = String.length s.
Proof. induction s as [| c s IH]; simpl; [reflexivity | rewrite IH; reflexivity]. Qed.

Lemma map_lower_no_upper (s : string) :
  any_byte is_upper_byte s = false -> map_bytes lower_byte s = s.
Proof.
  induction s as [| c s IH]; simpl; [reflexivity |].
  intros H. apply orb_false_iff in H as [Hc Hs].
  rewrite (IH Hs). unfold lower_byte. rewrite Hc. reflexivity.
Qed.

Lemma ToLower_ascii (f : string -> string) (s : string) :
  all_bytes is_ascii_byte s = true -> ToLower f s = map_bytes lower_byte s.
Proof.
  intros H. unfold ToLower. rewrite H.
  destruct (any_byte is_upper_byte s) eqn:E; simpl; [reflexivity |].
  symmetry. apply map_lower_no_upper. exact E.
Qed.

Lemma map_bytes_append_inv (f : ascii -> ascii) (s a b : string) :
  map_bytes f s = a +:+ b ->
  exists a0 b0, s = a0 +:+ b0 /\ map_bytes f a0 = a /\ map_bytes f b0 = b.
Proof.
  revert s. induction a as [| x a IH]; intros s H.
  - exists "", s. repeat split. exact H.
  - destruct s as [| c s]; simpl in H; [discriminate |].
    injection H as Hx Hs. destruct (IH _ Hs) as (a0 & b0 & -> & Ha & Hb).
    exists (String c a0), b0. simpl. rewrite Hx, Ha. repeat split. exact Hb.
Qed.

Lemma occurs_at_lower_inv (sub s : string) (i : nat) :
  lower_fixed sub ->
  occurs_at sub (map_bytes lower_byte s) i -> occurs_at sub s i.
Proof.
  intros Hfix (pre & post & Heq & Hlen).
  destruct (map_bytes_append_inv _ _ _ _ Heq) as (a0 & r & -> & Ha & Hr).
  destruct (map_bytes_append_inv _ _ _ _ Hr) as (b0 & c0 & -> & Hb & Hc).
  apply Hfix in Hb. subst b0.
  exists a0, c0. split; [reflexivity |].
  rewrite <- Hlen, <- Ha. symmetry. apply length_map_bytes.
Qed.

Lemma lower_byte_paren_open (c : ascii) : lower_byte c = "("%char -> c = "("%char.
Proof.
  destruct c as [[] [] [] [] [] [] [] []]; vm_compute; intros H; congruence.
Qed.

Lemma lower_byte_paren_close (c : ascii) : lower_byte c = ")"%char -> c = ")"%char.
Proof.
  destruct c as [[] [] [] [] [] [] [] []]; vm_compute; intros H; congruence.
Qed.

Lemma lower_byte_semicolon (c : ascii) : lower_byte c = ";"%char -> c = ";"%char.
Proof.
  destruct c as [[] [] [] [] [] [] [] []]; vm_compute; intros H; congruence.
Qed.

Lemma lower_fixed_open : lower_fixed "(".
Proof.
  intros t H. destruct t as [| c [| d t]]; simpl in H; try discriminate.
  injection H as H. apply lower_byte_paren_open in H. subst c. reflexivity.
Qed.

Lemma lower_fixed_close : lower_fixed ");".
Proof.
  intros t H. destruct t as [| c [| d [| e t]]]; simpl in H; try discriminate.
  injection H as H1 H2.
  apply lower_byte_paren_close in H1. apply lower_byte_semicolon in H2.
  subst c d. reflexivity.
Qed.

End GoStringsFacts.

(** ** The schema of a table *)

Module SchemaSpec.

Import GoStrings GoStringsFacts Schema.

Local Arguments String.append !_ _ / : simpl nomatch.

Lemma drop_drop (n m : nat) (s : string) :
  drop_bytes m (drop_bytes n s) = drop_bytes (n + m) s.
Proof.
  revert s. induction n as [| n IH]; intros s; [reflexivity |].
  destruct s as [| c s]; simpl; [destruct m; reflexivity | apply IH].
Qed.

Lemma slice_in_range (s : string) (a b : nat) :
  (a <= b)%nat -> (b <= String.length s)%nat ->
  slice s (Z.of_nat a) (Z.of_nat b) = Some (String.substring a (b - a) s).
Proof.
  intros Hab Hb. unfold slice, len.
  replace ((0 <=? Z.of_nat a) && (Z.of_nat a <=? Z.of_nat b)
           && (Z.of_nat b <=? Z.of_nat (String.length s))) with true.
  - rewrite Nat2Z.id. replace (Z.to_nat (Z.of_nat b - Z.of_nat a)) with (b - a)%nat by lia.
    reflexivity.
  - symmetry. rewrite !andb_true_iff, !Z.leb_le. lia.
Qed.

Section Cases.

Variable map_unicode_lower : string -> string.
Variables s tableName : string.
Hypothesis Hascii : all_bytes is_ascii_byte s = true.

Local Abbreviation sl := (lowered map_unicode_lower s).
Local Abbreviation result := (schemaFromString map_unicode_lower s tableName).

Lemma lowered_ascii : sl = map_bytes lower_byte s.
Proof. unfold lowered. apply ToLower_ascii. exact Hascii. Qed.

Lemma lowered_length : String.length sl = String.length s.
Proof. rewrite lowered_ascii. apply length_map_bytes. Qed.

(** The four ways a call on ASCII input ends. *)
Lemma schemaFromString_cases :
  (result = error could_not_find_table
   /\ absent_from (header tableName) sl 0)
  \/ (result = error eof_searching_open
      /\ exists i, first_from (header tableName) sl 0 i /\ absent_from "(" sl i)
  \/ (result = error eof_searching_close
      /\ exists i p, first_from (header tableName) sl 0 i
                     /\ first_from "(" sl i p /\ absent_from ");" sl p)
  \/ (exists schema, result = ok schema /\ schema_at s sl tableName schema).
Proof.
  unfold schemaFromString. fold (lowered map_unicode_lower s). fold (header tableName).
  destruct (Index_cases sl (header tableName)) as [Hi | [i Hi]].
  { left. rewrite Hi. split; [reflexivity | apply Index_absent; exact Hi]. }
  right. rewrite Hi.
  pose proof (Index_found _ _ _ Hi) as Fi.
  assert (Hile : (i <= String.length sl)%nat).
  { destruct Fi as (_ & Hocc & _). apply occurs_at_length in Hocc. lia. }
  replace (Z.of_nat i =? -1) with false by (symmetry; apply Z.eqb_neq; lia).
  rewrite (slice_from_drop _ _ Hile).
  destruct (Index_cases (drop_bytes i sl) "(") as [Hj | [j Hj]].
  { left. rewrite Hj. split; [reflexivity |]. exists i. split; [exact Fi |].
    apply Index_absent in Hj. apply (absent_from_shift _ _ _ 0) in Hj; [| exact Hile].
    rewrite Nat.add_0_r in Hj. exact Hj. }
  right. rewrite Hj.
  pose proof (Index_found _ _ _ Hj) as Fj.
  assert (Hjle : (j <= String.length (drop_bytes i sl))%nat).
  { destruct Fj as (_ & Hocc & _). apply occurs_at_length in Hocc. lia. }
  replace (Z.of_nat j =? -1) with false by (symmetry; apply Z.eqb_neq; lia).
  rewrite (slice_from_drop _ _ Hjle).
  assert (Fp : first_from "(" sl i (i + j)).
  { apply (first_from_shift _ _ _ 0) in Fj; [| exact Hile].
    rewrite Nat.add_0_r in Fj. exact Fj. }
  assert (Hple : (i + j <= String.length sl)%nat).
  { rewrite length_drop in Hjle. lia. }
  rewrite drop_drop.
  destruct (Index_cases (drop_bytes (i + j) sl) ");") as [Hk | [k Hk]].
  { left. rewrite Hk. split; [reflexivity |]. exists i, (i + j)%nat.
    split; [exact Fi |]. split; [exact Fp |].
    apply Index_absent in Hk. apply (absent_from_shift _ _ _ 0) in Hk; [| exact Hple].
    rewrite Nat.add_0_r in Hk. exact Hk. }
  right. rewrite Hk.
  pose proof (Index_found _ _ _ Hk) as Fk.
  replace (Z.of_nat k =? -1) with false by (symmetry; apply Z.eqb_neq; lia).
  assert (Fq : first_from ");" sl (i + j) (i + j + k)).
  { apply (first_from_shift _ _ _ 0) in Fk; [| exact Hple].
    rewrite Nat.add_0_r in Fk. exact Fk. }
  assert (Hq : (i + j + k + 2 <= String.length s)%nat).
  { destruct Fq as (_ & Hocc & _). apply occurs_at_length in Hocc.
    rewrite lowered_length in Hocc. simpl in Hocc. lia. }
  replace (Z.of_nat i + Z.of_nat j) with (Z.of_nat (i + j)) by lia.
  replace (Z.of_nat (i + j) + (Z.of_nat k + len ");") - 1)
    with (Z.of_nat (i + j + k + 1)) by (unfold len; simpl; lia).
  rewrite slice_in_range by lia.
  eexists. split; [reflexivity |].
  exists i, (i + j)%nat, (i + j + k)%nat.
  split; [exact Fi |]. split; [exact Fp |]. split; [exact Fq |].
  split; [f_equal; lia |].
  split.
  - apply occurs_at_lower_inv; [apply lower_fixed_open |].
    rewrite <- lowered_ascii. apply Fp.
  - apply occurs_at_lower_inv; [apply lower_fixed_close |].
    rewrite <- lowered_ascii. apply Fq.
Qed.

End Cases.

(** C10, as amended: on ASCII input, [schemaFromString] returns an error
    exactly when the lower-cased input does not contain "create table
    <tableName>", or contains no "(" at or after the start of its first
    occurrence, or contains no ");" after that "("; otherwise it returns the
    bytes of the input from that "(" to the ")" of the first ");" after it,
    the ";" left out, and the input has the "(" and the ");" at those places. *)
Theorem schemaFromString_ascii (map_unicode_lower : string -> string)
    (s tableName : string) :
  all_bytes is_ascii_byte s = true ->
  let sl := lowered map_unicode_lower s in
  let result := schemaFromString map_unicode_lower s tableName in
  (is_error result <-> error_condition sl tableName)
  /\ (~ is_error result ->
      exists schema, result = ok schema /\ schema_at s sl tableName schema).
Proof.
  intros Hascii sl result.
  pose proof (schemaFromString_cases map_unicode_lower s tableName Hascii) as Hcases.
  fold sl in Hcases. fold result in Hcases.
  split; [split |].
  - intros [e He].
    destruct Hcases as [[_ H] | [[_ H] | [[_ H] | (schema & Hr & _)]]].
    + left. exact H.
    + right. left. exact H.
    + right. right. exact H.
    + rewrite Hr in He. discriminate.
  - intros Hcond.
    destruct Hcases as [[Hr _] | [[Hr _] | [[Hr _] | (schema & Hr & Hat)]]];
      try (eexists; exact Hr).
    exfalso. destruct Hat as (i & p & q & Fi & Fp & Fq & _).
    destruct Hcond as [Habs | [(i' & Fi' & Habs) | (i' & p' & Fi' & Fp' & Habs)]].
    + exact (first_not_absent _ _ _ _ Fi Habs).
    + rewrite (first_from_unique _ _ _ _ _ Fi' Fi) in Habs.
      exact (first_not_absent _ _ _ _ Fp Habs).
    + rewrite (first_from_unique _ _ _ _ _ Fi' Fi) in Fp'.
      rewrite (first_from_unique _ _ _ _ _ Fp' Fp) in Habs.
      exact (first_not_absent _ _ _ _ Fq Habs).
  - intros Hne.
    destruct Hcases as [[Hr _] | [[Hr _] | [[Hr _] | H]]];
      try (exfalso; apply Hne; eexists; exact Hr).
    exact H.
Qed.

(** The example of the function's comment. *)
Lemma schemaFromString_example :
  schemaFromString ascii_only example_sql "circle" = ok example_circle.
Proof. vm_compute. reflexivity. Qed.

Lemma schemaFromString_ascii_witness :
  let sl := lowered ascii_only example_sql in
  let result := schemaFromString ascii_only example_sql "circle" in
  (is_error result <-> error_condition sl "circle")
  /\ (~ is_error result ->
      exists schema, result = ok schema /\ schema_at example_sql sl "circle" schema).
Proof.
  apply (schemaFromString_ascii ascii_only example_sql "circle").
  vm_compute. reflexivity.
Defined.

(** C10, as stated, fails when the table name holds a "(": the search for
    "(" starts at the start of the header, not after it. For the input
    "create table t(a);" and the table "t(a" there is no "(" after the
    header, and the call returns "(a)" and no error. *)
Lemma schemaFromString_paren_in_header :
  let sl := lowered ascii_only "create table t(a);" in
  let result := schemaFromString ascii_only "create table t(a);" "t(a" in
  stated_error_condition sl "t(a"
  /\ result = ok "(a)"
  /\ ~ (is_error result <-> stated_error_condition sl "t(a").
Proof.
  cbv zeta.
  assert (Hstated : stated_error_condition (lowered ascii_only "create table t(a);") "t(a").
  { right. left. exists 0%nat. split.
    - split; [lia |]. split; [apply occurs_at_0; vm_compute; reflexivity | intros; lia].
    - change (lowered ascii_only "create table t(a);") with "create table t(a);".
      change (0 + String.length (header "t(a"))%nat with (16 + 0)%nat.
      apply absent_from_shift; [vm_compute; lia |].
      apply Index_absent. vm_compute. reflexivity. }
  assert (Hres : schemaFromString ascii_only "create table t(a);" "t(a" = ok "(a)")
    by (vm_compute; reflexivity).
  split; [exact Hstated |]. split; [exact Hres |].
  intros [_ H]. destruct (H Hstated) as [e He]. rewrite Hres in He. discriminate.
Qed.

(** Input that is not ASCII: lower-casing the Kelvin sign turns three bytes
    into one, the places found in the lower-cased string are two bytes off
    in the input, and the call returns "t (" for the table "t" of
    "<Kelvin sign>create table t (a);". *)
Lemma schemaFromString_kelvin (map_unicode_lower : string -> string) :
  map_unicode_lower (kelvin +:+ "create table t (a);") = "kcreate table t (a);" ->
  schemaFromString map_unicode_lower (kelvin +:+ "create table t (a);") "t" = ok "t (".
Proof.
  intros H. unfold schemaFromString, ToLower.
  change (all_bytes is_ascii_byte (kelvin +:+ "create table t (a);")) with false.
  cbv iota. rewrite H. vm_compute. reflexivity.
Qed.

Lemma schemaFromString_kelvin_example :
  schemaFromString lower_two_runes (kelvin +:+ "create table t (a);") "t" = ok "t (".
Proof. apply schemaFromString_kelvin. vm_compute. reflexivity. Qed.

(** Where lower-casing makes the string longer the slice can be out of
    range: two letters A with stroke grow by two bytes, and the call for
    the table "t" of "<A with stroke><A with stroke>create table t (a);"
    panics. *)
Lemma schemaFromString_panics (map_unicode_lower : string -> string) :
  map_unicode_lower (a_stroke +:+ a_stroke +:+ "create table t (a);")
    = a_stroke_lower +:+ a_stroke_lower +:+ "create table t (a);" ->
  schemaFromString map_unicode_lower (a_stroke +:+ a_stroke +:+ "create table t (a);") "t"
    = panic.
Proof.
  intros H. unfold schemaFromString, ToLower.
  change (all_bytes is_ascii_byte (a_stroke +:+ a_stroke +:+ "create table t (a);"))
    with false.
  cbv iota. rewrite H. vm_compute. reflexivity.
Qed.

Lemma schemaFromString_panics_example :
  schemaFromString lower_two_runes (a_stroke +:+ a_stroke +:+ "create table t (a);") "t"
    = panic.
Proof. apply schemaFromString_panics. vm_compute. reflexivity. Qed.

End SchemaSpec.

(** ** Token authentication *)

Module AuthSpec.

Import GoStrings GoStringsFacts Auth.

(** *** The cache *)

Lemma cache_Set_items now k x d c :
  exists e, items (cache_Set now k x d c) = <[k := mkItem x e]> (items c).
Proof. unfold cache_Set. eexists. reflexivity. Qed.

Lemma wrap64_small z : - 2 ^ 63 <= z < 2 ^ 63 -> wrap64 z = z.
Proof. intros H. unfold wrap64. rewrite Z.mod_small; lia. Qed.

Lemma wrap64_le z : - 2 ^ 63 <= z -> wrap64 z <= z.
Proof.
  intros H. unfold wrap64.
  pose proof (Z.mod_le (z + 2 ^ 63) (2 ^ 64)). lia.
Qed.

Lemma time_Unix_small sec :
  - 2 ^ 63 <= sec + unixToInternal < 2 ^ 63 -> time_Unix sec = sec * Second.
Proof. intros H. unfold time_Unix. rewrite wrap64_small by exact H. f_equal. lia. Qed.

(** For an [int64] number of seconds, wrapping can only move an instant
    into the past. *)
Lemma time_Unix_le sec : - 2 ^ 63 <= sec -> time_Unix sec <= sec * Second.
Proof.
  intros H. unfold time_Unix.
  assert (wrap64 (sec + unixToInternal) <= sec + unixToInternal)
    by (apply wrap64_le; unfold unixToInternal; lia).
  unfold Second. nia.
Qed.

(** An entry set with a positive time to live is found until the time is up
    (for instants that a 64-bit count of nanoseconds holds). *)
Lemma cache_Get_Set_live now now' k x d c :
  0 < d ->
  - 2 ^ 63 <= now' < 2 ^ 63 ->
  - 2 ^ 63 <= now + d < 2 ^ 63 ->
  now' <= now + d ->
  cache_Get now' k (cache_Set now k x d c) = Some x.
Proof.
  intros Hd Hr' Hr Hnow. unfold cache_Get, cache_Set. cbn [items].
  rewrite lookup_insert_eq. cbn [Expiration Obj].
  replace (d =? 0) with false by (symmetry; apply Z.eqb_neq; lia).
  replace (0 <? d) with true by (symmetry; apply Z.ltb_lt; lia).
  rewrite !wrap64_small by assumption.
  replace (now + d <? now') with false by (symmetry; apply Z.ltb_ge; lia).
  rewrite andb_false_r. reflexivity.
Qed.

(** ... and no longer afterwards. *)
Lemma cache_Get_Set_expired now now' k x d c :
  0 < d ->
  - 2 ^ 63 <= now' < 2 ^ 63 ->
  0 < now + d < 2 ^ 63 ->
  now + d < now' ->
  cache_Get now' k (cache_Set now k x d c) = None.
Proof.
  intros Hd Hr' Hr Hnow. unfold cache_Get, cache_Set. cbn [items].
  rewrite lookup_insert_eq. cbn [Expiration Obj].
  replace (d =? 0) with false by (symmetry; apply Z.eqb_neq; lia).
  replace (0 <? d) with true by (symmetry; apply Z.ltb_lt; lia).
  rewrite !wrap64_small by lia.
  replace (0 <? now + d) with true by (symmetry; apply Z.ltb_lt; lia).
  replace (now + d <? now') with true by (symmetry; apply Z.ltb_lt; lia).
  reflexivity.
Qed.

(** A time to live that is not positive makes an entry that never expires
    (when the default is not positive either). *)
Lemma cache_Get_Set_forever now now' k x d c :
  d < 0 \/ (d = 0 /\ defaultExpiration c <= 0) ->
  cache_Get now' k (cache_Set now k x d c) = Some x.
Proof.
  intros Hd. unfold cache_Get, cache_Set. cbn [items].
  rewrite lookup_insert_eq. cbn [Expiration Obj].
  destruct Hd as [Hd | [-> Hd]].
  - replace (d =? 0) with false by (symmetry; apply Z.eqb_neq; lia).
    replace (0 <? d) with false by (symmetry; apply Z.ltb_ge; lia). reflexivity.
  - cbn. replace (0 <? defaultExpiration c) with false by (symmetry; apply Z.ltb_ge; lia).
    reflexivity.
Qed.

(** An entry set with a positive time to live lives exactly that long, when
    the instant it runs out is after 1970 and fits a 64-bit count of
    nanoseconds. *)
Lemma cache_Set_time_to_live now k x d c :
  0 < d ->
  0 < now + d < 2 ^ 63 ->
  Invariants.time_to_live (cache_Set now k x d c) k x now d.
Proof.
  intros Hd Hr now' Hr'. unfold cache_Get, cache_Set. cbn [items].
  rewrite lookup_insert_eq. cbn [Expiration Obj].
  replace (d =? 0) with false by (symmetry; apply Z.eqb_neq; lia).
  replace (0 <? d) with true by (symmetry; apply Z.ltb_lt; lia).
  rewrite !wrap64_small by lia.
  replace (0 <? now + d) with true by (symmetry; apply Z.ltb_lt; lia).
  destruct (now' <=? now + d) eqn:E.
  - apply Z.leb_le in E.
    replace (now + d <? now') with false by (symmetry; apply Z.ltb_ge; lia). reflexivity.
  - apply Z.leb_gt in E.
    replace (now + d <? now') with true by (symmetry; apply Z.ltb_lt; lia). reflexivity.
Qed.

(** The difference of two instants that fits a duration is not cut. *)
Lemma Sub_exact t u : - 2 ^ 63 <= t - u < 2 ^ 63 -> Sub t u = t - u.
Proof.
  intros H. unfold Sub, maxDuration, minDuration.
  replace (2 ^ 63 - 1 <? t - u) with false by (symmetry; apply Z.ltb_ge; lia).
  replace (t - u <? - 2 ^ 63) with false by (symmetry; apply Z.ltb_ge; lia).
  reflexivity.
Qed.

(** A time to live of [0] is replaced by the default of the cache. *)
Lemma cache_Set_default now k x c :
  cache_Set now k x 0 c = cache_Set now k x (defaultExpiration c) c
  \/ defaultExpiration c = 0.
Proof.
  unfold cache_Set. cbn. destruct (defaultExpiration c =? 0) eqn:E.
  - right. apply Z.eqb_eq. exact E.
  - left. reflexivity.
Qed.

Lemma cache_Get_found now k c x :
  cache_Get now k c = Some x ->
  exists item, items c !! k = Some item /\ Obj item = x.
Proof.
  unfold cache_Get. destruct (items c !! k) as [item |]; [| discriminate].
  destruct (_ && _); [discriminate |]. intros [= <-]. exists item. split; reflexivity.
Qed.

(** *** Traces *)

Lemma reviews_app t1 t2 : reviews (t1 ++ t2) = (reviews t1 + reviews t2)%nat.
Proof. unfold reviews. rewrite List.filter_app, List.length_app. reflexivity. Qed.

Lemma file_reads_app t1 t2 : file_reads (t1 ++ t2) = (file_reads t1 + file_reads t2)%nat.
Proof. unfold file_reads. rewrite List.filter_app, List.length_app. reflexivity. Qed.

Lemma cache_calls_app t1 t2 : cache_calls (t1 ++ t2) = (cache_calls t1 + cache_calls t2)%nat.
Proof. unfold cache_calls. rewrite List.filter_app, List.length_app. reflexivity. Qed.

(** *** Kids *)

Lemma validateKid_bad kid :
  kid = "" \/ (exists i, occurs_at "../" kid i) ->
  validateKid kid = inl err_kid_empty \/ validateKid kid = inl err_kid_attack.
Proof.
  intros H. unfold validateKid.
  destruct (String.eqb kid "") eqn:E; [left; reflexivity | right].
  destruct H as [-> | H]; [discriminate |].
  apply Contains_occurs in H. rewrite H. reflexivity.
Qed.

Lemma validateKid_ok kid :
  validateKid kid = inr tt -> kid <> "" /\ ~ exists i, occurs_at "../" kid i.
Proof.
  intros H. split.
  - intros ->. discriminate.
  - intros Hocc. destruct (validateKid_bad kid (or_intror Hocc)) as [E | E];
      rewrite E in H; discriminate.
Qed.

Section Service.

Variable DecodeString : string -> option string.
Variable Unmarshal_auth : string -> option (string * string).
Variable Unmarshal_exp : string -> option Z.
Variable Unmarshal_kid : string -> option string.

Local Abbreviation parseAuth := (Auth.parseAuth DecodeString Unmarshal_auth).
Local Abbreviation parseTime := (Auth.parseTime DecodeString Unmarshal_exp).
Local Abbreviation kid_of := (Auth.kid_of DecodeString Unmarshal_kid).
Local Abbreviation getClusterURL := (Auth.getClusterURL DecodeString Unmarshal_kid).
Local Abbreviation Authenticate :=
  (Auth.Authenticate DecodeString Unmarshal_auth Unmarshal_exp Unmarshal_kid).
Local Abbreviation with_token :=
  (Auth.with_token DecodeString Unmarshal_exp Unmarshal_kid).
Local Abbreviation carries := (Auth.carries DecodeString Unmarshal_auth).
Local Abbreviation exp_claim := (Auth.exp_claim DecodeString Unmarshal_exp).
Local Abbreviation reachable :=
  (Auth.reachable DecodeString Unmarshal_auth Unmarshal_exp Unmarshal_kid).
Local Abbreviation valid_entries_checked :=
  (Auth.valid_entries_checked DecodeString Unmarshal_kid).

Lemma Authenticate_with_token svc env authorization token ca :
  carries authorization token ca ->
  Authenticate svc env authorization = with_token svc env token ca.
Proof.
  intros (credentials & Hsplit & Hparse).
  unfold Auth.Authenticate. rewrite Hsplit. cbn [negb String.eqb].
  change (String.eqb "KubernetesAuth" "KubernetesAuth") with true. cbn [negb].
  rewrite Hparse. reflexivity.
Qed.

(** A header that carries no token is refused and nothing else happens. *)
Lemma Authenticate_no_token svc env authorization st :
  (forall token ca, ~ carries authorization token ca) ->
  Authenticate svc env authorization st = (inl missingCredentials, st).
Proof.
  intros Hno. unfold Auth.Authenticate.
  destruct (SplitN2 authorization " ") as [| scheme [| credentials [| x l]]] eqn:Hsplit;
    try reflexivity.
  destruct (String.eqb scheme "KubernetesAuth") eqn:Hscheme; [| reflexivity].
  cbn [negb]. apply String.eqb_eq in Hscheme. subst scheme.
  destruct (parseAuth credentials) as [e | [token ca]] eqn:Hparse; [reflexivity |].
  exfalso. apply (Hno token ca). exists credentials. split; [exact Hsplit | exact Hparse].
Qed.

Lemma parseTime_exp token exp :
  exp_claim token exp ->
  parseTime token = if exp =? 0 then inl err_expiry_not_set else inr (time_Unix exp).
Proof.
  intros (h & payload & sg & decoded & Hsplit & Hdec & Hexp).
  unfold Auth.parseTime, decode. rewrite Hsplit, Hdec, Hexp. reflexivity.
Qed.

(** C8: a token whose embedded expiry (an [int64] count of seconds) is
    before the reading of the service's clock is refused with an error, and
    the state is as it was: the cache was neither read nor written and the
    reviewer was not called. *)
Theorem Authenticate_expired svc env authorization token ca exp st :
  carries authorization token ca ->
  exp_claim token exp ->
  - 2 ^ 63 <= exp < 2 ^ 63 ->
  exp * Second < Clock_Now env ->
  exists err,
    Authenticate svc env authorization st = (inl err, st)
    /\ (err = err_expired \/ err = err_expiry_not_set).
Proof.
  intros Hcarries Hexp Hint64 Hbefore.
  rewrite (Authenticate_with_token _ _ _ _ _ Hcarries).
  unfold Auth.with_token, bind, lift. rewrite (parseTime_exp _ _ Hexp).
  destruct (exp =? 0).
  - exists err_expiry_not_set. split; [reflexivity | right; reflexivity].
  - unfold After. pose proof (time_Unix_le exp (proj1 Hint64)) as Hle.
    replace (time_Unix exp <? Clock_Now env) with true
      by (symmetry; apply Z.ltb_lt; lia).
    exists err_expired. split; [reflexivity | left; reflexivity].
Qed.

(** *** The cluster URL *)

Lemma getClusterURL_ok svc env token kid url st :
  kid_of token = inr kid ->
  validateKid kid = inr tt ->
  os_ReadFile env (KidMappingFileLocation svc +:+ kid) = Some url ->
  getClusterURL svc env token st =
  (inr url, mkState (TokenCache st)
                    (trace st ++ [ev_read_file (KidMappingFileLocation svc +:+ kid)])).
Proof.
  intros Hkid Hvalid Hfile.
  unfold Auth.getClusterURL, bind, lift, ReadFile, ret.
  rewrite Hkid, Hvalid, Hfile. reflexivity.
Qed.

Lemma getClusterURL_bad_kid svc env token kid st :
  kid_of token = inr kid ->
  kid = "" \/ (exists i, occurs_at "../" kid i) ->
  exists err, getClusterURL svc env token st = (inl err, st)
              /\ (err = err_kid_empty \/ err = err_kid_attack).
Proof.
  intros Hkid Hbad.
  unfold Auth.getClusterURL, bind, lift. rewrite Hkid.
  destruct (validateKid_bad kid Hbad) as [E | E]; rewrite E; eexists; split;
    try reflexivity; [left | right]; reflexivity.
Qed.

(** [getClusterURL] leaves the cache alone, and gives a URL only for a token
    whose kid passes [validateKid]. *)
Lemma getClusterURL_cache svc env token st :
  TokenCache (getClusterURL svc env token st).2 = TokenCache st.
Proof.
  unfold Auth.getClusterURL, bind, lift, ReadFile, ret.
  destruct (kid_of token) as [e | kid]; [reflexivity |].
  destruct (validateKid kid) as [e | []]; [reflexivity |].
  cbn. destruct (os_ReadFile env _); reflexivity.
Qed.

Lemma getClusterURL_checked svc env token st url :
  (getClusterURL svc env token st).1 = inr url ->
  exists kid, kid_of token = inr kid /\ validateKid kid = inr tt.
Proof.
  unfold Auth.getClusterURL, bind, lift, ReadFile, ret.
  destruct (kid_of token) as [e | kid]; [discriminate |].
  destruct (validateKid kid) as [e | []] eqn:Hv; [discriminate |].
  intros _. exists kid. split; [reflexivity | exact Hv].
Qed.

(** *** The token review *)

Lemma reviewToken_run svc env url token ca r st :
  ReviewToken env url token ca = Some r ->
  reviewToken svc env url token ca st =
  if Authenticated r
  then (inr (Username r),
        mkState (TokenCache st) (trace st ++ [ev_review url token ca]))
  else (inl err_rejected,
        mkState (cache_Set (time_Now_set env) token
                           (obj_CacheData (mkCacheData "" false))
                           (InvalidTokenExpiry svc) (TokenCache st))
                ((trace st ++ [ev_review url token ca])
                 ++ [ev_cache_set token (obj_CacheData (mkCacheData "" false))
                                  (InvalidTokenExpiry svc)])).
Proof.
  intros Hr. unfold reviewToken, bind, TokenReviewer_ReviewToken. rewrite Hr.
  destruct (Authenticated r); reflexivity.
Qed.

(** What [reviewToken] does to the cache: nothing, or it stores an invalid
    entry for the token. *)
Lemma reviewToken_cache svc env url token ca st :
  TokenCache (reviewToken svc env url token ca st).2 = TokenCache st
  \/ (reviewToken svc env url token ca st).1 = inl err_rejected
     /\ TokenCache (reviewToken svc env url token ca st).2 =
        cache_Set (time_Now_set env) token (obj_CacheData (mkCacheData "" false))
                  (InvalidTokenExpiry svc) (TokenCache st).
Proof.
  unfold reviewToken, bind, TokenReviewer_ReviewToken.
  destruct (ReviewToken env url token ca) as [r |]; [| left; reflexivity].
  destruct (Authenticated r); [left; reflexivity | right; split; reflexivity].
Qed.

(** *** The token cache in [Authenticate] *)

Section Reaches_cache.

Variables (svc : Service) (env : Env) (authorization token ca : string).
Variables (expirationTime : Time) (st : State).
Hypothesis Hcarries : carries authorization token ca.
Hypothesis Htime : parseTime token = inr expirationTime.
Hypothesis Hlive : After (Clock_Now env) expirationTime = false.

Lemma Authenticate_cached_invalid name :
  cache_Get (time_Now_get env) token (TokenCache st)
    = Some (obj_CacheData (mkCacheData name false)) ->
  Authenticate svc env authorization st =
  (inl err_token_invalid, mkState (TokenCache st) (trace st ++ [ev_cache_get token])).
Proof.
  intros Hget. rewrite (Authenticate_with_token _ _ _ _ _ Hcarries).
  unfold Auth.with_token, bind, lift, TokenCache_Get. rewrite Htime, Hlive, Hget.
  reflexivity.
Qed.

Lemma Authenticate_cached_valid name :
  cache_Get (time_Now_get env) token (TokenCache st)
    = Some (obj_CacheData (mkCacheData name true)) ->
  Authenticate svc env authorization st =
  (inr (NewStaticPrincipal name [name]),
   mkState (TokenCache st) (trace st ++ [ev_cache_get token])).
Proof.
  intros Hget. rewrite (Authenticate_with_token _ _ _ _ _ Hcarries).
  unfold Auth.with_token, bind, lift, TokenCache_Get. rewrite Htime, Hlive, Hget.
  reflexivity.
Qed.

Lemma Authenticate_reviewed kid url r :
  (forall d, cache_Get (time_Now_get env) token (TokenCache st) <> Some (obj_CacheData d)) ->
  kid_of token = inr kid ->
  validateKid kid = inr tt ->
  os_ReadFile env (KidMappingFileLocation svc +:+ kid) = Some url ->
  ReviewToken env url token ca = Some r ->
  let path := KidMappingFileLocation svc +:+ kid in
  let invalid := obj_CacheData (mkCacheData "" false) in
  let valid := obj_CacheData (mkCacheData (Username r) true) in
  let ttl := Sub expirationTime (time_Now_ttl env) in
  Authenticate svc env authorization st =
  if Authenticated r
  then (inr (NewStaticPrincipal (Username r) [Username r]),
        mkState (cache_Set (time_Now_set env) token valid ttl (TokenCache st))
                (trace st ++ [ev_cache_get token; ev_read_file path;
                              ev_review url token ca; ev_cache_set token valid ttl]))
  else (inl err_rejected,
        mkState (cache_Set (time_Now_set env) token invalid (InvalidTokenExpiry svc)
                           (TokenCache st))
                (trace st ++ [ev_cache_get token; ev_read_file path;
                              ev_review url token ca;
                              ev_cache_set token invalid (InvalidTokenExpiry svc)])).
Proof.
  intros Hmiss Hkid Hvalid Hfile Hreview. cbv zeta.
  rewrite (Authenticate_with_token _ _ _ _ _ Hcarries).
  unfold Auth.with_token, bind, lift. rewrite Htime, Hlive.
  unfold TokenCache_Get at 1. cbv beta.
  destruct (cache_Get (time_Now_get env) token (TokenCache st)) as [[d |] |] eqn:Hget;
    [exfalso; apply (Hmiss d); reflexivity | |].
  - rewrite (getClusterURL_ok _ _ _ _ _ _ Hkid Hvalid Hfile).
    rewrite (reviewToken_run _ _ _ _ _ _ _ Hreview).
    destruct (Authenticated r); cbn [TokenCache trace].
    + unfold TokenCache_Set, ret. cbn [TokenCache trace].
      rewrite <- !app_assoc. reflexivity.
    + rewrite <- !app_assoc. reflexivity.
  - rewrite (getClusterURL_ok _ _ _ _ _ _ Hkid Hvalid Hfile).
    rewrite (reviewToken_run _ _ _ _ _ _ _ Hreview).
    destruct (Authenticated r); cbn [TokenCache trace].
    + unfold TokenCache_Set, ret. cbn [TokenCache trace].
      rewrite <- !app_assoc. reflexivity.
    + rewrite <- !app_assoc. reflexivity.
Qed.

End Reaches_cache.


(** *** What the cache holds *)

(** A call either leaves the cache as it was, or stores an invalid entry for
    its token, or stores a valid entry for a token whose kid it checked. *)
Lemma with_token_cache svc env token ca st :
  let st' := (with_token svc env token ca st).2 in
  TokenCache st' = TokenCache st
  \/ (exists now d,
        TokenCache st' =
        cache_Set now token (obj_CacheData (mkCacheData "" false)) d (TokenCache st))
  \/ (exists kid name now d,
        kid_of token = inr kid /\ validateKid kid = inr tt
        /\ TokenCache st' =
           cache_Set now token (obj_CacheData (mkCacheData name true)) d (TokenCache st)).
Proof.
  cbv zeta. unfold Auth.with_token, bind, lift.
  destruct (parseTime token) as [e | expirationTime]; [left; reflexivity |].
  destruct (After (Clock_Now env) expirationTime); [left; reflexivity |].
  unfold TokenCache_Get. cbv beta.
  set (s1 := mkState (TokenCache st) (trace st ++ [ev_cache_get token])).
  assert (Hrest :
    let out := (url <- getClusterURL svc env token ;;
                name <- reviewToken svc env url token ca ;;
                TokenCache_Set env token (obj_CacheData (mkCacheData name true))
                  (Sub expirationTime (time_Now_ttl env)) ;;;
                ret (NewStaticPrincipal name [name])) s1 in
    TokenCache out.2 = TokenCache st
    \/ (exists now d,
          TokenCache out.2 =
          cache_Set now token (obj_CacheData (mkCacheData "" false)) d (TokenCache st))
    \/ (exists kid name now d,
          kid_of token = inr kid /\ validateKid kid = inr tt
          /\ TokenCache out.2 =
             cache_Set now token (obj_CacheData (mkCacheData name true)) d (TokenCache st))).
  { cbv zeta. unfold bind.
    pose proof (getClusterURL_cache svc env token s1) as Hc1.
    pose proof (getClusterURL_checked svc env token s1) as Hk.
    destruct (getClusterURL svc env token s1) as [[e | url] s2]; cbn [fst snd] in *;
      [left; exact Hc1 |].
    destruct (Hk url eq_refl) as (kid & Hkid & Hvalid).
    pose proof (reviewToken_cache svc env url token ca s2) as Hc2.
    destruct (reviewToken svc env url token ca s2) as [[e | name] s3]; cbn [fst snd] in *.
    - destruct Hc2 as [Hc2 | [_ Hc2]].
      + left. rewrite Hc2. exact Hc1.
      + right. left. eexists _, _. rewrite Hc2, Hc1. reflexivity.
    - destruct Hc2 as [Hc2 | [Hc2 _]]; [| discriminate].
      right. right. exists kid, name. eexists _, _.
      split; [exact Hkid |]. split; [exact Hvalid |].
      unfold TokenCache_Set, ret. cbn [fst snd TokenCache].
      rewrite Hc2, Hc1. reflexivity. }
  destruct (cache_Get (time_Now_get env) token (TokenCache st)) as [[d |] |].
  - destruct (Valid d); left; reflexivity.
  - exact Hrest.
  - exact Hrest.
Qed.

Lemma Authenticate_token_or_not svc env authorization :
  (exists token ca, carries authorization token ca)
  \/ (forall st, Authenticate svc env authorization st = (inl missingCredentials, st)).
Proof.
  destruct (SplitN2 authorization " ") as [| scheme [| credentials [| x l]]] eqn:Hsplit;
    try (right; intros st; unfold Auth.Authenticate; rewrite Hsplit; reflexivity).
  destruct (String.eqb scheme "KubernetesAuth") eqn:Hscheme.
  - apply String.eqb_eq in Hscheme. subst scheme.
    destruct (parseAuth credentials) as [e | [token ca]] eqn:Hparse.
    + right. intros st. unfold Auth.Authenticate. rewrite Hsplit.
      change (String.eqb "KubernetesAuth" "KubernetesAuth") with true. cbn [negb].
      rewrite Hparse. reflexivity.
    + left. exists token, ca, credentials. split; assumption.
  - right. intros st. unfold Auth.Authenticate. rewrite Hsplit, Hscheme. reflexivity.
Qed.

Lemma checked_after_Set now k x d st c' :
  valid_entries_checked st ->
  c' = cache_Set now k x d (TokenCache st) ->
  (forall name, x = obj_CacheData (mkCacheData name true) ->
                exists kid, kid_of k = inr kid /\ validateKid kid = inr tt) ->
  forall k' item name,
    items c' !! k' = Some item ->
    Obj item = obj_CacheData (mkCacheData name true) ->
    exists kid, kid_of k' = inr kid /\ validateKid kid = inr tt.
Proof.
  intros Hinv -> Hx k' item name Hlook Hobj.
  unfold cache_Set in Hlook. cbn [items] in Hlook.
  destruct (decide (k = k')) as [<- | Hne].
  - rewrite lookup_insert_eq in Hlook. injection Hlook as <-. cbn in Hobj.
    apply (Hx name). exact Hobj.
  - rewrite lookup_insert_ne in Hlook by exact Hne.
    apply (Hinv k' item name); assumption.
Qed.

(** A call of [Authenticate] keeps the valid entries checked. *)
Lemma Authenticate_keeps_checked svc env authorization st :
  valid_entries_checked st ->
  valid_entries_checked (Authenticate svc env authorization st).2.
Proof.
  intros Hinv.
  destruct (Authenticate_token_or_not svc env authorization) as [(token & ca & Hc) | Hno].
  - rewrite (Authenticate_with_token _ _ _ _ _ Hc).
    destruct (with_token_cache svc env token ca st)
      as [Heq | [(now & d & Heq) | (kid & name & now & d & Hkid & Hvalid & Heq)]].
    + intros k item name. rewrite Heq. apply Hinv.
    + intros k item name.
      apply (checked_after_Set _ _ _ _ _ _ Hinv Heq). intros name' [=].
    + intros k item name'.
      apply (checked_after_Set _ _ _ _ _ _ Hinv Heq). intros _ _.
      exists kid. split; assumption.
  - rewrite Hno. exact Hinv.
Qed.

Lemma reachable_checked svc st : reachable svc st -> valid_entries_checked st.
Proof.
  induction 1 as [| st env authorization _ IH | st k _ IH].
  - intros k item name Hlook. cbn in Hlook. rewrite lookup_empty in Hlook. discriminate.
  - apply Authenticate_keeps_checked. exact IH.
  - intros k' item name Hlook. cbn in Hlook.
    destruct (decide (k = k')) as [<- | Hne].
    + rewrite lookup_delete_eq in Hlook. discriminate.
    + rewrite lookup_delete_ne in Hlook by exact Hne. apply (IH k' item name Hlook).
Qed.

(** C9: for a token whose kid is empty or contains "../", [getClusterURL]
    returns an error and does nothing else, so it reads no file; and in every
    state the service can be in, [Authenticate] fails for such a token without
    a token review and without reading a file. *)
Theorem bad_kid_refused svc env token kid :
  kid_of token = inr kid ->
  kid = "" \/ (exists i, occurs_at "../" kid i) ->
  (forall st, exists err,
      getClusterURL svc env token st = (inl err, st)
      /\ (err = err_kid_empty \/ err = err_kid_attack))
  /\ (forall st authorization ca,
        reachable svc st ->
        carries authorization token ca ->
        exists err,
          (Authenticate svc env authorization st).1 = inl err
          /\ reviews (trace (Authenticate svc env authorization st).2) = reviews (trace st)
          /\ file_reads (trace (Authenticate svc env authorization st).2)
             = file_reads (trace st)).
Proof.
  intros Hkid Hbad. split.
  - intros st. apply (getClusterURL_bad_kid _ _ _ _ _ Hkid Hbad).
  - intros st authorization ca Hreach Hcarries.
    pose proof (reachable_checked _ _ Hreach) as Hinv.
    rewrite (Authenticate_with_token _ _ _ _ _ Hcarries).
    unfold Auth.with_token, bind, lift.
    destruct (parseTime token) as [e | expirationTime];
      [exists e; repeat split; reflexivity |].
    destruct (After (Clock_Now env) expirationTime);
      [exists err_expired; repeat split; reflexivity |].
    unfold TokenCache_Get. cbv beta.
    set (s1 := mkState (TokenCache st) (trace st ++ [ev_cache_get token])).
    assert (Hr1 : reviews (trace s1) = reviews (trace st))
      by (subst s1; cbn [trace]; rewrite reviews_app; cbn; lia).
    assert (Hf1 : file_reads (trace s1) = file_reads (trace st))
      by (subst s1; cbn [trace]; rewrite file_reads_app; cbn; lia).
    destruct (getClusterURL_bad_kid svc env token kid s1 Hkid Hbad) as (err & Hurl & _).
    destruct (cache_Get (time_Now_get env) token (TokenCache st)) as [[[name valid] |] |] eqn:Hget.
    + destruct valid; cbn [Valid Name].
      * exfalso. destruct (cache_Get_found _ _ _ _ Hget) as (item & Hlook & Hobj).
        destruct (Hinv token item name Hlook Hobj) as (kid' & Hkid' & Hvalid).
        rewrite Hkid in Hkid'. injection Hkid' as <-.
        destruct (validateKid_bad kid Hbad) as [E | E]; rewrite E in Hvalid; discriminate.
      * exists err_token_invalid. repeat split; assumption.
    + rewrite Hurl. exists err. repeat split; assumption.
    + rewrite Hurl. exists err. repeat split; assumption.
Qed.

(** A token that was rejected is refused from the cache for as long as the
    entry lives, without another review. *)
Lemma rejected_then_refused svc env env' authorization token ca expirationTime kid url r st :
  carries authorization token ca ->
  parseTime token = inr expirationTime ->
  After (Clock_Now env) expirationTime = false ->
  After (Clock_Now env') expirationTime = false ->
  (forall d, cache_Get (time_Now_get env) token (TokenCache st) <> Some (obj_CacheData d)) ->
  kid_of token = inr kid ->
  validateKid kid = inr tt ->
  os_ReadFile env (KidMappingFileLocation svc +:+ kid) = Some url ->
  ReviewToken env url token ca = Some r ->
  Authenticated r = false ->
  0 < InvalidTokenExpiry svc ->
  - 2 ^ 63 <= time_Now_get env' < 2 ^ 63 ->
  - 2 ^ 63 <= time_Now_set env + InvalidTokenExpiry svc < 2 ^ 63 ->
  time_Now_get env' <= time_Now_set env + InvalidTokenExpiry svc ->
  let st' := (Authenticate svc env authorization st).2 in
  (Authenticate svc env' authorization st').1 = inl err_token_invalid
  /\ reviews (trace (Authenticate svc env' authorization st').2) = reviews (trace st').
Proof.
  intros Hcarries Htime Hlive Hlive' Hmiss Hkid Hvalid Hfile Hreview Hrej Hpos
         Hrange' Hrange Hwithin st'.
  pose proof (Authenticate_reviewed svc env authorization token ca expirationTime st
                Hcarries Htime Hlive kid url r Hmiss Hkid Hvalid Hfile Hreview) as Hrun.
  cbv zeta in Hrun. rewrite Hrej in Hrun.
  assert (Hget : cache_Get (time_Now_get env') token (TokenCache st')
                 = Some (obj_CacheData (mkCacheData "" false))).
  { subst st'. rewrite Hrun. cbn [snd TokenCache].
    apply cache_Get_Set_live; assumption. }
  rewrite (Authenticate_cached_invalid svc env' authorization token ca expirationTime st'
             Hcarries Htime Hlive' "" Hget).
  cbn [fst snd trace]. rewrite reviews_app. cbn. split; [reflexivity | lia].
Qed.

End Service.

(** *** The theorems at sample inputs *)

Lemma Authenticate_expired_witness :
  exists err,
    Authenticate Sample.DecodeString Sample.Unmarshal_auth Sample.Unmarshal_exp
                 Sample.Unmarshal_kid Sample.svc Sample.env
                 "KubernetesAuth k1~999~good|ca" initial
    = (inl err, initial)
    /\ (err = err_expired \/ err = err_expiry_not_set).
Proof.
  apply (Authenticate_expired Sample.DecodeString Sample.Unmarshal_auth
           Sample.Unmarshal_exp Sample.Unmarshal_kid Sample.svc Sample.env
           "KubernetesAuth k1~999~good|ca" "k1.999.good" "ca" 999 initial).
  - exists "k1~999~good|ca". split; reflexivity.
  - exists "k1", "999", "good", "999". repeat split; reflexivity.
  - split; vm_compute; [discriminate | reflexivity].
  - vm_compute. reflexivity.
Defined.



Lemma bad_kid_refused_witness :
  (exists err,
     getClusterURL Sample.DecodeString Sample.Unmarshal_kid Sample.svc Sample.env
                   "~~/x.2000.good" initial = (inl err, initial)
     /\ (err = err_kid_empty \/ err = err_kid_attack))
  /\ (exists err,
        (Authenticate Sample.DecodeString Sample.Unmarshal_auth Sample.Unmarshal_exp
                      Sample.Unmarshal_kid Sample.svc Sample.env
                      "KubernetesAuth ../x~2000~good|ca" initial).1 = inl err
        /\ reviews (trace (Authenticate Sample.DecodeString Sample.Unmarshal_auth
                             Sample.Unmarshal_exp Sample.Unmarshal_kid Sample.svc
                             Sample.env "KubernetesAuth ../x~2000~good|ca" initial).2)
           = reviews (trace initial)
        /\ file_reads (trace (Authenticate Sample.DecodeString Sample.Unmarshal_auth
                                Sample.Unmarshal_exp Sample.Unmarshal_kid Sample.svc
                                Sample.env "KubernetesAuth ../x~2000~good|ca" initial).2)
           = file_reads (trace initial)).
Proof.
  destruct (bad_kid_refused Sample.DecodeString Sample.Unmarshal_auth
              Sample.Unmarshal_exp Sample.Unmarshal_kid Sample.svc Sample.env
              "~~/x.2000.good" "../x") as [H1 H2].
  - reflexivity.
  - right. exists 0%nat, "", "x". split; reflexivity.
  - split.
    + apply H1.
    + apply (H2 initial "KubernetesAuth ../x~2000~good|ca" "ca").
      * apply reachable_initial.
      * exists "../x~2000~good|ca". split; reflexivity.
Defined.

End AuthSpec.

(** ** The names and values of a record *)

Module RecordsSpec.

Import Records.

Section Fields.

Context {V : Type}.

Lemma names_values_loop_run (fields : list (StructField V)) names values :
  names_values_loop fields names values =
  if forallb safe fields
  then done ((names ++ map db (List.filter tagged fields))%list,
             (values ++ map value (List.filter tagged fields))%list)
  else panics.
Proof.
  revert names values. induction fields as [| f fields IH]; intros names values.
  - cbn. rewrite !app_nil_r. reflexivity.
  - cbn [names_values_loop forallb List.filter].
    change (negb (String.eqb (db f) "")) with (tagged f). unfold safe at 1.
    destruct (tagged f); cbn [implb andb].
    + unfold Interface. destruct (exported f); cbn [andb]; [| reflexivity].
      rewrite IH. destruct (forallb safe fields); [| reflexivity].
      cbn [map]. rewrite <- !app_assoc. reflexivity.
    + apply IH.
Qed.

Lemma values_loop_run (fields : list (StructField V)) :
  values_loop fields =
  if forallb exported fields then done (map value fields) else panics.
Proof.
  induction fields as [| f fields IH]; [reflexivity |].
  cbn [values_loop forallb map]. unfold Interface.
  destruct (exported f); cbn [andb]; [| reflexivity].
  rewrite IH. destruct (forallb exported fields); reflexivity.
Qed.

Lemma filter_tagged_names (fields : list (StructField V)) :
  map db (List.filter tagged fields) =
  List.filter (fun n => negb (String.eqb n "")) (map db fields).
Proof.
  induction fields as [| f fields IH]; [reflexivity |].
  cbn [List.filter map]. change (negb (String.eqb (db f) "")) with (tagged f).
  destruct (tagged f); cbn [map]; rewrite IH; reflexivity.
Qed.

Lemma forallb_false_exists {A} (p : A -> bool) (l : list A) :
  forallb p l = false <-> exists x, In x l /\ p x = false.
Proof.
  induction l as [| a l IH]; cbn.
  - split; [discriminate | intros (x & [] & _)].
  - rewrite andb_false_iff, IH. split.
    + intros [Ha | (x & Hx & Hp)]; [exists a | exists x]; auto.
    + intros (x & [<- | Hx] & Hp); [left; exact Hp | right; exists x; auto].
Qed.

(** The names and values [NamesValuesFromRecord] returns go together: there
    are as many values as names, no name is empty, and the names are those
    [NamesFromRecord] returns without the empty ones, in the same order. *)
Theorem NamesValuesFromRecord_paired (x : Arg V) names values :
  NamesValuesFromRecord x = done (names, values) ->
  List.length names = List.length values
  /\ Forall (fun n => n <> "") names
  /\ exists all, NamesFromRecord x = done all
                 /\ names = List.filter (fun n => negb (String.eqb n "")) all.
Proof.
  destruct x as [fields |]; [| discriminate].
  unfold NamesValuesFromRecord. rewrite names_values_loop_run.
  destruct (forallb safe fields); [| discriminate].
  cbn [app]. intros [= <- <-]. split; [| split].
  - rewrite !length_map. reflexivity.
  - rewrite filter_tagged_names. apply List.Forall_forall. intros n Hn.
    apply List.filter_In in Hn as [_ Hn]. intros ->. discriminate.
  - exists (map db fields). split; [reflexivity | apply filter_tagged_names].
Qed.

(** When the three functions panic on a struct: [NamesFromRecord] never,
    [ValuesFromRecord] as soon as a field is not exported,
    [NamesValuesFromRecord] only when a field with a "db" tag is not
    exported. *)
Theorem record_panics (fields : list (StructField V)) :
  NamesFromRecord (a_struct fields) = done (map db fields)
  /\ (ValuesFromRecord (a_struct fields) = panics
      <-> exists f, In f fields /\ exported f = false)
  /\ (NamesValuesFromRecord (a_struct fields) = panics
      <-> exists f, In f fields /\ tagged f = true /\ exported f = false).
Proof.
  split; [reflexivity |]. split.
  - unfold ValuesFromRecord. rewrite values_loop_run.
    rewrite <- forallb_false_exists.
    destruct (forallb exported fields); split; congruence.
  - unfold NamesValuesFromRecord. rewrite names_values_loop_run.
    transitivity (forallb safe fields = false).
    + destruct (forallb safe fields); split; congruence.
    + rewrite forallb_false_exists. split.
      * intros (f & Hin & Hf). exists f. split; [exact Hin |].
        unfold safe in Hf. destruct (tagged f), (exported f); cbn in Hf;
          try discriminate. split; reflexivity.
      * intros (f & Hin & Ht & He). exists f. split; [exact Hin |].
        unfold safe. rewrite Ht, He. reflexivity.
Qed.

(** On a struct whose fields are all exported and all carry a "db" tag the
    three functions agree: [NamesValuesFromRecord] returns the names of
    [NamesFromRecord] and the values of [ValuesFromRecord]. *)
Theorem record_functions_agree (fields : list (StructField V)) :
  (forall f, In f fields -> tagged f = true /\ exported f = true) ->
  NamesFromRecord (a_struct fields) = done (map db fields)
  /\ ValuesFromRecord (a_struct fields) = done (map value fields)
  /\ NamesValuesFromRecord (a_struct fields) = done (map db fields, map value fields).
Proof.
  intros Hall. split; [reflexivity |].
  assert (Hexp : forallb exported fields = true).
  { apply forallb_forall. intros f Hf. apply (Hall f Hf). }
  assert (Hsafe : forallb safe fields = true).
  { apply forallb_forall. intros f Hf. destruct (Hall f Hf) as [_ He].
    unfold safe. rewrite He. destruct (tagged f); reflexivity. }
  assert (Hfilter : List.filter tagged fields = fields).
  { clear Hexp Hsafe. induction fields as [| f fields IH]; [reflexivity |].
    cbn [List.filter]. destruct (Hall f (or_introl eq_refl)) as [-> _].
    rewrite IH; [reflexivity |]. intros g Hg. apply Hall. right. exact Hg. }
  split.
  - unfold ValuesFromRecord. rewrite values_loop_run, Hexp. reflexivity.
  - unfold NamesValuesFromRecord. rewrite names_values_loop_run, Hsafe, Hfilter.
    reflexivity.
Qed.

End Fields.

Lemma NamesValuesFromRecord_paired_witness :
  List.length ["width"; "height"] = List.length [10; 5]
  /\ Forall (fun n => n <> "") ["width"; "height"]
  /\ exists all, NamesFromRecord rectangle_with_cache = done all
                 /\ ["width"; "height"] = List.filter (fun n => negb (String.eqb n "")) all.
Proof.
  apply (NamesValuesFromRecord_paired rectangle_with_cache ["width"; "height"] [10; 5]).
  reflexivity.
Defined.

Lemma record_functions_agree_witness :
  NamesFromRecord rectangle = done ["width"; "height"]
  /\ ValuesFromRecord rectangle = done [10; 5]
  /\ NamesValuesFromRecord rectangle = done (["width"; "height"], [10; 5]).
Proof.
  apply (record_functions_agree
           [mkStructField "width" true 10; mkStructField "height" true 5]).
  intros f [<- | [<- | []]]; split; reflexivity.
Defined.

End RecordsSpec.

(** ** More on the schema of a table *)

Module SchemaExtra.

Import GoStrings GoStringsFacts Schema SchemaSpec SchemaFiles Invariants.

Local Arguments String.append !_ _ / : simpl nomatch.

Lemma any_byte_append p (a b : string) :
  any_byte p (a +:+ b) = any_byte p a || any_byte p b.
Proof.
  induction a as [| c a IH]; simpl; [reflexivity |].
  rewrite IH. apply orb_assoc.
Qed.

Lemma all_bytes_append p (a b : string) :
  all_bytes p (a +:+ b) = all_bytes p a && all_bytes p b.
Proof.
  induction a as [| c a IH]; simpl; [reflexivity |].
  rewrite IH. apply andb_assoc.
Qed.

Lemma map_bytes_append f (a b : string) :
  map_bytes f (a +:+ b) = map_bytes f a +:+ map_bytes f b.
Proof. induction a as [| c a IH]; simpl; [reflexivity | rewrite IH; reflexivity]. Qed.

Lemma lower_byte_not_upper (c : ascii) : is_upper_byte (lower_byte c) = false.
Proof. destruct c as [[] [] [] [] [] [] [] []]; reflexivity. Qed.

Lemma lower_byte_twice (c : ascii) : lower_byte (lower_byte c) = lower_byte c.
Proof. destruct c as [[] [] [] [] [] [] [] []]; reflexivity. Qed.

Lemma lower_byte_ascii (c : ascii) : is_ascii_byte (lower_byte c) = is_ascii_byte c.
Proof. destruct c as [[] [] [] [] [] [] [] []]; reflexivity. Qed.

Lemma lowered_no_upper (s : string) :
  any_byte is_upper_byte (map_bytes lower_byte s) = false.
Proof.
  induction s as [| c s IH]; simpl; [reflexivity |].
  rewrite lower_byte_not_upper, IH. reflexivity.
Qed.

Lemma lowered_twice (s : string) :
  map_bytes lower_byte (map_bytes lower_byte s) = map_bytes lower_byte s.
Proof.
  induction s as [| c s IH]; simpl; [reflexivity |].
  rewrite lower_byte_twice, IH. reflexivity.
Qed.

Lemma lowered_all_ascii (s : string) :
  all_bytes is_ascii_byte (map_bytes lower_byte s) = all_bytes is_ascii_byte s.
Proof.
  induction s as [| c s IH]; simpl; [reflexivity |].
  rewrite lower_byte_ascii, IH. reflexivity.
Qed.

Lemma occurs_any_byte p (sub s : string) (i : nat) :
  occurs_at sub s i -> any_byte p sub = true -> any_byte p s = true.
Proof.
  intros (pre & post & -> & _) H.
  rewrite !any_byte_append, H. rewrite orb_true_r. reflexivity.
Qed.

Lemma occurs_at_prefix (a b s : string) (i : nat) :
  occurs_at (a +:+ b) s i -> occurs_at a s i.
Proof.
  intros (pre & post & -> & Hlen). exists pre, (b +:+ post).
  split; [rewrite append_assoc; reflexivity | exact Hlen].
Qed.

Lemma occurs_at_lowered (sub s : string) (i : nat) :
  occurs_at sub s i ->
  occurs_at (map_bytes lower_byte sub) (map_bytes lower_byte s) i.
Proof.
  intros (pre & post & -> & Hlen).
  exists (map_bytes lower_byte pre), (map_bytes lower_byte post).
  split; [rewrite !map_bytes_append; reflexivity |].
  rewrite length_map_bytes. exact Hlen.
Qed.

(** Two ways of cutting the same string: the shorter head is a head of the
    longer one. *)
Lemma append_split (a x b y : string) :
  a +:+ x = b +:+ y -> (String.length a <= String.length b)%nat ->
  exists m, b = a +:+ m /\ x = m +:+ y.
Proof.
  revert b. induction a as [| c a IH]; intros b Heq Hlen.
  - exists b. split; [reflexivity | exact Heq].
  - destruct b as [| d b]; simpl in Hlen; [lia |].
    simpl in Heq. injection Heq as -> Heq.
    destruct (IH b Heq) as (m & -> & ->); [lia |].
    exists m. split; reflexivity.
Qed.

Lemma substring_head (b c : string) :
  String.substring 0 (String.length b) (b +:+ c) = b.
Proof. induction b as [| x b IH]; simpl; [destruct c; reflexivity | rewrite IH; reflexivity]. Qed.

Lemma substring_middle (a b c : string) :
  String.substring (String.length a) (String.length b) (a +:+ b +:+ c) = b.
Proof. induction a as [| x a IH]; simpl; [apply substring_head | exact IH]. Qed.

Lemma substring_map f (n m : nat) (s : string) :
  String.substring n m (map_bytes f s) = map_bytes f (String.substring n m s).
Proof.
  revert n m. induction s as [| c s IH]; intros n m.
  - destruct n, m; reflexivity.
  - destruct n as [| n]; simpl.
    + destruct m as [| m]; simpl; [reflexivity | rewrite IH; reflexivity].
    + apply IH.
Qed.

Lemma slice_map f (s : string) (a b : Z) :
  slice (map_bytes f s) a b = option_map (map_bytes f) (slice s a b).
Proof.
  unfold slice, len. rewrite length_map_bytes.
  destruct (_ && _); [| reflexivity]. cbn. rewrite substring_map. reflexivity.
Qed.

(** The table is reported as not found exactly when the search for the
    header fails. *)
Lemma not_found_iff f (s tableName : string) :
  schemaFromString f s tableName = error could_not_find_table
  <-> Index (ToLower f s) (header tableName) = -1.
Proof.
  unfold schemaFromString. fold (header tableName).
  destruct (Index (ToLower f s) (header tableName) =? -1) eqn:E.
  - apply Z.eqb_eq in E. split; [intros _; exact E | reflexivity].
  - apply Z.eqb_neq in E. split; [| intros H; contradiction].
    intros H. exfalso.
    destruct (slice_from _ _); [| discriminate].
    destruct (Index _ "(" =? -1); [discriminate |].
    destruct (slice_from _ _); [| discriminate].
    destruct (Index _ ");" =? -1); [discriminate |].
    destruct (slice _ _ _); discriminate.
Qed.

Lemma Index_none_iff (s sub : string) :
  Index s sub = -1 <-> forall i, ~ occurs_at sub s i.
Proof.
  split.
  - intros H i. apply (Index_absent _ _ H i). lia.
  - intros H. destruct (Index_cases s sub) as [E | [i E]]; [exact E |].
    exfalso. apply (H i). apply (Index_found _ _ _ E).
Qed.

(** The name of the table is not lower-cased: on ASCII input a table name
    with an upper-case letter is never found, whatever the input holds. *)
Theorem upper_case_table_not_found f (s tableName : string) :
  all_bytes is_ascii_byte s = true ->
  any_byte is_upper_byte tableName = true ->
  schemaFromString f s tableName = error could_not_find_table.
Proof.
  intros Hascii Hupper. apply not_found_iff. apply Index_none_iff.
  intros i Hocc. rewrite (ToLower_ascii _ _ Hascii) in Hocc.
  assert (Hh : any_byte is_upper_byte (header tableName) = true).
  { unfold header. rewrite any_byte_append, Hupper. apply orb_true_r. }
  pose proof (occurs_any_byte _ _ _ _ Hocc Hh) as Hs.
  rewrite lowered_no_upper in Hs. discriminate.
Qed.

Lemma upper_case_table_not_found_witness :
  schemaFromString ascii_only example_sql "Circle" = error could_not_find_table.
Proof.
  apply (upper_case_table_not_found ascii_only example_sql "Circle"); reflexivity.
Defined.

(** The header is searched for as a prefix: whenever a table is found, so
    is every table name that its name begins with. (Asking for "run" finds
    "create table runs".) *)
Theorem table_name_prefix_found f (s tableName more : string) :
  schemaFromString f s (tableName +:+ more) <> error could_not_find_table ->
  schemaFromString f s tableName <> error could_not_find_table.
Proof.
  intros Hlong Hshort. apply Hlong. apply not_found_iff. apply Index_none_iff.
  apply not_found_iff in Hshort. intros i Hocc.
  apply (proj1 (Index_none_iff _ _) Hshort i).
  apply (occurs_at_prefix _ more). unfold header in *.
  rewrite append_assoc. exact Hocc.
Qed.

Lemma table_name_prefix_found_witness :
  schemaFromString ascii_only example_sql "circle" = ok example_circle
  /\ schemaFromString ascii_only example_sql "circ" <> error could_not_find_table.
Proof.
  split; [vm_compute; reflexivity |].
  apply (table_name_prefix_found ascii_only example_sql "circ" "le").
  vm_compute. discriminate.
Defined.

(** What is returned for ASCII input is in parentheses, stands in the input
    right before a ";", and holds no ");" itself. *)
Theorem schema_parenthesised f (s tableName schema : string) :
  all_bytes is_ascii_byte s = true ->
  schemaFromString f s tableName = ok schema ->
  exists pre body post,
    s = pre +:+ schema +:+ ";" +:+ post
    /\ schema = "(" +:+ body +:+ ")"
    /\ forall i, ~ occurs_at ");" schema i.
Proof.
  intros Hascii Hok.
  destruct (schemaFromString_cases f s tableName Hascii)
    as [[Hr _] | [[Hr _] | [[Hr _] | (schema' & Hr & Hat)]]];
    try (rewrite Hr in Hok; discriminate).
  rewrite Hr in Hok. injection Hok as ->.
  destruct Hat as (i & p & q & _ & Fp & Fq & Hsub & Hopen & Hclose).
  destruct Hopen as (pre1 & post1 & Hs1 & Hp).
  destruct Hclose as (pre2 & post2 & Hs2 & Hq).
  assert (Hpq : (p <= q)%nat) by (destruct Fq as (H & _); exact H).
  assert (Heq : pre1 +:+ ("(" +:+ post1) = pre2 +:+ (");" +:+ post2)) by congruence.
  destruct (append_split _ _ _ _ Heq) as (m & Hpre2 & Hm); [lia |].
  destruct m as [| c body]; [simpl in Hm; discriminate |].
  simpl in Hm. injection Hm as <- Hpost1.
  exists pre1, body, post2.
  assert (Hs : s = pre1 +:+ ("(" +:+ body +:+ ")") +:+ ";" +:+ post2).
  { rewrite Hs1, Hpost1. simpl. rewrite !append_assoc. reflexivity. }
  assert (Hschema : schema = "(" +:+ body +:+ ")").
  { rewrite Hsub.
    replace (q + 1 - p)%nat with (String.length ("(" +:+ body +:+ ")")).
    - rewrite <- Hp. rewrite Hs at 1. apply substring_middle.
    - rewrite <- Hq, <- Hp, Hpre2. simpl. rewrite !length_append. simpl. lia. }
  split; [rewrite Hschema; exact Hs |]. split; [exact Hschema |].
  intros k (a & b & Hab & Hk).
  destruct Fq as (_ & _ & Hfirst).
  apply (Hfirst (p + k)%nat); [lia | |].
  - assert (String.length schema = S (S (String.length body)))
      by (rewrite Hschema; simpl; rewrite length_append; simpl; lia).
    assert (k + 2 <= String.length schema)%nat
      by (rewrite Hab, !length_append; simpl; lia).
    rewrite <- Hq, Hpre2, length_append. simpl. lia.
  - unfold lowered. rewrite (ToLower_ascii _ _ Hascii).
    change ");" with (map_bytes lower_byte ");"). apply occurs_at_lowered.
    exists (pre1 +:+ a), (b +:+ ";" +:+ post2). split.
    + rewrite Hs, <- Hschema, Hab. rewrite !append_assoc. reflexivity.
    + rewrite length_append. lia.
Qed.

Lemma schema_parenthesised_witness :
  exists pre body post,
    example_sql = pre +:+ example_circle +:+ ";" +:+ post
    /\ example_circle = "(" +:+ body +:+ ")"
    /\ forall i, ~ occurs_at ");" example_circle i.
Proof.
  apply (schema_parenthesised ascii_only example_sql "circle" example_circle);
    vm_compute; reflexivity.
Defined.

(** The search does not look at the case of the input: two ASCII inputs
    that differ only in case give the same error, or schemas that differ
    only in case. *)
Theorem schema_case_insensitive f (s s' tableName : string) :
  all_bytes is_ascii_byte s = true ->
  all_bytes is_ascii_byte s' = true ->
  map_bytes lower_byte s = map_bytes lower_byte s' ->
  lower_schema (schemaFromString f s tableName)
  = lower_schema (schemaFromString f s' tableName).
Proof.
  intros Ha Ha' Heq. unfold schemaFromString.
  rewrite (ToLower_ascii _ _ Ha), (ToLower_ascii _ _ Ha'), <- Heq.
  destruct (Index _ _ =? -1); [reflexivity |].
  destruct (slice_from _ _) as [sl1 |]; [| reflexivity].
  destruct (Index sl1 "(" =? -1); [reflexivity |].
  destruct (slice_from sl1 _) as [sl2 |]; [| reflexivity].
  destruct (Index sl2 ");" =? -1); [reflexivity |].
  match goal with
  | |- context [slice s ?a ?b] =>
      pose proof (slice_map lower_byte s a b) as H1;
      pose proof (slice_map lower_byte s' a b) as H2
  end.
  rewrite <- Heq in H2. rewrite H1 in H2.
  destruct (slice s _ _), (slice s' _ _); cbn in *; congruence.
Qed.

Lemma schema_case_insensitive_witness :
  lower_schema (schemaFromString ascii_only "CREATE TABLE T (A INT);" "t")
  = lower_schema (schemaFromString ascii_only "create table t (a int);" "t").
Proof.
  apply (schema_case_insensitive ascii_only); reflexivity.
Defined.

Section Init.

Variable f : string -> string.
Variable os_ReadFile : string -> option string.

(** When [init] runs over ASCII files it panics only for a file that
    cannot be read or whose table is not found in full; a slice is never out
    of range, and when it completes the two variables hold the schemas of
    "runs" and "pulsar", each in parentheses. *)
Theorem init_completes runs_sql pulsar_sql :
  os_ReadFile "./sql/schema/runs.sql" = Some runs_sql ->
  os_ReadFile "./sql/schema/pulsar.sql" = Some pulsar_sql ->
  all_bytes is_ascii_byte runs_sql = true ->
  all_bytes is_ascii_byte pulsar_sql = true ->
  (init f os_ReadFile = None
   <-> error_condition (lowered f runs_sql) "runs"
       \/ error_condition (lowered f pulsar_sql) "pulsar")
  /\ (forall g, init f os_ReadFile = Some g ->
        schemaFromString f runs_sql "runs" = ok (RunsSchema g)
        /\ schemaFromString f pulsar_sql "pulsar" = ok (PulsarSchema g)).
Proof.
  intros Hr Hp Har Hap. unfold init, schemaFromFile. rewrite Hr, Hp.
  pose proof (schemaFromString_cases f runs_sql "runs" Har) as Cr.
  pose proof (schemaFromString_cases f pulsar_sql "pulsar" Hap) as Cp.
  assert (Er : forall e, schemaFromString f runs_sql "runs" = error e ->
                         error_condition (lowered f runs_sql) "runs").
  { intros e He.
    destruct Cr as [[_ H] | [[_ H] | [[_ H] | (x & Hx & _)]]];
      [left | right; left | right; right | rewrite Hx in He; discriminate]; exact H. }
  assert (Ep : forall e, schemaFromString f pulsar_sql "pulsar" = error e ->
                         error_condition (lowered f pulsar_sql) "pulsar").
  { intros e He.
    destruct Cp as [[_ H] | [[_ H] | [[_ H] | (x & Hx & _)]]];
      [left | right; left | right; right | rewrite Hx in He; discriminate]; exact H. }
  assert (Or : forall x, schemaFromString f runs_sql "runs" = ok x ->
                         ~ error_condition (lowered f runs_sql) "runs").
  { intros x Hx Hc.
    destruct Cr as [[H _] | [[H _] | [[H _] | (y & _ & Hat)]]];
      try (rewrite H in Hx; discriminate).
    destruct Hat as (i & p & q & Fi & Fp & Fq & _).
    destruct Hc as [Habs | [(i' & Fi' & Habs) | (i' & p' & Fi' & Fp' & Habs)]].
    - exact (first_not_absent _ _ _ _ Fi Habs).
    - rewrite (first_from_unique _ _ _ _ _ Fi' Fi) in Habs.
      exact (first_not_absent _ _ _ _ Fp Habs).
    - rewrite (first_from_unique _ _ _ _ _ Fi' Fi) in Fp'.
      rewrite (first_from_unique _ _ _ _ _ Fp' Fp) in Habs.
      exact (first_not_absent _ _ _ _ Fq Habs). }
  assert (Op : forall x, schemaFromString f pulsar_sql "pulsar" = ok x ->
                         ~ error_condition (lowered f pulsar_sql) "pulsar").
  { intros x Hx Hc.
    destruct Cp as [[H _] | [[H _] | [[H _] | (y & _ & Hat)]]];
      try (rewrite H in Hx; discriminate).
    destruct Hat as (i & p & q & Fi & Fp & Fq & _).
    destruct Hc as [Habs | [(i' & Fi' & Habs) | (i' & p' & Fi' & Fp' & Habs)]].
    - exact (first_not_absent _ _ _ _ Fi Habs).
    - rewrite (first_from_unique _ _ _ _ _ Fi' Fi) in Habs.
      exact (first_not_absent _ _ _ _ Fp Habs).
    - rewrite (first_from_unique _ _ _ _ _ Fi' Fi) in Fp'.
      rewrite (first_from_unique _ _ _ _ _ Fp' Fp) in Habs.
      exact (first_not_absent _ _ _ _ Fq Habs). }
  assert (Nr : schemaFromString f runs_sql "runs" <> panic).
  { destruct Cr as [[H _] | [[H _] | [[H _] | (y & H & _)]]]; rewrite H; discriminate. }
  assert (Np : schemaFromString f pulsar_sql "pulsar" <> panic).
  { destruct Cp as [[H _] | [[H _] | [[H _] | (y & H & _)]]]; rewrite H; discriminate. }
  destruct (schemaFromString f runs_sql "runs") as [r | er |] eqn:Rr;
    [| | contradiction].
  - destruct (schemaFromString f pulsar_sql "pulsar") as [pl | ep |] eqn:Rp;
      [| | contradiction].
    + split.
      * split; [discriminate |].
        intros [H | H]; [exact (False_ind _ (Or r eq_refl H))
                        | exact (False_ind _ (Op pl eq_refl H))].
      * intros g [= <-]. split; reflexivity.
    + split; [| discriminate].
      split; [intros _; right; apply (Ep ep eq_refl) | reflexivity].
  - split; [| discriminate].
    split; [intros _; left; apply (Er er eq_refl) | reflexivity].
Qed.

End Init.

Lemma init_completes_witness :
  (init ascii_only sample_files = None
   <-> error_condition
         (lowered ascii_only "CREATE TABLE runs (run_id uuid PRIMARY KEY, job_id text);")
         "runs"
       \/ error_condition
            (lowered ascii_only "create table pulsar (topic text, ledger bigint);")
            "pulsar")
  /\ (forall g, init ascii_only sample_files = Some g ->
        schemaFromString ascii_only
          "CREATE TABLE runs (run_id uuid PRIMARY KEY, job_id text);" "runs"
        = ok (RunsSchema g)
        /\ schemaFromString ascii_only
             "create table pulsar (topic text, ledger bigint);" "pulsar"
           = ok (PulsarSchema g)).
Proof.
  apply (init_completes ascii_only sample_files); reflexivity.
Defined.

End SchemaExtra.

(** ** More on the LRU cache and the jobset mapper *)

Module JobsetMapperExtra.

Import Lru LruFacts JobsetMapper JobsetMapperSpec Invariants.

(** *** Keys of the cache *)

Lemma lookup_None_keys k l : lookup k l = None <-> ~ In k (map fst l).
Proof.
  induction l as [| [k' v] l IH]; cbn.
  - split; [intros _ [] | reflexivity].
  - destruct (String.eqb k' k) eqn:E.
    + apply String.eqb_eq in E. subst k'. split; [discriminate | intros H; exfalso; auto].
    + apply String.eqb_neq in E. rewrite IH. split; [intros H [? | ?]; auto | auto].
Qed.

Lemma keys_remove k k' l : In k' (map fst (remove k l)) <-> In k' (map fst l) /\ k' <> k.
Proof.
  induction l as [| [k0 v] l IH]; cbn.
  - split; [intros [] | intros [[] _]].
  - destruct (String.eqb k0 k) eqn:E.
    + apply String.eqb_eq in E. subst k0. rewrite IH. split.
      * intros [H Hne]. auto.
      * intros [[-> | H] Hne]; [contradiction | auto].
    + apply String.eqb_neq in E. cbn. rewrite IH. split.
      * intros [-> | [H Hne]]; auto.
      * intros [[-> | H] Hne]; auto.
Qed.

Lemma NoDup_remove k l : List.NoDup (map fst l) -> List.NoDup (map fst (remove k l)).
Proof.
  induction l as [| [k0 v] l IH]; cbn; intros H; [constructor |].
  apply List.NoDup_cons_iff in H as [Hnot Hl].
  destruct (String.eqb k0 k); [apply IH; exact Hl |].
  cbn. apply List.NoDup_cons_iff. split; [| apply IH; exact Hl].
  intros Hin. apply keys_remove in Hin as [Hin _]. contradiction.
Qed.

Lemma length_remove_present k v l :
  lookup k l = Some v -> (S (List.length (remove k l)) <= List.length l)%nat.
Proof.
  induction l as [| [k0 v0] l IH]; cbn; [discriminate |].
  destruct (String.eqb k0 k).
  - intros _. clear IH. induction l as [| [k1 v1] l IH]; cbn; [lia |].
    destruct (String.eqb k1 k); cbn; lia.
  - intros H. cbn. apply IH in H. lia.
Qed.

Lemma map_removelast {A B} (f : A -> B) l : map f (removelast l) = removelast (map f l).
Proof.
  induction l as [| a [| b l] IH]; [reflexivity | reflexivity |].
  change (removelast (a :: b :: l)) with (a :: removelast (b :: l)).
  cbn [map]. rewrite IH. reflexivity.
Qed.

Lemma In_removelast {A} (x : A) l : In x (removelast l) -> In x l.
Proof.
  induction l as [| a [| b l] IH]; [intros [] | intros [] |].
  change (removelast (a :: b :: l)) with (a :: removelast (b :: l)).
  intros [-> | H]; [left; reflexivity | right; apply IH; exact H].
Qed.

Lemma NoDup_removelast {A} (l : list A) : List.NoDup l -> List.NoDup (removelast l).
Proof.
  induction l as [| a [| b l] IH]; intros H; [constructor | constructor |].
  change (removelast (a :: b :: l)) with (a :: removelast (b :: l)).
  apply List.NoDup_cons_iff in H as [Hnot Hl]. apply List.NoDup_cons_iff. split.
  - intros Hin. apply Hnot. apply In_removelast. exact Hin.
  - apply IH. exact Hl.
Qed.

Lemma length_removelast {A} (l : list A) :
  List.length (removelast l) = (List.length l - 1)%nat.
Proof.
  induction l as [| a [| b l] IH]; [reflexivity | reflexivity |].
  change (removelast (a :: b :: l)) with (a :: removelast (b :: l)).
  cbn [List.length] in *. lia.
Qed.

(** In a list without a key twice, dropping the last entry loses the last
    key and nothing else. *)
Lemma lookup_removelast k l :
  List.NoDup (map fst l) ->
  lookup k (removelast l) = if decide (last (map fst l) = Some k) then None else lookup k l.
Proof.
  induction l as [| [k0 v0] [| [k1 v1] l] IH]; intros Hnd.
  - cbn. destruct (decide _); reflexivity.
  - cbn. destruct (decide (Some k0 = Some k)) as [[= ->] | Hne].
    + reflexivity.
    + destruct (String.eqb k0 k) eqn:E; [| reflexivity].
      apply String.eqb_eq in E. subst k0. contradiction.
  - change (removelast ((k0, v0) :: (k1, v1) :: l))
      with ((k0, v0) :: removelast ((k1, v1) :: l)).
    change (last (map fst ((k0, v0) :: (k1, v1) :: l)))
      with (last (map fst ((k1, v1) :: l))).
    apply List.NoDup_cons_iff in Hnd as [Hnot Hnd].
    cbn [lookup]. destruct (String.eqb k0 k) eqn:E.
    + apply String.eqb_eq in E. subst k0.
      destruct (decide _) as [Hlast | _]; [| reflexivity].
      exfalso. apply Hnot. apply last_Some_elem_of in Hlast.
      apply list_elem_of_In. exact Hlast.
    + apply IH. exact Hnd.
Qed.

(** *** The cache stays as the library keeps it *)

Lemma front_ok k v c :
  lru_ok c -> is_Some (lookup k (evictList c)) ->
  lru_ok (mkCache (size c) ((k, v) :: remove k (evictList c))).
Proof.
  intros (Hsize & Hlen & Hnd) [v0 Hv]. unfold lru_ok, keys. cbn [size evictList].
  split; [exact Hsize |]. split.
  - pose proof (length_remove_present _ _ _ Hv). cbn [List.length]. lia.
  - cbn [map fst]. apply List.NoDup_cons_iff. split.
    + intros Hin. apply keys_remove in Hin as [_ Hne]. contradiction.
    + apply NoDup_remove. exact Hnd.
Qed.

Lemma Lru_Get_ok k c : lru_ok c -> lru_ok (Lru.Get k c).2.
Proof.
  intros Hok. unfold Lru.Get.
  destruct (lookup k (evictList c)) as [v |] eqn:E; cbn [snd]; [| exact Hok].
  apply front_ok; [exact Hok | rewrite E; eexists; reflexivity].
Qed.

Lemma Lru_Add_ok k v c : lru_ok c -> lru_ok (Lru.Add k v c).
Proof.
  intros Hok. unfold Lru.Add.
  destruct (lookup k (evictList c)) as [v0 |] eqn:E.
  - apply front_ok; [exact Hok | rewrite E; eexists; reflexivity].
  - destruct Hok as (Hsize & Hlen & Hnd). unfold lru_ok, keys in *. cbn [size evictList].
    assert (Hnd' : List.NoDup (map fst ((k, v) :: evictList c))).
    { cbn [map fst]. apply List.NoDup_cons_iff. split; [| exact Hnd].
      apply lookup_None_keys. exact E. }
    split; [exact Hsize |].
    destruct (size c <? Z.of_nat (List.length ((k, v) :: evictList c))) eqn:Hfull.
    + split.
      * rewrite length_removelast. cbn [List.length]. lia.
      * rewrite map_removelast. apply NoDup_removelast. exact Hnd'.
    + apply Z.ltb_ge in Hfull. split; [exact Hfull | exact Hnd'].
Qed.

Lemma New_ok n c : Lru.New n = Some c -> lru_ok c.
Proof.
  intros H. pose proof (New_size _ _ H) as Hsize.
  unfold Lru.New in H. destruct (n <=? 0); [discriminate |]. injection H as <-.
  unfold lru_ok, keys. cbn in *. split; [exact Hsize |]. split; [lia | constructor].
Qed.

Section Mapper.

Context {Db DbErr : Type}.
Variable GetOrCreateJobsetId : Db -> string -> string -> (DbErr + Z) * Db.
Variable LoadJobsets : Db -> Z -> DbErr + list JobsetRow.

Local Abbreviation Get := (JobsetMapper.Get GetOrCreateJobsetId).
Local Abbreviation step := (JobsetMapper.step GetOrCreateJobsetId).
Local Abbreviation sched := (JobsetMapper.sched GetOrCreateJobsetId).
Local Abbreviation run := (JobsetMapper.run GetOrCreateJobsetId).

(** Whatever [Get] does, the cache keeps its size, holds no more entries
    than its size and holds no key twice. *)
Theorem Get_keeps_cache (j : Mapper Db) (queue jobset : string) :
  lru_ok (jobsetIds j) ->
  lru_ok (jobsetIds (Get queue jobset j).2)
  /\ Lru.size (jobsetIds (Get queue jobset j).2) = Lru.size (jobsetIds j).
Proof.
  intros Hok. split; [| apply Get_size].
  unfold JobsetMapper.Get.
  pose proof (Lru_Get_ok (key queue jobset) _ Hok) as Hget.
  destruct (Lru.Get (key queue jobset) (jobsetIds j)) as [[id |] c]; cbn [snd] in *;
    [exact Hget |].
  destruct (GetOrCreateJobsetId (eventDb j) queue jobset) as [[e | id] db];
    cbn [snd jobsetIds]; [exact Hget | apply Lru_Add_ok; exact Hget].
Qed.

(** A miss on a full cache puts the new id in and drops the entry that was
    used least recently; every other key keeps its id. *)
Theorem Get_evicts_oldest (j : Mapper Db) (queue jobset : string) (id : Z) (db : Db) :
  lru_ok (jobsetIds j) ->
  Z.of_nat (List.length (Lru.evictList (jobsetIds j))) = Lru.size (jobsetIds j) ->
  Lru.lookup (key queue jobset) (Lru.evictList (jobsetIds j)) = None ->
  GetOrCreateJobsetId (eventDb j) queue jobset = (inr id, db) ->
  let after := jobsetIds (Get queue jobset j).2 in
  Lru.lookup (key queue jobset) (Lru.evictList after) = Some id
  /\ forall k, k <> key queue jobset ->
       Lru.lookup k (Lru.evictList after) =
       if decide (oldest (jobsetIds j) = Some k) then None
       else Lru.lookup k (Lru.evictList (jobsetIds j)).
Proof.
  intros Hok Hfull Hmiss Hdb after. subst after.
  rewrite (Get_miss_filled _ _ _ _ _ _ Hmiss Hdb). cbn [snd jobsetIds].
  destruct Hok as (Hsize & Hlen & Hnd).
  split; [apply Add_lookup; exact Hsize |].
  intros k Hne. unfold Lru.Add. rewrite Hmiss. cbn [Lru.evictList].
  replace (Lru.size (jobsetIds j) <?
           Z.of_nat (List.length ((key queue jobset, id) :: Lru.evictList (jobsetIds j))))
    with true by (symmetry; apply Z.ltb_lt; cbn [List.length]; lia).
  destruct (Lru.evictList (jobsetIds j)) as [| e l] eqn:El.
  { cbn in Hfull. lia. }
  rewrite removelast_keeps_front. cbn [lookup].
  replace (String.eqb (key queue jobset) k) with false
    by (symmetry; apply String.eqb_neq; congruence).
  unfold oldest, keys. rewrite El.
  apply lookup_removelast. unfold keys in Hnd. rewrite El in Hnd. exact Hnd.
Qed.

(** Two pairs with the same key share a cache entry: a pair whose jobset is
    "a:b" is given, without a call to the database, the id cached for the
    pair whose queue ends in ":a" and whose jobset is "b". *)
Theorem Get_shares_colliding_keys (j : Mapper Db) (queue a b : string) (id : Z) :
  Lru.lookup (key (queue +:+ ":" +:+ a) b) (Lru.evictList (jobsetIds j)) = Some id ->
  (Get queue (a +:+ ":" +:+ b) j).1 = inr id
  /\ fallbacks (Get queue (a +:+ ":" +:+ b) j).2 = fallbacks j.
Proof.
  intros Hhit.
  assert (Hkey : key (queue +:+ ":" +:+ a) b = key queue (a +:+ ":" +:+ b)).
  { unfold key. rewrite !GoStringsFacts.append_assoc. reflexivity. }
  rewrite Hkey in Hhit. rewrite (Get_hit_cached _ _ _ _ _ Hhit). split; reflexivity.
Qed.

(** The bound on the database calls under any schedule: a step never adds
    more calls than it takes callers past the point of calling. *)
Lemma step_calls t j :
  (List.length (fallbacks (step t j).2) + may_call_db (step t j).1
   <= List.length (fallbacks j) + may_call_db t)%nat.
Proof.
  unfold JobsetMapper.step, may_call_db. destruct t as [q js p]. cbn [pc c_queue c_jobset].
  destruct p as [| | id | r].
  - destruct (Lru.Get _ _) as [[id |] c]; cbn [pc fst snd fallbacks]; lia.
  - destruct (GetOrCreateJobsetId _ _ _) as [[e | id] db]; cbn [pc fst snd fallbacks];
      rewrite List.length_app; cbn [List.length]; lia.
  - cbn [pc fst snd fallbacks]. lia.
  - cbn [pc fst snd fallbacks]. lia.
Qed.

Lemma list_sum_insert (l : list nat) (i x y : nat) :
  l !! i = Some x -> (list_sum (<[i := y]> l) + x = list_sum l + y)%nat.
Proof.
  revert i. induction l as [| a l IH]; intros [| i] H; simpl in *; try discriminate.
  - injection H as ->. lia.
  - specialize (IH i H). lia.
Qed.

Lemma sched_calls i (s : System Db DbErr) :
  (List.length (fallbacks (shared (sched i s)))
   + list_sum (map may_call_db (callers (sched i s)))
   <= List.length (fallbacks (shared s)) + list_sum (map may_call_db (callers s)))%nat
  /\ mutex_locked (shared (sched i s)) = mutex_locked (shared s)
  /\ List.length (callers (sched i s)) = List.length (callers s).
Proof.
  unfold JobsetMapper.sched. destruct (callers s !! i) as [t |] eqn:Ht.
  - pose proof (step_calls t (shared s)) as Hstep.
    pose proof (step_mutex GetOrCreateJobsetId t (shared s)) as Hm.
    destruct (step t (shared s)) as [t' j']. cbn [fst snd shared callers] in *.
    split; [| split; [exact Hm | apply length_insert]].
    rewrite list_fmap_insert.
    assert (Hl : map may_call_db (callers s) !! i = Some (may_call_db t))
      by (change (map may_call_db (callers s)) with (may_call_db <$> callers s);
          rewrite list_lookup_fmap, Ht; reflexivity).
    pose proof (list_sum_insert _ _ _ (may_call_db t') Hl).
    change (may_call_db <$> callers s) with (map may_call_db (callers s)). lia.
  - repeat split; lia.
Qed.

Lemma list_sum_may_call (l : list (Caller DbErr)) :
  (list_sum (map may_call_db l) <= List.length l)%nat.
Proof.
  induction l as [| t l IH]; [cbn; lia |].
  assert (Ht : (may_call_db t <= 1)%nat)
    by (unfold may_call_db; destruct (pc t); lia).
  change (list_sum (map may_call_db (t :: l)))
    with (may_call_db t + list_sum (map may_call_db l))%nat.
  cbn [List.length]. lia.
Qed.

(** Under every schedule each caller calls the database at most once, and
    the mutex is left as it was: it is never locked. *)
Theorem any_schedule_calls (schedule : list nat) (s : System Db DbErr) :
  (List.length (fallbacks (shared (run schedule s)))
   <= List.length (fallbacks (shared s)) + List.length (callers s))%nat
  /\ mutex_locked (shared (run schedule s)) = mutex_locked (shared s).
Proof.
  assert (H : (List.length (fallbacks (shared (run schedule s)))
               + list_sum (map may_call_db (callers (run schedule s)))
               <= List.length (fallbacks (shared s))
                  + list_sum (map may_call_db (callers s)))%nat
              /\ mutex_locked (shared (run schedule s)) = mutex_locked (shared s)).
  { revert s. induction schedule as [| i schedule IH]; intros s;
      [change (run [] s) with s; split; [lia | reflexivity] |].
    rewrite run_cons. destruct (IH (sched i s)) as [H1 H2].
    destruct (sched_calls i s) as (H3 & H4 & _). split; [lia | congruence]. }
  destruct H as [H1 H2]. split; [| exact H2].
  pose proof (list_sum_may_call (callers s)). lia.
Qed.

(** What [NewJobsetMapper] returns: the error of [LoadJobsets], or an error
    when the cache size is not positive, or else a mapper over the given
    database, with no call made, whose cache is in order, has the size asked
    for and holds the row loaded last under its key. *)
Theorem NewJobsetMapper_result (db : Db) (cachesize since : Z) :
  match LoadJobsets db since with
  | inl e => NewJobsetMapper LoadJobsets db cachesize since = inl (load_failed _ e)
  | inr rows =>
      if cachesize <=? 0
      then NewJobsetMapper LoadJobsets db cachesize since = inl (lru_failed _)
      else exists j,
          NewJobsetMapper LoadJobsets db cachesize since = inr j
          /\ eventDb j = db /\ fallbacks j = [] /\ mutex_locked j = false
          /\ lru_ok (jobsetIds j) /\ Lru.size (jobsetIds j) = cachesize
          /\ forall row, last rows = Some row ->
               Lru.lookup (key (Queue row) (Jobset row)) (Lru.evictList (jobsetIds j))
               = Some (JobSetId row)
  end.
Proof.
  unfold NewJobsetMapper. destruct (LoadJobsets db since) as [e | rows]; [reflexivity |].
  unfold Lru.New. destruct (cachesize <=? 0) eqn:Hn; [reflexivity |].
  set (add := fun (c : Lru.Cache) (js : JobsetRow) =>
                Lru.Add (key (Queue js) (Jobset js)) (JobSetId js) c).
  assert (Hfold_ok : forall rows c, lru_ok c -> lru_ok (fold_left add rows c)).
  { intros rs. induction rs as [| r rs IH]; intros c Hc; cbn; [exact Hc |].
    apply IH. apply Lru_Add_ok. exact Hc. }
  assert (Hfold_size : forall rows c, Lru.size (fold_left add rows c) = Lru.size c).
  { intros rs. induction rs as [| r rs IH]; intros c; cbn; [reflexivity |].
    rewrite IH. apply Add_size. }
  assert (H0 : lru_ok (Lru.mkCache cachesize [])).
  { apply (New_ok cachesize). unfold Lru.New. rewrite Hn. reflexivity. }
  eexists. split; [reflexivity |]. cbn [eventDb fallbacks mutex_locked jobsetIds].
  split; [reflexivity |]. split; [reflexivity |]. split; [reflexivity |].
  split; [apply Hfold_ok; exact H0 |].
  split; [rewrite Hfold_size; reflexivity |].
  intros row Hlast.
  assert (Hpos : 0 < Lru.size (Lru.mkCache cachesize [])) by (destruct H0 as [H _]; exact H).
  revert Hpos. generalize (Lru.mkCache cachesize []).
  induction rows as [| r rows IH]; intros c Hc; [discriminate |].
  destruct rows as [| r' rows].
  - cbn in Hlast. injection Hlast as ->. cbn. apply Add_lookup. exact Hc.
  - cbn [fold_left]. apply IH; [exact Hlast |]. unfold add. rewrite Add_size. exact Hc.
Qed.

End Mapper.

Lemma Get_keeps_cache_witness :
  lru_ok (jobsetIds (Get Sample.GetOrCreateJobsetId "q2" "js2" sample_mapper).2)
  /\ Lru.size (jobsetIds (Get Sample.GetOrCreateJobsetId "q2" "js2" sample_mapper).2)
     = Lru.size (jobsetIds sample_mapper).
Proof.
  apply (Get_keeps_cache Sample.GetOrCreateJobsetId sample_mapper "q2" "js2").
  unfold lru_ok, keys. cbn. split; [lia |]. split; [lia |].
  constructor; [intros [] | constructor].
Defined.

(** A full cache of two entries, "q0:js0" the older one. *)
Lemma Get_evicts_oldest_witness :
  let j := mkMapper (Lru.mkCache 2 [("q1:js1", 1); ("q0:js0", 7)])
                    [("q0", "js0", 7); ("q1", "js1", 1)] false [] in
  let after := jobsetIds (Get Sample.GetOrCreateJobsetId "q2" "js2" j).2 in
  Lru.lookup "q2:js2" (Lru.evictList after) = Some 3
  /\ Lru.lookup "q0:js0" (Lru.evictList after) = None
  /\ Lru.lookup "q1:js1" (Lru.evictList after) = Some 1.
Proof.
  intros j after. subst after.
  assert (Hok : lru_ok (jobsetIds j)).
  { unfold lru_ok, keys. cbn. split; [lia |]. split; [lia |].
    constructor; [intros [H | []]; discriminate |].
    constructor; [intros [] | constructor]. }
  destruct (Get_evicts_oldest Sample.GetOrCreateJobsetId j "q2" "js2" 3
              [("q0", "js0", 7); ("q1", "js1", 1); ("q2", "js2", 3)] Hok)
    as [Hnew Hothers]; try reflexivity.
  split; [exact Hnew |]. split.
  - rewrite (Hothers "q0:js0"); [reflexivity | discriminate].
  - rewrite (Hothers "q1:js1"); [reflexivity | discriminate].
Defined.

Lemma Get_shares_colliding_keys_witness :
  (Get Sample.GetOrCreateJobsetId "team" "a:b"
       (mkMapper (Lru.mkCache 2 [("team:a:b", 5)]) [("team:a", "b", 5)] false [])).1
  = inr 5.
Proof.
  apply (Get_shares_colliding_keys Sample.GetOrCreateJobsetId
           (mkMapper (Lru.mkCache 2 [("team:a:b", 5)]) [("team:a", "b", 5)] false [])
           "team" "a" "b" 5).
  reflexivity.
Defined.

Lemma calls_in_turn_witness :
  let first := Get Sample.GetOrCreateJobsetId "q2" "js2" sample_mapper in
  let second := Get Sample.GetOrCreateJobsetId "q2" "js2" first.2 in
  first.1 = inr 2 /\ second.1 = inr 2
  /\ fallbacks second.2 = (fallbacks sample_mapper ++ [("q2", "js2")])%list.
Proof.
  apply (calls_in_turn_one_fallback Sample.GetOrCreateJobsetId sample_mapper "q2" "js2" 2
           [("q1", "js1", 1); ("q2", "js2", 2)]).
  - cbn. lia.
  - reflexivity.
  - reflexivity.
Defined.

End JobsetMapperExtra.

Module KeySpec.

Import JobsetMapper Invariants.

Local Arguments String.append !_ _ / : simpl nomatch.

(** The key of a pair tells the pair apart from every other, as long as
    queue names hold no ":". *)
Theorem key_injective (queue1 jobset1 queue2 jobset2 : string) :
  count_byte ":" queue1 = 0%nat ->
  count_byte ":" queue2 = 0%nat ->
  key queue1 jobset1 = key queue2 jobset2 ->
  queue1 = queue2 /\ jobset1 = jobset2.
Proof.
  unfold key. revert queue2.
  induction queue1 as [| c q1 IH]; intros [| d q2] H1 H2 Heq; simpl in *.
  - injection Heq as ->. split; reflexivity.
  - injection Heq as Hd _. subst d. rewrite Ascii.eqb_refl in H2. discriminate.
  - injection Heq as Hc _. subst c. rewrite Ascii.eqb_refl in H1. discriminate.
  - injection Heq as Hc Heq. subst d.
    destruct (Ascii.eqb c ":"); [discriminate |].
    destruct (IH q2 H1 H2 Heq) as [-> ->]. split; reflexivity.
Qed.

Lemma key_injective_witness : "q1" = "q1" /\ "js:1" = "js:1".
Proof. apply (key_injective "q1" "js:1" "q1" "js:1"); reflexivity. Defined.

End KeySpec.

(** ** More on token authentication *)

Module AuthExtra.

Import GoStrings GoStringsFacts Auth AuthSpec AuthPaths Invariants.

Lemma cache_gets_app t1 t2 : cache_gets (t1 ++ t2) = (cache_gets t1 + cache_gets t2)%nat.
Proof. unfold cache_gets. rewrite List.filter_app, List.length_app. reflexivity. Qed.

Lemma cache_sets_app t1 t2 : cache_sets (t1 ++ t2) = (cache_sets t1 + cache_sets t2)%nat.
Proof. unfold cache_sets. rewrite List.filter_app, List.length_app. reflexivity. Qed.

(** [validateKid] accepts exactly the kids that are not empty and hold
    no "../". *)
Theorem validateKid_accepts (kid : string) :
  validateKid kid = inr tt <-> kid <> "" /\ ~ exists i, occurs_at "../" kid i.
Proof.
  split; [apply validateKid_ok |].
  intros [Hne Hno]. unfold validateKid.
  destruct (String.eqb kid "") eqn:E; [apply String.eqb_eq in E; contradiction |].
  destruct (Contains kid "../") eqn:C; [| reflexivity].
  exfalso. apply Hno. apply Contains_occurs. exact C.
Qed.

Lemma validateKid_errors kid e :
  validateKid kid = inl e -> e = err_kid_empty \/ e = err_kid_attack.
Proof.
  unfold validateKid. destruct (String.eqb kid ""); [intros [= <-]; left; reflexivity |].
  destruct (Contains kid "../"); [intros [= <-]; right; reflexivity | discriminate].
Qed.

(** [Split] cuts at every separator. *)
Lemma Split_length (s : string) (c : ascii) :
  List.length (Split s c) = S (count_byte c s).
Proof.
  induction s as [| d s IH]; [reflexivity |].
  cbn [Split count_byte]. destruct (Ascii.eqb d c).
  - cbn [List.length]. rewrite IH. reflexivity.
  - destruct (Split s c) as [| p ps]; cbn [List.length] in *; [discriminate | lia].
Qed.

Section Service.

Variable DecodeString : string -> option string.
Variable Unmarshal_auth : string -> option (string * string).
Variable Unmarshal_exp : string -> option Z.
Variable Unmarshal_kid : string -> option string.

Local Abbreviation parseAuth := (Auth.parseAuth DecodeString Unmarshal_auth).
Local Abbreviation parseTime := (Auth.parseTime DecodeString Unmarshal_exp).
Local Abbreviation kid_of := (Auth.kid_of DecodeString Unmarshal_kid).
Local Abbreviation getClusterURL := (Auth.getClusterURL DecodeString Unmarshal_kid).
Local Abbreviation Authenticate :=
  (Auth.Authenticate DecodeString Unmarshal_auth Unmarshal_exp Unmarshal_kid).
Local Abbreviation with_token :=
  (Auth.with_token DecodeString Unmarshal_exp Unmarshal_kid).
Local Abbreviation carries := (Auth.carries DecodeString Unmarshal_auth).
Local Abbreviation exp_claim := (Auth.exp_claim DecodeString Unmarshal_exp).
Local Abbreviation reachable :=
  (Auth.reachable DecodeString Unmarshal_auth Unmarshal_exp Unmarshal_kid).
Local Abbreviation path := (AuthPaths.path DecodeString Unmarshal_exp Unmarshal_kid).

(** A token is refused for the number of its parts exactly when it does not
    hold two "." (three parts). *)
Theorem parseTime_three_parts (token : string) :
  parseTime token = inl err_not_three_parts <-> count_byte "." token <> 2%nat.
Proof.
  pose proof (Split_length token ".") as Hlen. unfold Auth.parseTime, decode.
  destruct (Split token ".") as [| a [| b [| c [| d l]]]]; cbn [List.length] in Hlen;
    try (split; [intros _; lia | reflexivity]).
  split; [| intros H; exfalso; lia].
  destruct (DecodeString b) as [decoded |]; [| discriminate].
  destruct (Unmarshal_exp decoded) as [exp |]; [| discriminate].
  destruct (exp =? 0); discriminate.
Qed.

Lemma parseTime_errors token e :
  parseTime token = inl e ->
  e = err_base64 \/ e = err_json \/ e = err_not_three_parts \/ e = err_expiry_not_set.
Proof.
  unfold Auth.parseTime, decode.
  destruct (Split token ".") as [| a [| b [| c [| d l]]]];
    try (intros [= <-]; auto).
  destruct (DecodeString b) as [decoded |]; [| intros [= <-]; auto].
  destruct (Unmarshal_exp decoded) as [exp |]; [| intros [= <-]; auto].
  destruct (exp =? 0); [intros [= <-]; auto | discriminate].
Qed.

Lemma kid_of_errors token e :
  kid_of token = inl e -> e = err_base64 \/ e = err_json.
Proof.
  unfold Auth.kid_of, decode.
  destruct (DecodeString _) as [decoded |]; [| intros [= <-]; auto].
  destruct (Unmarshal_kid decoded); [discriminate | intros [= <-]; auto].
Qed.

(** Every call that has its token goes one of the ways of [path]. *)
Lemma with_token_path svc env token ca st :
  path svc env token ca st (with_token svc env token ca st).
Proof.
  unfold Auth.with_token, bind, lift.
  destruct (parseTime token) as [e | t] eqn:Ht; [apply path_time_error; exact Ht |].
  destruct (After (Clock_Now env) t) eqn:Hlive; [apply (path_expired _ _ _ _ _ _ _ _ t); assumption |].
  unfold TokenCache_Get. cbv beta.
  assert (Hmiss :
    not_cached env token st ->
    path svc env token ca st
      ((url <- getClusterURL svc env token ;;
        name <- reviewToken svc env url token ca ;;
        TokenCache_Set env token (obj_CacheData (mkCacheData name true))
          (Sub t (time_Now_ttl env)) ;;;
        ret (NewStaticPrincipal name [name]))
         (mkState (TokenCache st) (trace st ++ [ev_cache_get token])))).
  { intros Hnc. unfold bind, Auth.getClusterURL, bind, lift, ReadFile, ret.
    destruct (kid_of token) as [e | kid] eqn:Hkid;
      [apply (path_kid_unreadable _ _ _ _ _ _ _ _ t); assumption |].
    destruct (validateKid kid) as [e | []] eqn:Hvalid;
      [apply (path_kid_refused _ _ _ _ _ _ _ _ t kid); assumption |].
    cbn [TokenCache trace].
    destruct (os_ReadFile env (KidMappingFileLocation svc +:+ kid)) as [url |] eqn:Hfile;
      [| apply (path_no_file _ _ _ _ _ _ _ _ t kid); assumption].
    unfold reviewToken, bind, TokenReviewer_ReviewToken. cbn [TokenCache trace].
    destruct (ReviewToken env url token ca) as [r |] eqn:Hreview;
      [| apply (path_review_failed _ _ _ _ _ _ _ _ t kid url); assumption].
    destruct (Authenticated r) eqn:Hauth; cbn [negb];
      unfold TokenCache_Set, ret, fail; cbn [TokenCache trace].
    - apply (path_accepted _ _ _ _ _ _ _ _ t kid url r); assumption.
    - apply (path_rejected _ _ _ _ _ _ _ _ t kid url r); assumption. }
  destruct (cache_Get (time_Now_get env) token (TokenCache st)) as [[[name valid] |] |] eqn:Hget.
  - destruct valid; cbn [Valid Name].
    + apply (path_cached_valid _ _ _ _ _ _ _ _ t name); assumption.
    + apply (path_cached_invalid _ _ _ _ _ _ _ _ t name); assumption.
  - apply Hmiss. intros d Hd. unfold not_cached in *. rewrite Hget in Hd. discriminate.
  - apply Hmiss. intros d Hd. unfold not_cached in *. rewrite Hget in Hd. discriminate.
Qed.

Lemma carries_one authorization token ca token' ca' :
  carries authorization token ca -> carries authorization token' ca' ->
  token = token' /\ ca = ca'.
Proof.
  intros (c & Hs & Hp) (c' & Hs' & Hp'). rewrite Hs in Hs'. injection Hs' as <-.
  rewrite Hp in Hp'. injection Hp' as <- <-. split; reflexivity.
Qed.

(** A header that is not "KubernetesAuth", a space and credentials that
    decode is refused as missing credentials, whatever went wrong, and the
    call does nothing else. *)
Theorem Authenticate_missing_credentials svc env authorization st :
  (forall credentials,
      SplitN2 authorization " " = ["KubernetesAuth"; credentials] ->
      exists e, parseAuth credentials = inl e) ->
  Authenticate svc env authorization st = (inl missingCredentials, st).
Proof.
  intros Hbad. apply Authenticate_no_token.
  intros token ca (credentials & Hsplit & Hparse).
  destruct (Hbad credentials Hsplit) as [e He]. rewrite Hparse in He. discriminate.
Qed.

(** Every call goes one of the ways of [path], or has no token. *)
Lemma Authenticate_path svc env authorization st :
  (exists token ca, carries authorization token ca
                    /\ path svc env token ca st (Authenticate svc env authorization st))
  \/ ((forall token ca, ~ carries authorization token ca)
      /\ Authenticate svc env authorization st = (inl missingCredentials, st)).
Proof.
  destruct (Authenticate_token_or_not DecodeString Unmarshal_auth Unmarshal_exp
              Unmarshal_kid svc env authorization) as [(token & ca & Hc) | Hno].
  - left. exists token, ca. split; [exact Hc |].
    rewrite (Authenticate_with_token _ _ _ _ _ _ _ _ _ Hc). apply with_token_path.
  - right. split; [| apply Hno].
    intros token ca Hc. specialize (Hno st).
    rewrite (Authenticate_with_token _ _ _ _ _ _ _ _ _ Hc) in Hno.
    pose proof (with_token_path svc env token ca st) as Hp. rewrite Hno in Hp.
    inversion Hp as [e He | | | | t e _ _ _ He | t kid e _ _ _ _ He | | | |].
    + apply parseTime_errors in He. destruct He as [E | [E | [E | E]]]; discriminate.
    + apply kid_of_errors in He. destruct He as [E | E]; discriminate.
    + apply validateKid_errors in He. destruct He as [E | E]; discriminate.
Qed.

Lemma path_not_rejected svc env token ca st out e :
  path svc env token ca st out -> out.1 = inl e -> e <> err_rejected ->
  TokenCache out.2 = TokenCache st.
Proof.
  intros Hp. destruct Hp; cbn [fst snd TokenCache]; intros He Hne;
    try reflexivity; try discriminate.
  injection He as <-. contradiction.
Qed.

Lemma path_rejected_cache svc env token ca st out :
  path svc env token ca st out -> out.1 = inl err_rejected ->
  TokenCache out.2 =
  cache_Set (time_Now_set env) token (obj_CacheData (mkCacheData "" false))
            (InvalidTokenExpiry svc) (TokenCache st).
Proof.
  intros Hp.
  destruct Hp as [e He | | | | t e _ _ _ He | t kid e _ _ _ _ He | | | |];
    cbn [fst snd TokenCache]; intros Hr; try discriminate; try reflexivity.
  - injection Hr as ->. apply parseTime_errors in He.
    destruct He as [E | [E | [E | E]]]; discriminate.
  - injection Hr as ->. apply kid_of_errors in He. destruct He as [E | E]; discriminate.
  - injection Hr as ->. apply validateKid_errors in He. destruct He as [E | E]; discriminate.
Qed.

Lemma path_success svc env token ca st out p :
  path svc env token ca st out -> out.1 = inr p ->
  exists t, parseTime token = inr t
            /\ After (Clock_Now env) t = false
            /\ p_groups p = [p_name p]
            /\ ((cache_Get (time_Now_get env) token (TokenCache st)
                 = Some (obj_CacheData (mkCacheData (p_name p) true))
                 /\ TokenCache out.2 = TokenCache st)
                \/ (exists kid url r,
                      not_cached env token st
                      /\ kid_of token = inr kid
                      /\ validateKid kid = inr tt
                      /\ os_ReadFile env (KidMappingFileLocation svc +:+ kid) = Some url
                      /\ ReviewToken env url token ca = Some r
                      /\ Authenticated r = true
                      /\ Username r = p_name p
                      /\ TokenCache out.2 =
                         cache_Set (time_Now_set env) token
                                   (obj_CacheData (mkCacheData (p_name p) true))
                                   (Sub t (time_Now_ttl env)) (TokenCache st))).
Proof.
  intros Hp. destruct Hp; cbn [fst snd TokenCache]; intros Hr; try discriminate;
    injection Hr as <-; cbn [p_name p_groups]; exists t;
    (split; [assumption |]); (split; [assumption |]); (split; [reflexivity |]).
  - left. split; [assumption | reflexivity].
  - right. exists kid, url, r. repeat split; assumption.
Qed.

(** [Authenticate] returns a principal only for a header that carries a
    token that is not expired, and only when the cache holds a valid entry
    for the token or the token's kid passed [validateKid] and the reviewer
    authenticated the token; the principal's only group is its name. *)
Theorem Authenticate_sound svc env authorization st p :
  (Authenticate svc env authorization st).1 = inr p ->
  exists token ca t,
    carries authorization token ca
    /\ parseTime token = inr t
    /\ After (Clock_Now env) t = false
    /\ p_groups p = [p_name p]
    /\ (cache_Get (time_Now_get env) token (TokenCache st)
          = Some (obj_CacheData (mkCacheData (p_name p) true))
        \/ exists kid url r,
             kid_of token = inr kid
             /\ validateKid kid = inr tt
             /\ os_ReadFile env (KidMappingFileLocation svc +:+ kid) = Some url
             /\ ReviewToken env url token ca = Some r
             /\ Authenticated r = true
             /\ Username r = p_name p).
Proof.
  intros Hok.
  destruct (Authenticate_path svc env authorization st)
    as [(token & ca & Hc & Hp) | [_ Hno]]; [| rewrite Hno in Hok; discriminate].
  destruct (path_success _ _ _ _ _ _ _ Hp Hok) as (t & Ht & Hlive & Hg & Hhow).
  exists token, ca, t. repeat (split; [assumption |]).
  destruct Hhow as [[Hget _] | (kid & url & r & _ & Hk & Hv & Hf & Hr & Ha & Hu & _)].
  - left. exact Hget.
  - right. exists kid, url, r. repeat split; assumption.
Qed.

(** When [Authenticate] writes to the cache: a failure leaves the cache as
    it was unless it is the rejection by the reviewer, which stores the
    invalid entry; a success leaves it as it was (the principal came from
    the cache) or stores the valid entry for the principal. *)
Theorem Authenticate_cache_writes svc env authorization st :
  let out := Authenticate svc env authorization st in
  (forall e, out.1 = inl e -> e <> err_rejected -> TokenCache out.2 = TokenCache st)
  /\ (out.1 = inl err_rejected ->
      exists token ca,
        carries authorization token ca
        /\ TokenCache out.2 =
           cache_Set (time_Now_set env) token (obj_CacheData (mkCacheData "" false))
                     (InvalidTokenExpiry svc) (TokenCache st))
  /\ (forall p, out.1 = inr p ->
        TokenCache out.2 = TokenCache st
        \/ exists token ca t,
             carries authorization token ca
             /\ parseTime token = inr t
             /\ TokenCache out.2 =
                cache_Set (time_Now_set env) token
                          (obj_CacheData (mkCacheData (p_name p) true))
                          (Sub t (time_Now_ttl env)) (TokenCache st)).
Proof.
  cbv zeta.
  destruct (Authenticate_path svc env authorization st)
    as [(token & ca & Hc & Hp) | [_ Hno]].
  - split; [| split].
    + intros e He Hne. apply (path_not_rejected _ _ _ _ _ _ _ Hp He Hne).
    + intros He. exists token, ca. split; [exact Hc |].
      apply (path_rejected_cache _ _ _ _ _ _ Hp He).
    + intros p Hok.
      destruct (path_success _ _ _ _ _ _ _ Hp Hok) as (t & Ht & _ & _ & Hhow).
      destruct Hhow as [[_ Hsame] | (kid & url & r & _ & _ & _ & _ & _ & _ & _ & Hset)].
      * left. exact Hsame.
      * right. exists token, ca, t. repeat split; assumption.
  - rewrite Hno. cbn [fst snd]. split; [| split].
    + intros; reflexivity.
    + discriminate.
    + discriminate.
Qed.

Lemma path_cache_change svc env token ca st out :
  path svc env token ca st out ->
  TokenCache out.2 = TokenCache st
  \/ exists now x d, TokenCache out.2 = cache_Set now token (obj_CacheData x) d (TokenCache st).
Proof.
  intros Hp. destruct Hp; cbn [snd TokenCache]; try (left; reflexivity);
    right; eexists _, _, _; reflexivity.
Qed.

(** A call touches the cache under its own token only: the entry of every
    other key is as it was. *)
Theorem Authenticate_other_keys svc env authorization st k :
  (forall ca, ~ carries authorization k ca) ->
  items (TokenCache (Authenticate svc env authorization st).2) !! k
  = items (TokenCache st) !! k.
Proof.
  intros Hk.
  destruct (Authenticate_path svc env authorization st)
    as [(token & ca & Hc & Hp) | [_ Hno]]; [| rewrite Hno; reflexivity].
  destruct (path_cache_change _ _ _ _ _ _ Hp) as [-> | (now & x & d & ->)];
    [reflexivity |].
  unfold cache_Set. cbn [items]. apply lookup_insert_ne.
  intros <-. apply (Hk ca). exact Hc.
Qed.

(** What one call adds to the trace. *)
Lemma path_trace svc env token ca st out :
  path svc env token ca st out ->
  exists added,
    trace out.2 = (trace st ++ added)%list
    /\ (cache_sets added <= reviews added)%nat
    /\ (reviews added <= file_reads added)%nat
    /\ (file_reads added <= cache_gets added)%nat
    /\ (cache_gets added <= 1)%nat.
Proof.
  intros Hp.
  destruct Hp; cbn [snd trace]; unfold after_review, after_read, after_get;
    rewrite <- ?app_assoc; cbn [app].
  1-2: exists []; rewrite app_nil_r; cbn; repeat split; lia.
  all: eexists; split; [reflexivity |]; cbn; repeat split; lia.
Qed.

(** The calls one call adds to the trace, in their order. *)
Lemma path_call_events svc env token ca st out :
  path svc env token ca st out ->
  exists added, trace out.2 = (trace st ++ added)%list /\ call_events token added.
Proof.
  intros Hp.
  destruct Hp; cbn [snd trace]; unfold after_review, after_read, after_get;
    rewrite <- ?app_assoc; cbn [app].
  1-2: exists []; rewrite app_nil_r; split; [reflexivity | constructor].
  all: eexists; split; [reflexivity | constructor].
Qed.

Local Ltac peel Hadd :=
  lazymatch type of Hadd with
  | [] = (?l ++ _ :: _)%list => destruct l; discriminate Hadd
  | (_ :: _) = (?l ++ _ :: _)%list =>
      let e := fresh "e" in
      destruct l as [| e l]; cbn [app] in Hadd;
      [ try discriminate Hadd
      | injection Hadd as <- Hadd; peel Hadd ]
  end.

Local Ltac inside_call Hce Hadd := destruct Hce; peel Hadd.

(** A trace in order stays in order when the calls of one more run of
    [Authenticate] are added to it. *)
Lemma in_order_app t token added :
  in_order t -> call_events token added -> in_order (t ++ added).
Proof.
  intros (Hreview & Hread & Hset) Hce. split; [| split].
  - intros before url tok ca after Heq. apply List.app_eq_app in Heq.
    destruct Heq as [l [[Ht Hadd] | [Hb Hadd]]].
    + destruct l as [| e l]; cbn [app] in Hadd.
      * destruct Hce; discriminate Hadd.
      * injection Hadd as <- _. apply (Hreview before url tok ca l Ht).
    + subst before. inside_call Hce Hadd.
      all: inversion Hadd; subst; eexists _, _; reflexivity.
  - intros before path' after Heq. apply List.app_eq_app in Heq.
    destruct Heq as [l [[Ht Hadd] | [Hb Hadd]]].
    + destruct l as [| e l]; cbn [app] in Hadd.
      * destruct Hce; discriminate Hadd.
      * injection Hadd as <- _. apply (Hread before path' l Ht).
    + subst before. inside_call Hce Hadd.
      all: inversion Hadd; subst; eexists _, _; reflexivity.
  - intros before k x' d' after Heq. apply List.app_eq_app in Heq.
    destruct Heq as [l [[Ht Hadd] | [Hb Hadd]]].
    + destruct l as [| e l]; cbn [app] in Hadd.
      * destruct Hce; discriminate Hadd.
      * injection Hadd as <- _. apply (Hset before k x' d' l Ht).
    + subst before. inside_call Hce Hadd.
      inversion Hadd; subst.
      exists (t ++ [ev_cache_get k; ev_read_file path])%list, url, ca.
      rewrite <- app_assoc. reflexivity.
Qed.


(** In every state of the service everything in the cache is a [CacheData]. *)
Lemma reachable_only_CacheData svc st : reachable svc st -> only_CacheData st.
Proof.
  induction 1 as [| st env authorization _ IH | st k _ IH].
  - intros k item Hl. cbn in Hl. rewrite lookup_empty in Hl. discriminate.
  - destruct (Authenticate_path svc env authorization st)
      as [(token & ca & Hc & Hp) | [_ Hno]]; [| rewrite Hno; exact IH].
    destruct (path_cache_change _ _ _ _ _ _ Hp) as [Heq | (now & x & d & Heq)];
      intros k item Hl; rewrite Heq in Hl; [apply (IH k item Hl) |].
    unfold cache_Set in Hl. cbn [items] in Hl.
    destruct (decide (token = k)) as [<- | Hne].
    + rewrite lookup_insert_eq in Hl. injection Hl as <-. exists x. reflexivity.
    + rewrite lookup_insert_ne in Hl by exact Hne. apply (IH k item Hl).
  - intros k' item Hl. cbn in Hl.
    destruct (decide (k = k')) as [<- | Hne].
    + rewrite lookup_delete_eq in Hl. discriminate.
    + rewrite lookup_delete_ne in Hl by exact Hne. apply (IH k' item Hl).
Qed.

(** In every state of the service, a call whose token is not expired and
    for which the cache has an entry that has not run out is answered from
    the cache: it only reads the cache, and the answer is the entry's. *)
Theorem found_is_served svc env authorization token ca t st x :
  reachable svc st ->
  carries authorization token ca ->
  parseTime token = inr t ->
  After (Clock_Now env) t = false ->
  cache_Get (time_Now_get env) token (TokenCache st) = Some x ->
  exists d,
    x = obj_CacheData d
    /\ (Authenticate svc env authorization st).2
       = mkState (TokenCache st) (trace st ++ [ev_cache_get token])
    /\ (Authenticate svc env authorization st).1
       = if Valid d then inr (NewStaticPrincipal (Name d) [Name d])
         else inl err_token_invalid.
Proof.
  intros Hreach Hc Ht Hlive Hget.
  destruct (cache_Get_found _ _ _ _ Hget) as (item & Hl & Hobj).
  destruct (reachable_only_CacheData _ _ Hreach token item Hl) as [[name valid] Hd].
  rewrite Hd in Hobj. subst x.
  exists (mkCacheData name valid). split; [reflexivity |].
  destruct valid.
  - rewrite (Authenticate_cached_valid _ _ _ _ svc env authorization token ca t st
               Hc Ht Hlive name Hget). split; reflexivity.
  - rewrite (Authenticate_cached_invalid _ _ _ _ svc env authorization token ca t st
               Hc Ht Hlive name Hget). split; reflexivity.
Qed.

(** The expiry is counted to the second inclusive: a token with an expiry
    is refused as expired exactly when its instant is before the reading of
    the service's clock, not when the two are equal. *)
Theorem expired_exactly svc env authorization token ca exp st :
  carries authorization token ca ->
  exp_claim token exp ->
  exp <> 0 ->
  (Authenticate svc env authorization st).1 = inl err_expired
  <-> time_Unix exp < Clock_Now env.
Proof.
  intros Hc Hexp Hnz.
  assert (Ht : parseTime token = inr (time_Unix exp)).
  { rewrite (parseTime_exp _ _ _ _ Hexp).
    replace (exp =? 0) with false by (symmetry; apply Z.eqb_neq; exact Hnz). reflexivity. }
  rewrite (Authenticate_with_token _ _ _ _ _ _ _ _ _ Hc).
  pose proof (with_token_path svc env token ca st) as Hp.
  split.
  - intros Hr.
    destruct Hp as [e He | t Ht' Hl | | | t e _ _ _ He | t kid e _ _ _ _ He | | | |];
      cbn [fst] in Hr; try discriminate.
    + rewrite Ht in He. discriminate.
    + rewrite Ht in Ht'. injection Ht' as <-. unfold After in Hl.
      apply Z.ltb_lt. exact Hl.
    + injection Hr as ->. apply kid_of_errors in He. destruct He as [E | E]; discriminate.
    + injection Hr as ->. apply validateKid_errors in He. destruct He as [E | E]; discriminate.
  - intros Hlt. unfold Auth.with_token, bind, lift. rewrite Ht. unfold After.
    replace (time_Unix exp <? Clock_Now env) with true
      by (symmetry; apply Z.ltb_lt; exact Hlt).
    reflexivity.
Qed.

(** A token that was accepted is answered from the cache for as long as the
    entry lives, with the same principal and without another review. *)
Theorem accepted_then_cached svc env env' authorization token ca t kid url r st :
  carries authorization token ca ->
  parseTime token = inr t ->
  After (Clock_Now env) t = false ->
  After (Clock_Now env') t = false ->
  not_cached env token st ->
  kid_of token = inr kid ->
  validateKid kid = inr tt ->
  os_ReadFile env (KidMappingFileLocation svc +:+ kid) = Some url ->
  ReviewToken env url token ca = Some r ->
  Authenticated r = true ->
  0 < Sub t (time_Now_ttl env) ->
  - 2 ^ 63 <= time_Now_get env' < 2 ^ 63 ->
  - 2 ^ 63 <= time_Now_set env + Sub t (time_Now_ttl env) < 2 ^ 63 ->
  time_Now_get env' <= time_Now_set env + Sub t (time_Now_ttl env) ->
  let first := Authenticate svc env authorization st in
  let second := Authenticate svc env' authorization first.2 in
  second.1 = first.1
  /\ first.1 = inr (NewStaticPrincipal (Username r) [Username r])
  /\ reviews (trace second.2) = reviews (trace first.2)
  /\ TokenCache second.2 = TokenCache first.2.
Proof.
  intros Hc Ht Hlive Hlive' Hmiss Hkid Hvalid Hfile Hreview Hauth Hpos Hr' Hr Hwithin
         first second.
  pose proof (Authenticate_reviewed _ _ _ _ svc env authorization token ca t st
                Hc Ht Hlive kid url r Hmiss Hkid Hvalid Hfile Hreview) as Hrun.
  cbv zeta in Hrun. rewrite Hauth in Hrun.
  assert (Hget : cache_Get (time_Now_get env') token (TokenCache first.2)
                 = Some (obj_CacheData (mkCacheData (Username r) true))).
  { subst first. rewrite Hrun. cbn [snd TokenCache].
    apply cache_Get_Set_live; assumption. }
  subst second.
  rewrite (Authenticate_cached_valid _ _ _ _ svc env' authorization token ca t first.2
             Hc Ht Hlive' (Username r) Hget).
  cbn [fst snd trace TokenCache]. rewrite reviews_app. cbn.
  subst first. rewrite Hrun. cbn [fst snd]. repeat split. lia.
Qed.

End Service.

(** *** At sample inputs *)

Lemma Authenticate_missing_credentials_witness :
  Authenticate Sample.DecodeString Sample.Unmarshal_auth Sample.Unmarshal_exp
               Sample.Unmarshal_kid Sample.svc Sample.env "" initial
  = (inl missingCredentials, initial)
  /\ Authenticate Sample.DecodeString Sample.Unmarshal_auth Sample.Unmarshal_exp
                  Sample.Unmarshal_kid Sample.svc Sample.env "Bearer k1~2000~good|ca" initial
     = (inl missingCredentials, initial).
Proof.
  split; apply Authenticate_missing_credentials; intros credentials H; discriminate H.
Defined.

Lemma Authenticate_sound_witness :
  exists token ca t,
    carries Sample.DecodeString Sample.Unmarshal_auth
            "KubernetesAuth k1~2000~good|ca" token ca
    /\ parseTime Sample.DecodeString Sample.Unmarshal_exp token = inr t
    /\ After (Clock_Now Sample.env) t = false
    /\ ["alice"] = ["alice"]
    /\ (cache_Get (time_Now_get Sample.env) token (TokenCache initial)
          = Some (obj_CacheData (mkCacheData "alice" true))
        \/ exists kid url r,
             kid_of Sample.DecodeString Sample.Unmarshal_kid token = inr kid
             /\ validateKid kid = inr tt
             /\ os_ReadFile Sample.env (KidMappingFileLocation Sample.svc +:+ kid) = Some url
             /\ ReviewToken Sample.env url token ca = Some r
             /\ Authenticated r = true
             /\ Username r = "alice").
Proof.
  apply (Authenticate_sound Sample.DecodeString Sample.Unmarshal_auth Sample.Unmarshal_exp
           Sample.Unmarshal_kid Sample.svc Sample.env "KubernetesAuth k1~2000~good|ca"
           initial (NewStaticPrincipal "alice" ["alice"])).
  vm_compute. reflexivity.
Defined.

Lemma Authenticate_other_keys_witness :
  items (TokenCache
           (Authenticate Sample.DecodeString Sample.Unmarshal_auth Sample.Unmarshal_exp
                         Sample.Unmarshal_kid Sample.svc Sample.env
                         "KubernetesAuth k1~2000~good|ca" Sample.st_cached).2)
    !! "k1.2000.bad"
  = items (TokenCache Sample.st_cached) !! "k1.2000.bad".
Proof.
  apply Authenticate_other_keys.
  intros ca (credentials & Hsplit & Hparse).
  injection Hsplit as <-. vm_compute in Hparse. discriminate Hparse.
Defined.


Lemma found_is_served_witness :
  let st := (Authenticate Sample.DecodeString Sample.Unmarshal_auth Sample.Unmarshal_exp
                          Sample.Unmarshal_kid Sample.svc Sample.env
                          "KubernetesAuth k1~2000~good|ca" initial).2 in
  exists d,
    obj_CacheData (mkCacheData "alice" true) = obj_CacheData d
    /\ (Authenticate Sample.DecodeString Sample.Unmarshal_auth Sample.Unmarshal_exp
                     Sample.Unmarshal_kid Sample.svc Sample.env
                     "KubernetesAuth k1~2000~good|ca" st).2
       = mkState (TokenCache st) (trace st ++ [ev_cache_get "k1.2000.good"])
    /\ (Authenticate Sample.DecodeString Sample.Unmarshal_auth Sample.Unmarshal_exp
                     Sample.Unmarshal_kid Sample.svc Sample.env
                     "KubernetesAuth k1~2000~good|ca" st).1
       = if Valid d then inr (NewStaticPrincipal (Name d) [Name d])
         else inl err_token_invalid.
Proof.
  intros st.
  apply (found_is_served Sample.DecodeString Sample.Unmarshal_auth Sample.Unmarshal_exp
           Sample.Unmarshal_kid Sample.svc Sample.env "KubernetesAuth k1~2000~good|ca"
           "k1.2000.good" "ca" (time_Unix 2000) st).
  - apply reachable_call. apply reachable_initial.
  - exists "k1~2000~good|ca". split; reflexivity.
  - reflexivity.
  - reflexivity.
  - vm_compute. reflexivity.
Defined.

Lemma expired_exactly_witness :
  (Authenticate Sample.DecodeString Sample.Unmarshal_auth Sample.Unmarshal_exp
                Sample.Unmarshal_kid Sample.svc Sample.env
                "KubernetesAuth k1~999~good|ca" initial).1 = inl err_expired
  <-> time_Unix 999 < Clock_Now Sample.env.
Proof.
  apply (expired_exactly Sample.DecodeString Sample.Unmarshal_auth Sample.Unmarshal_exp
           Sample.Unmarshal_kid Sample.svc Sample.env "KubernetesAuth k1~999~good|ca"
           "k1.999.good" "ca" 999 initial).
  - exists "k1~999~good|ca". split; reflexivity.
  - exists "k1", "999", "good", "999". repeat split; reflexivity.
  - discriminate.
Defined.

Lemma accepted_then_cached_witness :
  let first := Authenticate Sample.DecodeString Sample.Unmarshal_auth Sample.Unmarshal_exp
                 Sample.Unmarshal_kid Sample.svc Sample.env
                 "KubernetesAuth k1~2000~good|ca" initial in
  let second := Authenticate Sample.DecodeString Sample.Unmarshal_auth Sample.Unmarshal_exp
                  Sample.Unmarshal_kid Sample.svc Sample.env
                  "KubernetesAuth k1~2000~good|ca" first.2 in
  second.1 = first.1
  /\ first.1 = inr (NewStaticPrincipal "alice" ["alice"])
  /\ reviews (trace second.2) = reviews (trace first.2)
  /\ TokenCache second.2 = TokenCache first.2.
Proof.
  apply (accepted_then_cached Sample.DecodeString Sample.Unmarshal_auth
           Sample.Unmarshal_exp Sample.Unmarshal_kid Sample.svc Sample.env Sample.env
           "KubernetesAuth k1~2000~good|ca" "k1.2000.good" "ca" (time_Unix 2000)
           "k1" "https://c1" (mkTokenReview true "alice") initial).
  - exists "k1~2000~good|ca". split; reflexivity.
  - reflexivity.
  - reflexivity.
  - reflexivity.
  - intros d. discriminate.
  - reflexivity.
  - reflexivity.
  - reflexivity.
  - reflexivity.
  - reflexivity.
  - vm_compute. reflexivity.
  - split; vm_compute; [discriminate | reflexivity].
  - split; vm_compute; [discriminate | reflexivity].
  - vm_compute. discriminate.
Defined.

Lemma rejected_then_refused_witness :
  let st' := (Authenticate Sample.DecodeString Sample.Unmarshal_auth Sample.Unmarshal_exp
                Sample.Unmarshal_kid Sample.svc Sample.env
                "KubernetesAuth k1~2000~bad|ca" initial).2 in
  (Authenticate Sample.DecodeString Sample.Unmarshal_auth Sample.Unmarshal_exp
                Sample.Unmarshal_kid Sample.svc Sample.env
                "KubernetesAuth k1~2000~bad|ca" st').1 = inl err_token_invalid
  /\ reviews (trace (Authenticate Sample.DecodeString Sample.Unmarshal_auth
                       Sample.Unmarshal_exp Sample.Unmarshal_kid Sample.svc Sample.env
                       "KubernetesAuth k1~2000~bad|ca" st').2) = reviews (trace st').
Proof.
  apply (rejected_then_refused Sample.DecodeString Sample.Unmarshal_auth
           Sample.Unmarshal_exp Sample.Unmarshal_kid Sample.svc Sample.env Sample.env
           "KubernetesAuth k1~2000~bad|ca" "k1.2000.bad" "ca" (time_Unix 2000)
           "k1" "https://c1" (mkTokenReview false "") initial).
  - exists "k1~2000~bad|ca". split; reflexivity.
  - reflexivity.
  - reflexivity.
  - reflexivity.
  - intros d. discriminate.
  - reflexivity.
  - reflexivity.
  - reflexivity.
  - reflexivity.
  - reflexivity.
  - vm_compute. reflexivity.
  - split; vm_compute; [discriminate | reflexivity].
  - split; vm_compute; [discriminate | reflexivity].
  - vm_compute. discriminate.
Defined.

End AuthExtra.

(** ** More on the lease protocol schema *)

Module ProtoExtra.

Import Proto.

Lemma NoDup_by_computation {A} `{EqDecision A} (l : list A) :
  bool_decide (NoDup l) = true -> NoDup l.
Proof. apply bool_decide_eq_true_1. Qed.

(** The file is a well-formed schema: no two messages share a name, and
    within each message no two fields share a number or a name and every
    number is positive; every message type a field of the file names without
    a package is declared in the file, but for IngressConfig and
    ServiceConfig, which come from the imported submit.proto. *)
Theorem messages_well_formed :
  NoDup (map mname messages)
  /\ Forall (fun m => NoDup (map fnumber (fields m))
                      /\ NoDup (map fname (fields m))
                      /\ Forall (fun f => 1 <= fnumber f) (fields m)) messages
  /\ Forall (fun m =>
       Forall (fun f =>
         match fty f with
         | TScalar _ => True
         | TMessage n =>
             GoStrings.Contains n "." = true
             \/ is_Some (find_message n)
             \/ n = "IngressConfig" \/ n = "ServiceConfig"
         end) (fields m)) messages.
Proof.
  split; [apply NoDup_by_computation; vm_compute; reflexivity |]. split.
  - unfold messages. repeat first [apply List.Forall_cons | apply List.Forall_nil];
      (split; [apply NoDup_by_computation; vm_compute; reflexivity |]);
      (split; [apply NoDup_by_computation; vm_compute; reflexivity |]);
      repeat first [apply List.Forall_cons; [vm_compute; discriminate |]
                   | apply List.Forall_nil].
  - unfold messages. repeat first [apply List.Forall_cons | apply List.Forall_nil];
      cbv [fld fld_nn fld_dep Quantity Taint PodSpec Timestamp fty];
      first [exact I
            | left; vm_compute; reflexivity
            | right; left; eexists; vm_compute; reflexivity
            | right; right; left; reflexivity
            | right; right; right; reflexivity].
Qed.

End ProtoExtra.
